(** * CObjectPool: a fixed-capacity object pool and its iterator

    A shallow embedding of [include/CObjectPool.hpp].

    - [size_t] values are binary naturals [N] below [SIZE_MODULUS]; the
      increments and decrements of the source wrap around explicitly.
    - [std::vector<CObject>] is a [list (CObject T)] read and written by
      index.  An out-of-bounds subscript and a null dereference have no
      defined result in the source: every operation returns an [option], and
      [None] stands for "no defined result" (or, for the two unbounded loops
      of the iterator, for a bound that was too small).  The theorems below
      show that a well-formed pool never produces [None].
    - a [T*] into the pool's storage is a [pointer]: either [nullptr] or the
      address of the element of one slot.
    - the element type [T], its default constructor [T()] and its
      constructor from arguments [T(args...)] are parameters, and so is the
      state in which a constructor call leaves the arguments forwarded to
      it. *)

From stdpp Require Import base option numbers list sorting strings.

Module ObjectPool.

#[local] Open Scope N_scope.

(** ** Errors and results *)

Inductive EPoolError : Set :=
| OUT_OF_RANGE
| ALREADY_IN_USE
| NOT_IN_USE
| ALREADY_UNUSED
| FULL.

#[global] Instance EPoolError_eq_dec : EqDecision EPoolError.
Proof. solve_decision. Defined.

(** [std::expected<A, EPoolError>] *)
Inductive expected (A : Type) : Type :=
| value (a : A)
| unexpected (e : EPoolError).
Arguments value {A} a.
Arguments unexpected {A} e.

Definition has_value {A} (r : expected A) : bool :=
  match r with value _ => true | unexpected _ => false end.

Definition error {A} (r : expected A) : option EPoolError :=
  match r with value _ => None | unexpected e => Some e end.

(** [ToString]: the text of an error, for logging.  The [default] branch of
    the source's [switch] stands for values outside the enumeration. *)
Definition ToString (e : EPoolError) : string :=
  match e with
  | OUT_OF_RANGE => "Index out of range"
  | ALREADY_IN_USE => "Slot already in use"
  | NOT_IN_USE => "Slot is not in use"
  | ALREADY_UNUSED => "Slot already unused"
  | FULL => "Pool is full"
  end.

(** ** [size_t] arithmetic *)

Definition SIZE_MODULUS : N := 18446744073709551616.

(** [++x] on a [size_t] *)
Definition size_incr (x : N) : N := (x + 1) mod SIZE_MODULUS.

(** [--x] on a [size_t] *)
Definition size_decr (x : N) : N := (x + (SIZE_MODULUS - 1)) mod SIZE_MODULUS.

(** ** Pointers into the pool's storage *)

Inductive pointer : Set :=
| nullptr
| element_at (pos : N).

#[global] Instance pointer_eq_dec : EqDecision pointer.
Proof. solve_decision. Defined.

(** ** Element types *)

(** The concept [pool_object]: [T] is default-initializable, [T()]. *)
Class pool_object (T : Type) : Type := { T_default : T }.

(** [T] can be constructed from arguments, [T(std::forward<Args>(args)...)].
    [T_construct args] is the object the expression builds; [T_forwarded args]
    is what the expression leaves in [args]: the same values when they are
    forwarded as lvalues or are copied, a moved-from state when an rvalue is
    consumed by the constructor. *)
Class constructible_from (Args T : Type) : Type := {
  T_construct : Args -> T;
  T_forwarded : Args -> Args
}.

(** ** Data *)

Record CObject (T : Type) : Type := mkObject {
  bInUse : bool;
  object : T
}.
Arguments mkObject {T} bInUse object.
Arguments bInUse {T} c.
Arguments object {T} c.

Record CObjectPool (T : Type) : Type := mkPool {
  poolSize : N;
  nextIdx : N;
  objectsInUse : N;
  pool : list (CObject T)
}.
Arguments mkPool {T} poolSize nextIdx objectsInUse pool.
Arguments poolSize {T} c.
Arguments nextIdx {T} c.
Arguments objectsInUse {T} c.
Arguments pool {T} c.

Section Pool.

Context {T Args : Type} `{!pool_object T} `{!constructible_from Args T}.

Definition set_bInUse (b : bool) (o : CObject T) : CObject T :=
  {| bInUse := b; object := object o |}.

Definition set_object (v : T) (o : CObject T) : CObject T :=
  {| bInUse := bInUse o; object := v |}.

Definition set_pool (v : list (CObject T)) (p : CObjectPool T) : CObjectPool T :=
  {| poolSize := poolSize p; nextIdx := nextIdx p;
     objectsInUse := objectsInUse p; pool := v |}.

Definition set_nextIdx (i : N) (p : CObjectPool T) : CObjectPool T :=
  {| poolSize := poolSize p; nextIdx := i;
     objectsInUse := objectsInUse p; pool := pool p |}.

Definition set_objectsInUse (c : N) (p : CObjectPool T) : CObjectPool T :=
  {| poolSize := poolSize p; nextIdx := nextIdx p;
     objectsInUse := c; pool := pool p |}.

(** [v[pos]] read: undefined out of bounds. *)
Definition vector_at (v : list (CObject T)) (pos : N) : option (CObject T) :=
  v !! N.to_nat pos.

(** [v[pos].field = ...]: undefined out of bounds. *)
Definition vector_update (v : list (CObject T)) (pos : N)
    (f : CObject T -> CObject T) : option (list (CObject T)) :=
  o ← v !! N.to_nat pos; Some (<[N.to_nat pos := f o]> v).

(** ** Construction *)

(** [CObjectPool(size)]: every element default-constructed. *)
Definition CObjectPool_new (size : N) : CObjectPool T :=
  {| poolSize := size; nextIdx := 0; objectsInUse := 0;
     pool := replicate (N.to_nat size) {| bInUse := false; object := T_default |} |}.

(** The loop of [CObjectPool(size, args...)] with [n] slots left: each
    iteration evaluates [T(std::forward<Args>(args)...)] on the arguments as
    the iterations before it left them. *)
Fixpoint construct_args (n : nat) (args : Args) : list (CObject T) :=
  match n with
  | O => []
  | S n' =>
      {| bInUse := false; object := T_construct args |}
        :: construct_args n' (T_forwarded args)
  end.

(** [CObjectPool(size, args...)]: the elements are constructed one after the
    other, slot 0 first, each from the forwarded [args]. *)
Definition CObjectPool_new_args (size : N) (args : Args) : CObjectPool T :=
  {| poolSize := size; nextIdx := 0; objectsInUse := 0;
     pool := construct_args (N.to_nat size) args |}.

(** ** Queries *)

Definition Size (p : CObjectPool T) : N := poolSize p.

Definition ObjectsInUse (p : CObjectPool T) : N := objectsInUse p.

Definition IsInUse (pos : N) (p : CObjectPool T) : option bool :=
  if poolSize p <=? pos then Some false
  else o ← vector_at (pool p) pos; Some (bInUse o).

(** [operator[]]: no bounds check. *)
Definition subscript (pos : N) (p : CObjectPool T) : option pointer :=
  _ ← vector_at (pool p) pos; Some (element_at pos).

(** [*ptr] for a pointer obtained from the pool. *)
Definition deref (p : CObjectPool T) (ptr : pointer) : option T :=
  match ptr with
  | nullptr => None
  | element_at pos => o ← vector_at (pool p) pos; Some (object o)
  end.

(** [*ptr = v]: the caller writing through a handle. *)
Definition assign (ptr : pointer) (v : T) (p : CObjectPool T) : option (CObjectPool T) :=
  match ptr with
  | nullptr => None
  | element_at pos =>
      w ← vector_update (pool p) pos (set_object v); Some (set_pool w p)
  end.

(** A sequence of such writes, in order. *)
Fixpoint assign_all (ws : list (pointer * T)) (p : CObjectPool T)
    : option (CObjectPool T) :=
  match ws with
  | [] => Some p
  | (ptr, v) :: ws' => p' ← assign ptr v p; assign_all ws' p'
  end.

(** ** The search cursor *)

(** The update clause [++pos, pos %= poolSize] of the three search loops.
    It is only reached after an iteration of the body, hence with
    [poolSize > 0]. *)
Definition for_step (pos : N) (p : CObjectPool T) : N :=
  size_incr pos mod poolSize p.

(** [UpdateNextIdx]: the loop runs for [idx = 0 .. poolSize - 1]; [n] is the
    number of iterations left. *)
Fixpoint UpdateNextIdx_loop (n : nat) (pos : N) (p : CObjectPool T)
    : option (CObjectPool T) :=
  match n with
  | O => Some p
  | S n' =>
      o ← vector_at (pool p) pos;
      if bInUse o then UpdateNextIdx_loop n' (for_step pos p) p
      else Some (set_nextIdx pos p)
  end.

Definition UpdateNextIdx (p : CObjectPool T) : option (CObjectPool T) :=
  UpdateNextIdx_loop (N.to_nat (poolSize p)) (nextIdx p) p.

(** ** Replace *)

Definition Replace (pos : N) (p : CObjectPool T)
    : option (expected unit * CObjectPool T) :=
  if poolSize p <=? pos then Some (unexpected OUT_OF_RANGE, p)
  else
    v1 ← vector_update (pool p) pos (set_object T_default);
    v2 ← vector_update v1 pos (set_bInUse false);
    Some (value (), set_pool v2 p).

Definition Replace_args (pos : N) (args : Args) (p : CObjectPool T)
    : option (expected unit * CObjectPool T) :=
  if poolSize p <=? pos then Some (unexpected OUT_OF_RANGE, p)
  else
    v1 ← vector_update (pool p) pos (set_object (T_construct args));
    v2 ← vector_update v1 pos (set_bInUse false);
    Some (value (), set_pool v2 p).

(** ** Use, UseNext, UseNextReplace *)

Definition Use (pos : N) (p : CObjectPool T)
    : option (expected pointer * CObjectPool T) :=
  if poolSize p <=? pos then Some (unexpected OUT_OF_RANGE, p)
  else
    o ← vector_at (pool p) pos;
    if bInUse o then Some (unexpected ALREADY_IN_USE, p)
    else
      v ← vector_update (pool p) pos (set_bInUse true);
      p1 ← UpdateNextIdx (set_pool v p);
      Some (value (element_at pos),
            set_objectsInUse (size_incr (objectsInUse p1)) p1).

(** The out parameter [found_pos] is threaded through: the caller's value
    goes in, the value after the call comes out. *)
Fixpoint UseNext_loop (n : nat) (pos : N) (found_pos : N) (p : CObjectPool T)
    : option (expected pointer * N * CObjectPool T) :=
  match n with
  | O => Some (unexpected FULL, found_pos, p)
  | S n' =>
      o ← vector_at (pool p) pos;
      if bInUse o then UseNext_loop n' (for_step pos p) found_pos p
      else
        v ← vector_update (pool p) pos (set_bInUse true);
        p1 ← UpdateNextIdx (set_pool v p);
        Some (value (element_at pos), pos,
              set_objectsInUse (size_incr (objectsInUse p1)) p1)
  end.

Definition UseNext (found_pos : N) (p : CObjectPool T)
    : option (expected pointer * N * CObjectPool T) :=
  UseNext_loop (N.to_nat (poolSize p)) (nextIdx p) found_pos p.

Fixpoint UseNextReplace_loop (n : nat) (pos : N) (found_pos : N)
    (p : CObjectPool T) : option (expected pointer * N * CObjectPool T) :=
  match n with
  | O => Some (unexpected FULL, found_pos, p)
  | S n' =>
      o ← vector_at (pool p) pos;
      if bInUse o then UseNextReplace_loop n' (for_step pos p) found_pos p
      else
        '(result, p1) ← Replace pos p;
        match result with
        | unexpected e => Some (unexpected e, found_pos, p1)
        | value _ =>
            v ← vector_update (pool p1) pos (set_bInUse true);
            let p2 := set_pool v p1 in
            let p3 := set_objectsInUse (size_incr (objectsInUse p2)) p2 in
            p4 ← UpdateNextIdx p3;
            Some (value (element_at pos), pos, p4)
        end
  end.

Definition UseNextReplace (found_pos : N) (p : CObjectPool T)
    : option (expected pointer * N * CObjectPool T) :=
  UseNextReplace_loop (N.to_nat (poolSize p)) (nextIdx p) found_pos p.

Fixpoint UseNextReplace_args_loop (n : nat) (pos : N) (found_pos : N)
    (args : Args) (p : CObjectPool T)
    : option (expected pointer * N * CObjectPool T) :=
  match n with
  | O => Some (unexpected FULL, found_pos, p)
  | S n' =>
      o ← vector_at (pool p) pos;
      if bInUse o
      then UseNextReplace_args_loop n' (for_step pos p) found_pos args p
      else
        '(result, p1) ← Replace_args pos args p;
        match result with
        | unexpected e => Some (unexpected e, found_pos, p1)
        | value _ =>
            v ← vector_update (pool p1) pos (set_bInUse true);
            let p2 := set_pool v p1 in
            let p3 := set_objectsInUse (size_incr (objectsInUse p2)) p2 in
            p4 ← UpdateNextIdx p3;
            Some (value (element_at pos), pos, p4)
        end
  end.

Definition UseNextReplace_args (found_pos : N) (args : Args) (p : CObjectPool T)
    : option (expected pointer * N * CObjectPool T) :=
  UseNextReplace_args_loop (N.to_nat (poolSize p)) (nextIdx p) found_pos args p.

(** ** Get, UnUse *)

Definition Get (pos : N) (p : CObjectPool T) : option (expected pointer) :=
  if poolSize p <=? pos then Some (unexpected OUT_OF_RANGE)
  else
    o ← vector_at (pool p) pos;
    if negb (bInUse o) then Some (unexpected NOT_IN_USE)
    else Some (value (element_at pos)).

Definition UnUse (pos : N) (p : CObjectPool T)
    : option (expected unit * CObjectPool T) :=
  if poolSize p <=? pos then Some (unexpected OUT_OF_RANGE, p)
  else
    o ← vector_at (pool p) pos;
    if negb (bInUse o) then Some (unexpected ALREADY_UNUSED, p)
    else
      '(_, p1) ← Replace pos p;
      Some (value (), set_objectsInUse (size_decr (objectsInUse p1)) p1).

Definition UnUse_args (pos : N) (args : Args) (p : CObjectPool T)
    : option (expected unit * CObjectPool T) :=
  if poolSize p <=? pos then Some (unexpected OUT_OF_RANGE, p)
  else
    o ← vector_at (pool p) pos;
    if negb (bInUse o) then Some (unexpected ALREADY_UNUSED, p)
    else
      '(_, p1) ← Replace_args pos args p;
      Some (value (), set_objectsInUse (size_decr (objectsInUse p1)) p1).

(** ** CIterator *)

(** [pPool]: null for a default-constructed iterator, otherwise the pool the
    iterator was created from, whose current state the operations below
    take as an argument. *)
Inductive pool_pointer : Set :=
| null_pool
| this_pool.

Record CIterator : Type := mkIterator {
  currentPos : N;
  pObject : pointer;
  pPool : pool_pointer
}.

Definition B_BEGIN : bool := true.
Definition B_END : bool := false.

(** [CIterator()] *)
Definition CIterator_default : CIterator :=
  {| currentPos := 0; pObject := nullptr; pPool := null_pool |}.

(** The [while] loop of [SkipUnused]; it advances [currentPos] at most up to
    [Size()], which bounds the number of iterations. *)
Fixpoint SkipUnused_loop (fuel : nat) (p : CObjectPool T) (pos : N) : option N :=
  if pos <? Size p then
    b ← IsInUse pos p;
    if negb b then
      match fuel with
      | O => None
      | S fuel' => SkipUnused_loop fuel' p (size_incr pos)
      end
    else Some pos
  else Some pos.

Definition SkipUnused (p : CObjectPool T) (it : CIterator) : option CIterator :=
  match pPool it with
  | null_pool => None
  | this_pool =>
      pos ← SkipUnused_loop (N.to_nat (Size p)) p (currentPos it);
      b ← IsInUse pos p;
      obj ← (if b : bool then subscript pos p else Some nullptr);
      Some {| currentPos := pos; pObject := obj; pPool := this_pool |}
  end.

Definition SkipToEnd (p : CObjectPool T) (it : CIterator) : option CIterator :=
  match pPool it with
  | null_pool => None
  | this_pool =>
      Some {| currentPos := Size p; pObject := nullptr; pPool := this_pool |}
  end.

(** [CIterator(p_pool, b_begin)] *)
Definition CIterator_new (p : CObjectPool T) (b_begin : bool) : option CIterator :=
  let it := {| currentPos := 0; pObject := nullptr; pPool := this_pool |} in
  if b_begin then SkipUnused p it else SkipToEnd p it.

(** [operator*] *)
Definition iter_deref (p : CObjectPool T) (it : CIterator) : option T :=
  deref p (pObject it).

(** [operator++] (pre-increment) *)
Definition iter_incr (p : CObjectPool T) (it : CIterator) : option CIterator :=
  SkipUnused p {| currentPos := size_incr (currentPos it);
                  pObject := pObject it; pPool := pPool it |}.

(** [operator==] *)
Definition iter_eq (a b : CIterator) : bool :=
  bool_decide (pObject a = pObject b).

(** [operator!=] *)
Definition iter_ne (a b : CIterator) : bool :=
  negb (bool_decide (pObject a = pObject b)).

Definition pool_begin (p : CObjectPool T) : option CIterator :=
  CIterator_new p B_BEGIN.

Definition pool_end (p : CObjectPool T) : option CIterator :=
  CIterator_new p B_END.

(** [for (it = first; it != last; ++it) yield *it]: the elements visited,
    each with the address it lives at. *)
Fixpoint range_for (fuel : nat) (p : CObjectPool T) (it last : CIterator)
    : option (list (pointer * T)) :=
  if iter_ne it last then
    match fuel with
    | O => None
    | S fuel' =>
        x ← iter_deref p it;
        it' ← iter_incr p it;
        rest ← range_for fuel' p it' last;
        Some ((pObject it, x) :: rest)
    end
  else Some [].

(** [for (auto& x : pool)] *)
Definition traverse (fuel : nat) (p : CObjectPool T) : option (list (pointer * T)) :=
  first ← pool_begin p;
  last ← pool_end p;
  range_for fuel p first last.

(** [operator->] *)
Definition iter_arrow (it : CIterator) : pointer := pObject it.

(** [operator++(int)] (post-increment): the copy taken before the increment
    is returned, next to the iterator after it. *)
Definition iter_post_incr (p : CObjectPool T) (it : CIterator)
    : option (CIterator * CIterator) :=
  let temp := it in
  it' ← iter_incr p it;
  Some (temp, it').

(** [Get] on a [const] pool. *)
Definition Get_const (pos : N) (p : CObjectPool T) : option (expected pointer) :=
  if poolSize p <=? pos then Some (unexpected OUT_OF_RANGE)
  else
    o ← vector_at (pool p) pos;
    if negb (bInUse o) then Some (unexpected NOT_IN_USE)
    else Some (value (element_at pos)).

(** ** Sequences of public operations *)

Inductive Op : Type :=
| OpUse (pos : N)
| OpUseNext
| OpUseNextReplace
| OpUseNextReplace_args (args : Args)
| OpGet (pos : N)
| OpIsInUse (pos : N)
| OpUnUse (pos : N)
| OpUnUse_args (pos : N) (args : Args)
| OpReplace (pos : N)
| OpReplace_args (pos : N) (args : Args).

Inductive Result : Type :=
| RPointer (r : expected pointer)
| RVoid (r : expected unit)
| RBool (b : bool).

Definition result_error (r : Result) : option EPoolError :=
  match r with
  | RPointer r => error r
  | RVoid r => error r
  | RBool _ => None
  end.

(** A caller owns the pool and the variable it passes as [found_pos]. *)
Definition exec (op : Op) (found_pos : N) (p : CObjectPool T)
    : option (Result * N * CObjectPool T) :=
  match op with
  | OpUse pos => '(r, p') ← Use pos p; Some (RPointer r, found_pos, p')
  | OpUseNext => '(r, f, p') ← UseNext found_pos p; Some (RPointer r, f, p')
  | OpUseNextReplace =>
      '(r, f, p') ← UseNextReplace found_pos p; Some (RPointer r, f, p')
  | OpUseNextReplace_args args =>
      '(r, f, p') ← UseNextReplace_args found_pos args p; Some (RPointer r, f, p')
  | OpGet pos => r ← Get pos p; Some (RPointer r, found_pos, p)
  | OpIsInUse pos => b ← IsInUse pos p; Some (RBool b, found_pos, p)
  | OpUnUse pos => '(r, p') ← UnUse pos p; Some (RVoid r, found_pos, p')
  | OpUnUse_args pos args =>
      '(r, p') ← UnUse_args pos args p; Some (RVoid r, found_pos, p')
  | OpReplace pos => '(r, p') ← Replace pos p; Some (RVoid r, found_pos, p')
  | OpReplace_args pos args =>
      '(r, p') ← Replace_args pos args p; Some (RVoid r, found_pos, p')
  end.

Fixpoint run (ops : list Op) (found_pos : N) (p : CObjectPool T)
    : option (N * CObjectPool T) :=
  match ops with
  | [] => Some (found_pos, p)
  | op :: ops' => '(_, f, p') ← exec op found_pos p; run ops' f p'
  end.

(** [n] successive [UseNext] calls: the result and the [found_pos] of each. *)
Fixpoint UseNext_times (n : nat) (found_pos : N) (p : CObjectPool T)
    : option (list (expected pointer * N) * N * CObjectPool T) :=
  match n with
  | O => Some ([], found_pos, p)
  | S n' =>
      '(r, f, p1) ← UseNext found_pos p;
      '(rs, f', p2) ← UseNext_times n' f p1;
      Some ((r, f) :: rs, f', p2)
  end.

(** ** Specification vocabulary *)

(** The indices [0 .. poolSize - 1] in increasing order. *)
Definition indices (p : CObjectPool T) : list N :=
  N.of_nat <$> seq 0 (N.to_nat (poolSize p)).

(** The indices [i] for which [IsInUse(i)] is true. *)
Definition active_indices (p : CObjectPool T) : list N :=
  filter (λ i, IsInUse i p = Some true) (indices p).

Definition active_count (p : CObjectPool T) : N :=
  N.of_nat (length (active_indices p)).

(** The indices [c .. poolSize - 1], and the active ones among them. *)
Definition indices_from (p : CObjectPool T) (c : N) : list N :=
  N.of_nat <$> seq (N.to_nat c) (N.to_nat (poolSize p) - N.to_nat c).

Definition active_from (p : CObjectPool T) (c : N) : list N :=
  filter (λ i, IsInUse i p = Some true) (indices_from p c).

(** The element of slot [i], with its address. *)
Definition visit (p : CObjectPool T) (i : N) : option (pointer * T) :=
  x ← deref p (element_at i); Some (element_at i, x).

(** The elements at the active indices, in increasing index order. *)
Definition active_elements (p : CObjectPool T) : list (pointer * T) :=
  omap (visit p) (active_indices p).

(** An iterator as [begin()], [end()] and [operator++] leave it: it either
    references the element of the active slot [currentPos], or it is past
    the last slot and references nothing. *)
Definition valid_iter (p : CObjectPool T) (it : CIterator) : Prop :=
  pPool it = this_pool ∧
  ((IsInUse (currentPos it) p = Some true ∧
    pObject it = element_at (currentPos it)) ∨
   (poolSize p ≤ currentPos it ∧ pObject it = nullptr)).

(** The iterators obtained from a pool in a given state. *)
Inductive reachable_iter (p : CObjectPool T) : CIterator → Prop :=
| reach_begin it : pool_begin p = Some it → reachable_iter p it
| reach_end it : pool_end p = Some it → reachable_iter p it
| reach_incr it it' :
    reachable_iter p it → iter_incr p it = Some it' → reachable_iter p it'.

(** The search shared by [UpdateNextIdx], [UseNext] and [UseNextReplace]:
    the slot at which such a loop, at [pos] with [n] iterations left, stops;
    [Some None] when it runs to its end without meeting a free slot. *)
Fixpoint find_free (n : nat) (pos : N) (p : CObjectPool T) : option (option N) :=
  match n with
  | O => Some None
  | S n' =>
      o ← vector_at (pool p) pos;
      if bInUse o then find_free n' (for_step pos p) p else Some (Some pos)
  end.

(** [i] is the first free slot on a circular scan of all slots from [start]. *)
Definition first_free_from (start : N) (p : CObjectPool T) (i : N) : Prop :=
  ∃ k, k < poolSize p ∧ i = (start + k) mod poolSize p ∧
       IsInUse i p = Some false ∧
       ∀ j, j < k → IsInUse ((start + j) mod poolSize p) p = Some true.

(** No slot is free. *)
Definition all_in_use (p : CObjectPool T) : Prop :=
  ∀ i, i < poolSize p → IsInUse i p = Some true.

(** [p'] is [p] with slot [pos], which held [o], overwritten by [o']. *)
Definition slot_written (p p' : CObjectPool T) (pos : N) (o o' : CObject T) : Prop :=
  pos < poolSize p ∧ vector_at (pool p) pos = Some o ∧
  poolSize p' = poolSize p ∧ pool p' = <[N.to_nat pos := o']> (pool p).

Definition is_UnUse (op : Op) : Prop :=
  match op with OpUnUse _ | OpUnUse_args _ _ => True | _ => False end.

(** The slot a public [Replace] call reconstructs. *)
Definition replaced_slot (op : Op) : option N :=
  match op with
  | OpReplace pos | OpReplace_args pos _ => Some pos
  | _ => None
  end.

(** No [Replace] of the sequence is applied to a slot that is active at the
    time of the call. *)
Fixpoint Replace_only_free (ops : list Op) (found_pos : N) (p : CObjectPool T)
    : Prop :=
  match ops with
  | [] => True
  | op :: ops' =>
      (∀ pos, replaced_slot op = Some pos → IsInUse pos p ≠ Some true) ∧
      ∀ r f p', exec op found_pos p = Some (r, f, p') →
                Replace_only_free ops' f p'
  end.

(** The storage of a pool of [n] slots whose first [j] slots are in use,
    every element holding [x]. *)
Definition filled_pool (n j : nat) (x : T) : list (CObject T) :=
  (λ i, {| bInUse := bool_decide (i < j)%nat; object := x |}) <$> seq 0 n.

Definition filled_at (size next count : N) (j : nat) (x : T) : CObjectPool T :=
  {| poolSize := size; nextIdx := next; objectsInUse := count;
     pool := filled_pool (N.to_nat size) j x |}.

(** The pool after [j] calls of [UseNext] on a fresh pool. *)
Definition filled (size : N) (j : nat) (x : T) : CObjectPool T :=
  filled_at size (N.of_nat (j `min` (N.to_nat size - 1))) (N.of_nat j) j x.

(** Representation invariant of a pool object. *)
Record wf (p : CObjectPool T) : Prop := mk_wf {
  wf_size : poolSize p < SIZE_MODULUS;
  wf_length : length (pool p) = N.to_nat (poolSize p);
  wf_next : nextIdx p < poolSize p ∨ (poolSize p = 0 ∧ nextIdx p = 0);
  wf_count : objectsInUse p < SIZE_MODULUS
}.

(** A pool whose slots were taken in index order: exactly the first [j] slots
    are in use, the counter is [j] and the cursor is at slot [j], or at the
    last slot once the pool is full.  Nothing is said about the elements. *)
Definition taken_in_order (p : CObjectPool T) (j : nat) : Prop :=
  wf p ∧
  nextIdx p = N.of_nat (j `min` (N.to_nat (poolSize p) - 1)) ∧
  objectsInUse p = N.of_nat j ∧
  ∀ i, i < poolSize p → IsInUse i p = Some (bool_decide (N.to_nat i < j)%nat).

(** The counter agrees with the flags. *)
Definition count_ok (p : CObjectPool T) : Prop :=
  ObjectsInUse p = active_count p.

End Pool.

(** ** The element type of the test suite *)

Module Tests.

Record CColor : Set := mkColor { r : N; g : N; b : N }.

(** Default member initialisers: [r = g = b = 255u]. *)
#[global] Instance CColor_pool_object : pool_object CColor :=
  {| T_default := {| r := 255; g := 255; b := 255 |} |}.

(** [CColor(x, y, z)]: the members are [uint8_t]. *)
#[global] Instance CColor_from_args : constructible_from (N * N * N) CColor :=
  {| T_construct := λ '(x, y, z),
       {| r := x mod 256; g := y mod 256; b := z mod 256 |};
     T_forwarded := λ args, args |}.

Definition ColorOp : Type := @Op (N * N * N).

(** A colour changed through a handle, as the tests do with [pColor->r = 200]. *)
Definition modified : CColor := {| r := 200; g := 255; b := 255 |}.

(** A pool of three after [Use(1)] and a write to the element of slot 1. *)
Definition one_active : CObjectPool CColor :=
  {| poolSize := 3; nextIdx := 0; objectsInUse := 1;
     pool := [ {| bInUse := false; object := T_default |};
               {| bInUse := true; object := modified |};
               {| bInUse := false; object := T_default |} ] |}.

(** A pool of three after three [UseNext] calls and [UnUse(1)]. *)
Definition gap_pool : CObjectPool CColor :=
  {| poolSize := 3; nextIdx := 2; objectsInUse := 2;
     pool := [ {| bInUse := true; object := T_default |};
               {| bInUse := false; object := T_default |};
               {| bInUse := true; object := T_default |} ] |}.

(** [Use(0)] followed by [Replace(0)], and the same followed by [Use(0)]. *)
Definition use_replace : list ColorOp := [OpUse 0; OpReplace 0].

(** A mixed sequence, with a failing call and a [Replace] of a free slot. *)
Definition mixed_ops : list ColorOp :=
  [OpUseNext; OpReplace_args 1 (1, 2, 3); OpGet 5; OpUseNextReplace; OpUnUse 0].
Definition use_replace_use : list ColorOp := [OpUse 0; OpReplace 0; OpUse 0].

End Tests.

(** * Properties *)

Section Properties.

Context {T Args : Type} `{!pool_object T} `{!constructible_from Args T}.
Implicit Types (p : CObjectPool T) (o : CObject T) (v : list (CObject T)).
Implicit Types (pos i j k found_pos : N).

(** ** [size_t] arithmetic *)

Lemma size_incr_small x : x + 1 < SIZE_MODULUS → size_incr x = x + 1.
Proof. intros Hx. unfold size_incr. by rewrite N.mod_small. Qed.

Lemma size_incr_lt x : size_incr x < SIZE_MODULUS.
Proof. unfold size_incr. apply N.mod_upper_bound. done. Qed.

Lemma size_decr_lt x : size_decr x < SIZE_MODULUS.
Proof. unfold size_decr. apply N.mod_upper_bound. done. Qed.

Lemma size_decr_pos x : 0 < x → x < SIZE_MODULUS → size_decr x = x - 1.
Proof.
  intros H0 Hx. unfold size_decr.
  replace (x + (SIZE_MODULUS - 1)) with ((x - 1) + 1 * SIZE_MODULUS).
  - rewrite N.Div0.mod_add. apply N.mod_small. lia.
  - unfold SIZE_MODULUS in *. lia.
Qed.

Lemma size_decr_incr x : x < SIZE_MODULUS → size_decr (size_incr x) = x.
Proof.
  intros Hx. unfold size_decr, size_incr.
  rewrite N.Div0.add_mod_idemp_l.
  replace (x + 1 + (SIZE_MODULUS - 1)) with (x + 1 * SIZE_MODULUS).
  - rewrite N.Div0.mod_add. by apply N.mod_small.
  - unfold SIZE_MODULUS. lia.
Qed.

(** One step of a search loop moves to the next slot, circularly. *)
Lemma for_step_offset p start k :
  poolSize p < SIZE_MODULUS → 0 < poolSize p →
  for_step ((start + k) mod poolSize p) p = (start + (k + 1)) mod poolSize p.
Proof.
  intros Hsz Hpos. unfold for_step.
  assert ((start + k) mod poolSize p < poolSize p)
    by (apply N.mod_upper_bound; lia).
  rewrite size_incr_small; [|lia].
  rewrite N.Div0.add_mod_idemp_l. f_equal. lia.
Qed.

(** A circular scan of [poolSize] slots meets every slot. *)
Lemma circular_offset p start i :
  start < poolSize p → i < poolSize p →
  ∃ k, k < poolSize p ∧ (start + k) mod poolSize p = i.
Proof.
  intros Hs Hi. destruct (decide (start ≤ i)) as [Hle|Hgt].
  - exists (i - start). split; [lia|].
    replace (start + (i - start)) with i by lia. by apply N.mod_small.
  - exists (i + poolSize p - start). split; [lia|].
    replace (start + (i + poolSize p - start)) with (i + 1 * poolSize p) by lia.
    rewrite N.Div0.mod_add. by apply N.mod_small.
Qed.

(** ** Vector accesses *)

Lemma vector_at_lt v pos :
  (N.to_nat pos < length v)%nat → ∃ o, vector_at v pos = Some o.
Proof. intros Hlt. by apply lookup_lt_is_Some_2. Qed.

Lemma vector_update_Some v pos f o :
  vector_at v pos = Some o →
  vector_update v pos f = Some (<[N.to_nat pos := f o]> v).
Proof. unfold vector_at, vector_update. by intros ->. Qed.

Lemma vector_at_insert_eq v pos o :
  (N.to_nat pos < length v)%nat →
  vector_at (<[N.to_nat pos := o]> v) pos = Some o.
Proof. intros Hlt. by apply list_lookup_insert_eq. Qed.

Lemma vector_at_insert_ne v pos pos' o :
  pos ≠ pos' → vector_at (<[N.to_nat pos := o]> v) pos' = vector_at v pos'.
Proof. intros Hne. apply list_lookup_insert_ne. lia. Qed.

Lemma wf_vector_at p pos :
  wf p → pos < poolSize p → ∃ o, vector_at (pool p) pos = Some o.
Proof. intros [] Hlt. apply vector_at_lt. lia. Qed.

Lemma IsInUse_in_range p pos o :
  pos < poolSize p → vector_at (pool p) pos = Some o →
  IsInUse pos p = Some (bInUse o).
Proof.
  intros Hlt Hat. unfold IsInUse.
  destruct (N.leb_spec (poolSize p) pos); [lia|]. by rewrite Hat.
Qed.

Lemma IsInUse_out_of_range p pos :
  poolSize p ≤ pos → IsInUse pos p = Some false.
Proof.
  intros Hge. unfold IsInUse. by destruct (N.leb_spec (poolSize p) pos); [|lia].
Qed.

Lemma IsInUse_true_inv p pos :
  IsInUse pos p = Some true →
  pos < poolSize p ∧ ∃ o, vector_at (pool p) pos = Some o ∧ bInUse o = true.
Proof.
  unfold IsInUse. destruct (N.leb_spec (poolSize p) pos); [done|].
  destruct (vector_at (pool p) pos) as [o|]; [|done].
  simpl. intros [= Hb]. eauto.
Qed.

Lemma IsInUse_total p pos : wf p → ∃ b, IsInUse pos p = Some b.
Proof.
  intros Hwf. destruct (decide (pos < poolSize p)) as [Hlt|Hge].
  - destruct (wf_vector_at p pos Hwf Hlt) as [o Ho].
    exists (bInUse o). by apply IsInUse_in_range.
  - exists false. apply IsInUse_out_of_range. lia.
Qed.

(** ** The search loops *)

(** What [find_free] returns, for a scan that has already moved [k0] slots
    away from [start]. *)
Lemma find_free_sound p start (n : nat) k0 :
  wf p → 0 < poolSize p →
  ∃ r, find_free n ((start + k0) mod poolSize p) p = Some r ∧
    match r with
    | Some i =>
        ∃ k, k0 ≤ k ∧ k < k0 + N.of_nat n ∧ i = (start + k) mod poolSize p ∧
             IsInUse i p = Some false ∧
             ∀ j, k0 ≤ j → j < k → IsInUse ((start + j) mod poolSize p) p = Some true
    | None =>
        ∀ j, k0 ≤ j → j < k0 + N.of_nat n →
             IsInUse ((start + j) mod poolSize p) p = Some true
    end.
Proof.
  intros Hwf Hpos. revert k0. induction n as [|n IH]; intros k0.
  - exists None. split; [done|]. intros j ??. lia.
  - assert (Hlt : (start + k0) mod poolSize p < poolSize p)
      by (apply N.mod_upper_bound; lia).
    destruct (wf_vector_at p _ Hwf Hlt) as [o Ho].
    pose proof (IsInUse_in_range p _ o Hlt Ho) as Huse.
    simpl. rewrite Ho. simpl. destruct (bInUse o) eqn:Hb.
    + rewrite for_step_offset; [|by destruct Hwf|done].
      destruct (IH (k0 + 1)) as (r & Hr & Hspec).
      exists r. split; [done|]. destruct r as [i|].
      * destruct Hspec as (k & Hk1 & Hk2 & -> & Hfree & Hused).
        exists k. repeat split; [lia|lia|done|].
        intros j Hj1 Hj2. destruct (decide (j = k0)) as [->|]; [done|].
        apply Hused; lia.
      * intros j Hj1 Hj2. destruct (decide (j = k0)) as [->|]; [done|].
        apply Hspec; lia.
    + exists (Some ((start + k0) mod poolSize p)). split; [done|].
      exists k0. repeat split; [lia|lia|done|]. intros j ??. lia.
Qed.

Lemma first_free_unique p start i i' :
  first_free_from start p i → first_free_from start p i' → i = i'.
Proof.
  intros (k & _ & -> & Hf & Hu) (k' & _ & -> & Hf' & Hu').
  destruct (N.lt_trichotomy k k') as [Hlt|[->|Hgt]]; [|done|].
  - specialize (Hu' k Hlt). congruence.
  - specialize (Hu k' Hgt). congruence.
Qed.

Lemma first_free_not_all_in_use p start i :
  first_free_from start p i → all_in_use p → False.
Proof.
  intros (k & Hk & -> & Hf & _) Hall.
  rewrite Hall in Hf; [done|]. apply N.mod_upper_bound. lia.
Qed.

(** The full scan from [start]: it never reads out of bounds, and it either
    stops at the first free slot in circular order or finds every slot in
    use. *)
Lemma find_free_spec p start :
  wf p → start < poolSize p ∨ poolSize p = 0 →
  (∃ i, find_free (N.to_nat (poolSize p)) start p = Some (Some i) ∧
        first_free_from start p i) ∨
  (find_free (N.to_nat (poolSize p)) start p = Some None ∧ all_in_use p).
Proof.
  intros Hwf [Hs|Hz].
  - destruct (find_free_sound p start (N.to_nat (poolSize p)) 0 Hwf)
      as (r & Hr & Hspec); [lia|].
    rewrite N.add_0_r, N.mod_small in Hr by done.
    destruct r as [i|].
    + left. exists i. split; [done|].
      destruct Hspec as (k & _ & Hk & -> & Hf & Hu).
      exists k. repeat split; [lia|done|]. intros j Hj. apply Hu; lia.
    + right. split; [done|]. intros i Hi.
      destruct (circular_offset p start i Hs Hi) as (k & Hk & <-).
      apply Hspec; lia.
  - right. rewrite Hz. split; [done|]. intros i Hi. lia.
Qed.

Lemma find_free_first_free p start i :
  wf p → start < poolSize p ∨ poolSize p = 0 →
  first_free_from start p i →
  find_free (N.to_nat (poolSize p)) start p = Some (Some i).
Proof.
  intros Hwf Hs Hi.
  destruct (find_free_spec p start Hwf Hs) as [(i' & Hr & Hi')|[_ Hall]].
  - by rewrite (first_free_unique _ _ _ _ Hi Hi').
  - destruct (first_free_not_all_in_use _ _ _ Hi Hall).
Qed.

Lemma find_free_all_in_use p start :
  wf p → start < poolSize p ∨ poolSize p = 0 →
  all_in_use p →
  find_free (N.to_nat (poolSize p)) start p = Some None.
Proof.
  intros Hwf Hs Hall.
  destruct (find_free_spec p start Hwf Hs) as [(i' & Hr & Hi')|[Hr _]]; [|done].
  destruct (first_free_not_all_in_use _ _ _ Hi' Hall).
Qed.

(** Every pool either has a first free slot from [start] or is full. *)
Lemma first_free_or_full p start :
  wf p → start < poolSize p ∨ poolSize p = 0 →
  (∃ i, first_free_from start p i) ∨ all_in_use p.
Proof.
  intros Hwf Hs.
  destruct (find_free_spec p start Hwf Hs) as [(i & _ & Hi)|[_ Hall]]; eauto.
Qed.

Lemma first_free_lt p start i : first_free_from start p i → i < poolSize p.
Proof. intros (k & Hk & -> & _). apply N.mod_upper_bound. lia. Qed.

Lemma first_free_vector_at p start i :
  wf p → first_free_from start p i →
  ∃ o, vector_at (pool p) i = Some o ∧ bInUse o = false.
Proof.
  intros Hwf Hi. pose proof (first_free_lt _ _ _ Hi) as Hlt.
  destruct Hi as (k & _ & _ & Hf & _).
  destruct (wf_vector_at p i Hwf Hlt) as [o Ho]. exists o. split; [done|].
  rewrite (IsInUse_in_range p i o Hlt Ho) in Hf. congruence.
Qed.

(** The three loops are the search followed by their bodies. *)
Lemma UpdateNextIdx_loop_find (n : nat) pos p :
  UpdateNextIdx_loop n pos p =
  r ← find_free n pos p;
  Some (match r with Some i => set_nextIdx i p | None => p end).
Proof.
  revert pos. induction n as [|n IH]; intros pos; [done|].
  simpl. destruct (vector_at (pool p) pos) as [o|]; [|done].
  simpl. destruct (bInUse o); [apply IH|done].
Qed.

Lemma UseNext_loop_find (n : nat) pos found_pos p :
  UseNext_loop n pos found_pos p =
  r ← find_free n pos p;
  match r with
  | None => Some (unexpected FULL, found_pos, p)
  | Some i =>
      v ← vector_update (pool p) i (set_bInUse true);
      p1 ← UpdateNextIdx (set_pool v p);
      Some (value (element_at i), i,
            set_objectsInUse (size_incr (objectsInUse p1)) p1)
  end.
Proof.
  revert pos. induction n as [|n IH]; intros pos; [done|].
  simpl. destruct (vector_at (pool p) pos) as [o|]; [|done].
  simpl. destruct (bInUse o); [apply IH|done].
Qed.

Lemma UseNextReplace_loop_find (n : nat) pos found_pos p :
  UseNextReplace_loop n pos found_pos p =
  r ← find_free n pos p;
  match r with
  | None => Some (unexpected FULL, found_pos, p)
  | Some i =>
      '(result, p1) ← Replace i p;
      match result with
      | unexpected e => Some (unexpected e, found_pos, p1)
      | value _ =>
          v ← vector_update (pool p1) i (set_bInUse true);
          p4 ← UpdateNextIdx
                 (set_objectsInUse (size_incr (objectsInUse (set_pool v p1)))
                    (set_pool v p1));
          Some (value (element_at i), i, p4)
      end
  end.
Proof.
  revert pos. induction n as [|n IH]; intros pos; [done|].
  simpl. destruct (vector_at (pool p) pos) as [o|]; [|done].
  simpl. destruct (bInUse o); [apply IH|done].
Qed.

Lemma UseNextReplace_args_loop_find (n : nat) pos found_pos (args : Args) p :
  UseNextReplace_args_loop n pos found_pos args p =
  r ← find_free n pos p;
  match r with
  | None => Some (unexpected FULL, found_pos, p)
  | Some i =>
      '(result, p1) ← Replace_args i args p;
      match result with
      | unexpected e => Some (unexpected e, found_pos, p1)
      | value _ =>
          v ← vector_update (pool p1) i (set_bInUse true);
          p4 ← UpdateNextIdx
                 (set_objectsInUse (size_incr (objectsInUse (set_pool v p1)))
                    (set_pool v p1));
          Some (value (element_at i), i, p4)
      end
  end.
Proof.
  revert pos. induction n as [|n IH]; intros pos; [done|].
  simpl. destruct (vector_at (pool p) pos) as [o|]; [|done].
  simpl. destruct (bInUse o); [apply IH|done].
Qed.

(** ** The representation invariant *)

Lemma set_nextIdx_same p : set_nextIdx (nextIdx p) p = p.
Proof. by destruct p. Qed.

Lemma wf_set_pool p v :
  wf p → length v = length (pool p) → wf (set_pool v p).
Proof. intros [] Hlen. split; simpl; [done|congruence|done|done]. Qed.

Lemma wf_set_nextIdx p i :
  wf p → i < poolSize p ∨ (poolSize p = 0 ∧ i = 0) → wf (set_nextIdx i p).
Proof. intros [] Hi. by split. Qed.

Lemma wf_set_objectsInUse p c :
  wf p → c < SIZE_MODULUS → wf (set_objectsInUse c p).
Proof. intros [] Hc. by split. Qed.

Lemma wf_insert p pos o :
  wf p → wf (set_pool (<[N.to_nat pos := o]> (pool p)) p).
Proof. intros Hwf. apply wf_set_pool; [done|]. apply length_insert. Qed.

Lemma wf_next_range p : wf p → nextIdx p < poolSize p ∨ poolSize p = 0.
Proof. intros [_ _ [?|[? _]] _]; auto. Qed.

Lemma wf_new (size : N) :
  size < SIZE_MODULUS → wf (CObjectPool_new (T:=T) size).
Proof.
  intros Hsz. split; simpl; [done| |lia|done].
  - apply length_replicate.
Qed.

Lemma length_construct_args (n : nat) (args : Args) :
  length (construct_args (T:=T) n args) = n.
Proof. revert args. induction n as [|n IH]; intros args; simpl; [done|]. by rewrite IH. Qed.

(** Slot [i] is built from the arguments after [i] constructor calls. *)
Lemma lookup_construct_args (n i : nat) (args : Args) :
  (i < n)%nat →
  construct_args (T:=T) n args !! i
  = Some {| bInUse := false; object := T_construct (Nat.iter i T_forwarded args) |}.
Proof.
  revert i args. induction n as [|n IH]; intros i args Hi; [lia|].
  destruct i as [|i]; [done|]. simpl construct_args.
  change ((?x :: ?l) !! S i) with (l !! i). rewrite IH by lia.
  by rewrite Nat.iter_succ_r.
Qed.

Lemma wf_new_args (size : N) (args : Args) :
  size < SIZE_MODULUS → wf (CObjectPool_new_args (T:=T) size args).
Proof.
  intros Hsz. split; simpl; [done| |lia|done].
  - apply length_construct_args.
Qed.

(** ** [UpdateNextIdx] *)

(** [UpdateNextIdx] moves the cursor to the first free slot met from the
    cursor, and leaves the pool alone when it is full. *)
Lemma UpdateNextIdx_spec p :
  wf p →
  (∃ i, first_free_from (nextIdx p) p i ∧
        UpdateNextIdx p = Some (set_nextIdx i p)) ∨
  (all_in_use p ∧ UpdateNextIdx p = Some p).
Proof.
  intros Hwf. unfold UpdateNextIdx. rewrite UpdateNextIdx_loop_find.
  destruct (find_free_spec p (nextIdx p) Hwf (wf_next_range p Hwf))
    as [(i & -> & Hi)|[-> Hall]]; [left|right]; eauto.
Qed.

Lemma UpdateNextIdx_total p :
  wf p → ∃ i, UpdateNextIdx p = Some (set_nextIdx i p) ∧ wf (set_nextIdx i p).
Proof.
  intros Hwf. destruct (UpdateNextIdx_spec p Hwf) as [(i & Hi & ->)|[_ ->]].
  - exists i. split; [done|]. apply wf_set_nextIdx; [done|].
    left. by eapply first_free_lt.
  - exists (nextIdx p). by rewrite set_nextIdx_same.
Qed.

Lemma UpdateNextIdx_first_free p i :
  wf p → first_free_from (nextIdx p) p i →
  UpdateNextIdx p = Some (set_nextIdx i p).
Proof.
  intros Hwf Hi. destruct (UpdateNextIdx_spec p Hwf) as [(i' & Hi' & ->)|[Hall _]].
  - by rewrite (first_free_unique _ _ _ _ Hi Hi').
  - destruct (first_free_not_all_in_use _ _ _ Hi Hall).
Qed.

Lemma UpdateNextIdx_all_in_use p :
  wf p → all_in_use p → UpdateNextIdx p = Some p.
Proof.
  intros Hwf Hall. destruct (UpdateNextIdx_spec p Hwf) as [(i' & Hi' & _)|[_ ->]].
  - destruct (first_free_not_all_in_use _ _ _ Hi' Hall).
  - done.
Qed.

(** The search does not look at the counter. *)
Lemma find_free_set_objectsInUse (n : nat) pos c p :
  find_free n pos (set_objectsInUse c p) = find_free n pos p.
Proof.
  revert pos. induction n as [|n IH]; intros pos; [done|].
  simpl. destruct (vector_at (pool p) pos) as [o|]; [|done].
  simpl. destruct (bInUse o); [apply IH|done].
Qed.

Lemma UpdateNextIdx_set_objectsInUse c p :
  UpdateNextIdx (set_objectsInUse c p) =
  p1 ← UpdateNextIdx p; Some (set_objectsInUse c p1).
Proof.
  unfold UpdateNextIdx. rewrite !UpdateNextIdx_loop_find. simpl.
  rewrite find_free_set_objectsInUse.
  destruct (find_free _ _ p) as [[i|]|]; done.
Qed.

(** ** The operations on a well-formed pool *)

Lemma Replace_out_of_range p pos :
  poolSize p ≤ pos → Replace pos p = Some (unexpected OUT_OF_RANGE, p).
Proof. intros Hge. unfold Replace. by destruct (N.leb_spec (poolSize p) pos); [|lia]. Qed.

Lemma Replace_args_out_of_range p pos (args : Args) :
  poolSize p ≤ pos → Replace_args pos args p = Some (unexpected OUT_OF_RANGE, p).
Proof.
  intros Hge. unfold Replace_args.
  by destruct (N.leb_spec (poolSize p) pos); [|lia].
Qed.

Lemma reconstruct_in_place v pos o (x : T) :
  vector_at v pos = Some o →
  (v1 ← vector_update v pos (set_object x);
   vector_update v1 pos (set_bInUse false)) =
  Some (<[N.to_nat pos := {| bInUse := false; object := x |}]> v).
Proof.
  intros Ho. rewrite (vector_update_Some _ _ _ _ Ho). simpl.
  pose proof (lookup_lt_Some _ _ _ Ho) as Hlt.
  erewrite vector_update_Some; [|by apply vector_at_insert_eq].
  by rewrite list_insert_insert_eq.
Qed.

Lemma Replace_in_range p pos o :
  pos < poolSize p → vector_at (pool p) pos = Some o →
  Replace pos p =
  Some (value (),
        set_pool (<[N.to_nat pos := {| bInUse := false; object := T_default |}]>
                    (pool p)) p).
Proof.
  intros Hlt Ho. unfold Replace. destruct (N.leb_spec (poolSize p) pos); [lia|].
  pose proof (reconstruct_in_place _ _ _ T_default Ho) as Hr.
  destruct (vector_update (pool p) pos _) as [v1|]; [|done].
  simpl in *. by rewrite Hr.
Qed.

Lemma Replace_args_in_range p pos (args : Args) o :
  pos < poolSize p → vector_at (pool p) pos = Some o →
  Replace_args pos args p =
  Some (value (),
        set_pool (<[N.to_nat pos :=
                      {| bInUse := false; object := T_construct args |}]>
                    (pool p)) p).
Proof.
  intros Hlt Ho. unfold Replace_args.
  destruct (N.leb_spec (poolSize p) pos); [lia|].
  pose proof (reconstruct_in_place _ _ _ (T_construct args) Ho) as Hr.
  destruct (vector_update (pool p) pos _) as [v1|]; [|done].
  simpl in *. by rewrite Hr.
Qed.

Lemma Use_free p pos o :
  wf p → pos < poolSize p → vector_at (pool p) pos = Some o → bInUse o = false →
  ∃ i, i < poolSize p ∧
    Use pos p =
    Some (value (element_at pos),
          {| poolSize := poolSize p; nextIdx := i;
             objectsInUse := size_incr (objectsInUse p);
             pool := <[N.to_nat pos := set_bInUse true o]> (pool p) |}).
Proof.
  intros Hwf Hlt Ho Hb. unfold Use.
  destruct (N.leb_spec (poolSize p) pos); [lia|].
  rewrite Ho. simpl. rewrite Hb, (vector_update_Some _ _ _ _ Ho). simpl.
  destruct (UpdateNextIdx_total _ (wf_insert p pos (set_bInUse true o) Hwf))
    as (i & -> & Hwf').
  simpl. destruct Hwf' as [_ _ [Hi|[Hz _]] _]; simpl in *; [|lia].
  by exists i.
Qed.

Lemma UseNext_first_free p found_pos pos :
  wf p → first_free_from (nextIdx p) p pos →
  UseNext found_pos p = '(r, p') ← Use pos p; Some (r, pos, p').
Proof.
  intros Hwf Hpos. unfold UseNext. rewrite UseNext_loop_find.
  rewrite (find_free_first_free _ _ _ Hwf (wf_next_range p Hwf) Hpos). simpl.
  destruct (first_free_vector_at _ _ _ Hwf Hpos) as (o & Ho & Hb).
  pose proof (first_free_lt _ _ _ Hpos) as Hlt.
  unfold Use. destruct (N.leb_spec (poolSize p) pos); [lia|].
  rewrite Ho. simpl. rewrite Hb.
  destruct (vector_update (pool p) pos _) as [v|]; [|done]. simpl.
  by destruct (UpdateNextIdx (set_pool v p)).
Qed.

Lemma UseNext_all_in_use p found_pos :
  wf p → all_in_use p → UseNext found_pos p = Some (unexpected FULL, found_pos, p).
Proof.
  intros Hwf Hall. unfold UseNext. rewrite UseNext_loop_find.
  by rewrite (find_free_all_in_use _ _ Hwf (wf_next_range p Hwf) Hall).
Qed.

Lemma UnUse_active p pos o :
  pos < poolSize p → vector_at (pool p) pos = Some o → bInUse o = true →
  UnUse pos p =
  Some (value (),
        {| poolSize := poolSize p; nextIdx := nextIdx p;
           objectsInUse := size_decr (objectsInUse p);
           pool := <[N.to_nat pos := {| bInUse := false; object := T_default |}]>
                     (pool p) |}).
Proof.
  intros Hlt Ho Hb. unfold UnUse.
  destruct (N.leb_spec (poolSize p) pos); [lia|].
  rewrite Ho. simpl. rewrite Hb. simpl.
  by rewrite (Replace_in_range _ _ _ Hlt Ho).
Qed.

Lemma UnUse_args_active p pos (args : Args) o :
  pos < poolSize p → vector_at (pool p) pos = Some o → bInUse o = true →
  UnUse_args pos args p =
  Some (value (),
        {| poolSize := poolSize p; nextIdx := nextIdx p;
           objectsInUse := size_decr (objectsInUse p);
           pool := <[N.to_nat pos :=
                       {| bInUse := false; object := T_construct args |}]>
                     (pool p) |}).
Proof.
  intros Hlt Ho Hb. unfold UnUse_args.
  destruct (N.leb_spec (poolSize p) pos); [lia|].
  rewrite Ho. simpl. rewrite Hb. simpl.
  by rewrite (Replace_args_in_range _ _ _ _ Hlt Ho).
Qed.

(** [UseNextReplace] on the slot the search finds: reconstruct, then [Use]. *)
Lemma activate_reconstructed p pos found_pos (x : T) o :
  wf p → pos < poolSize p → vector_at (pool p) pos = Some o →
  let p1 := set_pool (<[N.to_nat pos := {| bInUse := false; object := x |}]>
                        (pool p)) p in
  (v ← vector_update (pool p1) pos (set_bInUse true);
   p4 ← UpdateNextIdx
          (set_objectsInUse (size_incr (objectsInUse (set_pool v p1)))
             (set_pool v p1));
   Some (value (element_at pos), pos, p4)) =
  ('(r, p2) ← Use pos p1; Some (r, pos, p2)).
Proof.
  intros Hwf Hlt Ho p1.
  assert (Ho1 : vector_at (pool p1) pos = Some {| bInUse := false; object := x |}).
  { apply vector_at_insert_eq. by eapply lookup_lt_Some. }
  unfold Use. destruct (N.leb_spec (poolSize p1) pos) as [Hge|_]; [simpl in Hge; lia|].
  rewrite Ho1. simpl. rewrite (vector_update_Some _ _ _ _ Ho1). simpl.
  rewrite UpdateNextIdx_set_objectsInUse.
  set (q := set_pool _ p1).
  assert (Hq : wf q) by (apply wf_insert; by apply wf_insert).
  destruct (UpdateNextIdx_total q Hq) as (i & -> & _). done.
Qed.

Lemma UseNextReplace_first_free p found_pos pos :
  wf p → first_free_from (nextIdx p) p pos →
  UseNextReplace found_pos p =
  '(_, p1) ← Replace pos p; '(r, p2) ← Use pos p1; Some (r, pos, p2).
Proof.
  intros Hwf Hpos. unfold UseNextReplace. rewrite UseNextReplace_loop_find.
  rewrite (find_free_first_free _ _ _ Hwf (wf_next_range p Hwf) Hpos). simpl.
  destruct (first_free_vector_at _ _ _ Hwf Hpos) as (o & Ho & Hb).
  pose proof (first_free_lt _ _ _ Hpos) as Hlt.
  rewrite (Replace_in_range _ _ _ Hlt Ho). simpl.
  by apply (activate_reconstructed p pos found_pos T_default o).
Qed.

Lemma UseNextReplace_args_first_free p found_pos (args : Args) pos :
  wf p → first_free_from (nextIdx p) p pos →
  UseNextReplace_args found_pos args p =
  '(_, p1) ← Replace_args pos args p; '(r, p2) ← Use pos p1; Some (r, pos, p2).
Proof.
  intros Hwf Hpos. unfold UseNextReplace_args.
  rewrite UseNextReplace_args_loop_find.
  rewrite (find_free_first_free _ _ _ Hwf (wf_next_range p Hwf) Hpos). simpl.
  destruct (first_free_vector_at _ _ _ Hwf Hpos) as (o & Ho & Hb).
  pose proof (first_free_lt _ _ _ Hpos) as Hlt.
  rewrite (Replace_args_in_range _ _ _ _ Hlt Ho). simpl.
  by apply (activate_reconstructed p pos found_pos (T_construct args) o).
Qed.

Lemma UseNextReplace_all_in_use p found_pos :
  wf p → all_in_use p →
  UseNextReplace found_pos p = Some (unexpected FULL, found_pos, p).
Proof.
  intros Hwf Hall. unfold UseNextReplace. rewrite UseNextReplace_loop_find.
  by rewrite (find_free_all_in_use _ _ Hwf (wf_next_range p Hwf) Hall).
Qed.

Lemma UseNextReplace_args_all_in_use p found_pos (args : Args) :
  wf p → all_in_use p →
  UseNextReplace_args found_pos args p = Some (unexpected FULL, found_pos, p).
Proof.
  intros Hwf Hall. unfold UseNextReplace_args.
  rewrite UseNextReplace_args_loop_find.
  by rewrite (find_free_all_in_use _ _ Hwf (wf_next_range p Hwf) Hall).
Qed.

(** ** Reading a pool after one slot was written *)

Lemma IsInUse_updated p p' pos o' :
  wf p → pos < poolSize p →
  poolSize p' = poolSize p → pool p' = <[N.to_nat pos := o']> (pool p) →
  IsInUse pos p' = Some (bInUse o').
Proof.
  intros Hwf Hlt Hsz Hpool. apply IsInUse_in_range; [lia|].
  rewrite Hpool. apply vector_at_insert_eq. destruct Hwf. lia.
Qed.

Lemma IsInUse_updated_ne p p' pos j o' :
  poolSize p' = poolSize p → pool p' = <[N.to_nat pos := o']> (pool p) →
  j ≠ pos → IsInUse j p' = IsInUse j p.
Proof.
  intros Hsz Hpool Hne. unfold IsInUse. rewrite Hsz, Hpool.
  by rewrite vector_at_insert_ne.
Qed.

Lemma deref_updated p p' pos o' :
  wf p → pos < poolSize p → pool p' = <[N.to_nat pos := o']> (pool p) →
  deref p' (element_at pos) = Some (object o').
Proof.
  intros Hwf Hlt Hpool. simpl. rewrite Hpool, vector_at_insert_eq; [done|].
  destruct Hwf. lia.
Qed.

Lemma deref_updated_ne p p' pos j o' :
  pool p' = <[N.to_nat pos := o']> (pool p) → j ≠ pos →
  deref p' (element_at j) = deref p (element_at j).
Proof. intros Hpool Hne. simpl. by rewrite Hpool, vector_at_insert_ne. Qed.

Lemma IsInUse_set_pool_insert p pos o' :
  wf p → pos < poolSize p →
  IsInUse pos (set_pool (<[N.to_nat pos := o']> (pool p)) p) = Some (bInUse o').
Proof. intros Hwf Hlt. by apply (IsInUse_updated p). Qed.

Lemma deref_set_pool_insert p pos o' :
  wf p → pos < poolSize p →
  deref (set_pool (<[N.to_nat pos := o']> (pool p)) p) (element_at pos)
  = Some (object o').
Proof. intros Hwf Hlt. by apply (deref_updated p). Qed.

(** What a successful [Use] leaves behind. *)
Lemma Use_free_effect p pos o :
  wf p → pos < poolSize p → vector_at (pool p) pos = Some o → bInUse o = false →
  ∃ p', Use pos p = Some (value (element_at pos), p') ∧
    wf p' ∧ poolSize p' = poolSize p ∧
    pool p' = <[N.to_nat pos := set_bInUse true o]> (pool p) ∧
    objectsInUse p' = size_incr (objectsInUse p).
Proof.
  intros Hwf Hlt Ho Hb.
  destruct (Use_free p pos o Hwf Hlt Ho Hb) as (i & Hi & ->).
  eexists. split; [done|]. split; [|done].
  destruct Hwf. split; simpl; [done| |by left|apply size_incr_lt].
  by rewrite length_insert.
Qed.

(** ** Replace *)

(** C2: for every index [pos < poolSize], [Replace(pos)] and
    [Replace(pos, args...)] succeed whatever the state of the slot: the
    element is reconstructed (default-constructed, or from [args]), the
    slot's flag is false afterwards, and every other slot is left as it was.
    The only error is [OUT_OF_RANGE], returned exactly when
    [pos >= poolSize]. *)
Theorem Replace_unconditional p pos (args : Args) :
  wf p →
  (pos < poolSize p →
   ∃ p1 p2,
     Replace pos p = Some (value (), p1) ∧
     IsInUse pos p1 = Some false ∧
     deref p1 (element_at pos) = Some T_default ∧
     (∀ j, j ≠ pos → vector_at (pool p1) j = vector_at (pool p) j) ∧
     Replace_args pos args p = Some (value (), p2) ∧
     IsInUse pos p2 = Some false ∧
     deref p2 (element_at pos) = Some (T_construct args) ∧
     (∀ j, j ≠ pos → vector_at (pool p2) j = vector_at (pool p) j)) ∧
  (poolSize p ≤ pos →
   Replace pos p = Some (unexpected OUT_OF_RANGE, p) ∧
   Replace_args pos args p = Some (unexpected OUT_OF_RANGE, p)) ∧
  (∀ e p', Replace pos p = Some (unexpected e, p') →
           e = OUT_OF_RANGE ∧ poolSize p ≤ pos) ∧
  (∀ e p', Replace_args pos args p = Some (unexpected e, p') →
           e = OUT_OF_RANGE ∧ poolSize p ≤ pos).
Proof.
  intros Hwf. split; [|split; [|split]].
  - intros Hlt. destruct (wf_vector_at p pos Hwf Hlt) as [o Ho].
    rewrite (Replace_in_range _ _ _ Hlt Ho).
    rewrite (Replace_args_in_range _ _ args _ Hlt Ho).
    eexists _, _. split; [done|].
    split; [by rewrite IsInUse_set_pool_insert|].
    split; [by rewrite deref_set_pool_insert|].
    split; [intros j Hj; simpl; by rewrite vector_at_insert_ne|].
    split; [done|].
    split; [by rewrite IsInUse_set_pool_insert|].
    split; [by rewrite deref_set_pool_insert|].
    intros j Hj; simpl; by rewrite vector_at_insert_ne.
  - intros Hge. by rewrite Replace_out_of_range, Replace_args_out_of_range.
  - intros e p' Hr. destruct (decide (pos < poolSize p)) as [Hlt|Hge].
    + destruct (wf_vector_at p pos Hwf Hlt) as [o Ho].
      rewrite (Replace_in_range _ _ _ Hlt Ho) in Hr. done.
    + rewrite Replace_out_of_range in Hr by lia.
      injection Hr as <- _. split; [done|lia].
  - intros e p' Hr. destruct (decide (pos < poolSize p)) as [Hlt|Hge].
    + destruct (wf_vector_at p pos Hwf Hlt) as [o Ho].
      rewrite (Replace_args_in_range _ _ args _ Hlt Ho) in Hr. done.
    + rewrite Replace_args_out_of_range in Hr by lia.
      injection Hr as <- _. split; [done|lia].
Qed.

(** ** UseNext *)

Lemma UseNext_first_free_effect p found_pos pos :
  wf p → first_free_from (nextIdx p) p pos →
  ∃ p', UseNext found_pos p = Some (value (element_at pos), pos, p') ∧
    IsInUse pos p' = Some true ∧
    ObjectsInUse p' = size_incr (ObjectsInUse p) ∧
    Size p' = Size p ∧
    deref p' (element_at pos) = deref p (element_at pos) ∧
    (∀ j, j ≠ pos → vector_at (pool p') j = vector_at (pool p) j).
Proof.
  intros Hwf Hpos. rewrite (UseNext_first_free _ _ _ Hwf Hpos).
  destruct (first_free_vector_at _ _ _ Hwf Hpos) as (o & Ho & Hb).
  pose proof (first_free_lt _ _ _ Hpos) as Hlt.
  destruct (Use_free_effect p pos o Hwf Hlt Ho Hb)
    as (p' & -> & Hwf' & Hsz & Hpool & Hcnt).
  exists p'. split; [done|].
  split; [by rewrite (IsInUse_updated p p' pos _ Hwf Hlt Hsz Hpool)|].
  split; [done|]. split; [done|].
  split.
  - rewrite (deref_updated p p' pos _ Hwf Hlt Hpool). simpl. by rewrite Ho.
  - intros j Hj. by rewrite Hpool, vector_at_insert_ne.
Qed.

(** ** UnUse *)

(** C7: for an active index [i], [UnUse(i)] followed by [Use(i)] both
    succeed and leave the default-constructed value at [i], whatever value
    the element held before; [UnUse(i, args...)] succeeds and leaves the
    value constructed from [args] at [i], also after a following [Use(i)]. *)
Theorem UnUse_resets_element p i (args : Args) :
  wf p → IsInUse i p = Some true →
  (∃ p1 p2,
     UnUse i p = Some (value (), p1) ∧
     Use i p1 = Some (value (element_at i), p2) ∧
     deref p1 (element_at i) = Some T_default ∧
     deref p2 (element_at i) = Some T_default) ∧
  (∃ p1 p2,
     UnUse_args i args p = Some (value (), p1) ∧
     Use i p1 = Some (value (element_at i), p2) ∧
     deref p1 (element_at i) = Some (T_construct args) ∧
     deref p2 (element_at i) = Some (T_construct args)).
Proof.
  intros Hwf Hact.
  destruct (IsInUse_true_inv _ _ Hact) as (Hlt & o & Ho & Hb).
  assert (Hlen : (N.to_nat i < length (pool p))%nat) by (by eapply lookup_lt_Some).
  assert (Hre : ∀ x c,
    let p1 := {| poolSize := poolSize p; nextIdx := nextIdx p; objectsInUse := c;
                 pool := <[N.to_nat i := {| bInUse := false; object := x |}]>
                           (pool p) |} in
    c < SIZE_MODULUS →
    ∃ p2, Use i p1 = Some (value (element_at i), p2) ∧
          deref p1 (element_at i) = Some x ∧
          deref p2 (element_at i) = Some x).
  { intros x c p1 Hc.
    assert (Hwf1 : wf p1).
    { destruct Hwf. split; simpl; [done|by rewrite length_insert|done|done]. }
    assert (Ho1 : vector_at (pool p1) i = Some {| bInUse := false; object := x |})
      by (by apply vector_at_insert_eq).
    destruct (Use_free_effect p1 i _ Hwf1 Hlt Ho1 eq_refl)
      as (p2 & -> & _ & _ & Hpool & _).
    exists p2. split; [done|]. split.
    - simpl. by rewrite vector_at_insert_eq.
    - by rewrite (deref_updated p1 p2 i _ Hwf1 Hlt Hpool). }
  split.
  - rewrite (UnUse_active _ _ _ Hlt Ho Hb).
    destruct (Hre T_default (size_decr (objectsInUse p)) (size_decr_lt _))
      as (p2 & ? & ? & ?).
    by eexists _, p2.
  - rewrite (UnUse_args_active _ _ args _ Hlt Ho Hb).
    destruct (Hre (T_construct args) (size_decr (objectsInUse p)) (size_decr_lt _))
      as (p2 & ? & ? & ?).
    by eexists _, p2.
Qed.

(** ** UseNextReplace *)

(** C8: [UseNextReplace] is [Replace] on the free slot found, followed by
    [Use] of that slot, in one call.  The slot found is the one [UseNext]
    finds, [FULL] is returned (and nothing changes) exactly when no slot is
    free, and on success the element returned is freshly constructed
    (default-constructed, or from the constructor arguments). *)
Theorem UseNextReplace_is_Replace_then_Use p found_pos (args : Args) :
  wf p →
  (∀ pos, first_free_from (nextIdx p) p pos →
     (∃ p0, UseNext found_pos p = Some (value (element_at pos), pos, p0)) ∧
     (∃ p1 p2,
        Replace pos p = Some (value (), p1) ∧
        Use pos p1 = Some (value (element_at pos), p2) ∧
        UseNextReplace found_pos p = Some (value (element_at pos), pos, p2) ∧
        IsInUse pos p2 = Some true ∧
        deref p2 (element_at pos) = Some T_default) ∧
     (∃ p1 p2,
        Replace_args pos args p = Some (value (), p1) ∧
        Use pos p1 = Some (value (element_at pos), p2) ∧
        UseNextReplace_args found_pos args p
          = Some (value (element_at pos), pos, p2) ∧
        IsInUse pos p2 = Some true ∧
        deref p2 (element_at pos) = Some (T_construct args))) ∧
  (all_in_use p →
     UseNextReplace found_pos p = Some (unexpected FULL, found_pos, p) ∧
     UseNextReplace_args found_pos args p
       = Some (unexpected FULL, found_pos, p)) ∧
  ((∃ pos, first_free_from (nextIdx p) p pos) ∨ all_in_use p) ∧
  (∀ r f p', UseNextReplace found_pos p = Some (r, f, p') →
             r = unexpected FULL ↔ all_in_use p) ∧
  (∀ r f p', UseNextReplace_args found_pos args p = Some (r, f, p') →
             r = unexpected FULL ↔ all_in_use p).
Proof.
  intros Hwf.
  assert (Hre : ∀ pos x, first_free_from (nextIdx p) p pos →
    let p1 := set_pool (<[N.to_nat pos := {| bInUse := false; object := x |}]>
                          (pool p)) p in
    ∃ p2, Use pos p1 = Some (value (element_at pos), p2) ∧
          IsInUse pos p2 = Some true ∧ deref p2 (element_at pos) = Some x).
  { intros pos x Hpos p1.
    pose proof (first_free_lt _ _ _ Hpos) as Hlt.
    assert (Hwf1 : wf p1) by (by apply wf_insert).
    assert (Ho1 : vector_at (pool p1) pos = Some {| bInUse := false; object := x |}).
    { apply vector_at_insert_eq. destruct Hwf. lia. }
    destruct (Use_free_effect p1 pos _ Hwf1 Hlt Ho1 eq_refl)
      as (p2 & -> & _ & Hsz & Hpool & _).
    exists p2. split; [done|]. split.
    - by rewrite (IsInUse_updated p1 p2 pos _ Hwf1 Hlt Hsz Hpool).
    - by rewrite (deref_updated p1 p2 pos _ Hwf1 Hlt Hpool). }
  assert (Hfound : ∀ pos, first_free_from (nextIdx p) p pos →
    (∃ p2, UseNextReplace found_pos p = Some (value (element_at pos), pos, p2)) ∧
    (∃ p2, UseNextReplace_args found_pos args p
             = Some (value (element_at pos), pos, p2))).
  { intros pos Hpos.
    destruct (first_free_vector_at _ _ _ Hwf Hpos) as (o & Ho & Hb).
    pose proof (first_free_lt _ _ _ Hpos) as Hlt.
    rewrite (UseNextReplace_first_free _ _ _ Hwf Hpos).
    rewrite (UseNextReplace_args_first_free _ _ args _ Hwf Hpos).
    rewrite (Replace_in_range _ _ _ Hlt Ho).
    rewrite (Replace_args_in_range _ _ args _ Hlt Ho). simpl.
    destruct (Hre pos T_default Hpos) as (p2 & -> & _).
    destruct (Hre pos (T_construct args) Hpos) as (p2' & -> & _).
    simpl. eauto. }
  split; [|split; [|split; [|split]]].
  - intros pos Hpos.
    destruct (first_free_vector_at _ _ _ Hwf Hpos) as (o & Ho & Hb).
    pose proof (first_free_lt _ _ _ Hpos) as Hlt.
    split; [|split].
    + destruct (UseNext_first_free_effect p found_pos pos Hwf Hpos)
        as (p0 & ? & _). by exists p0.
    + rewrite (UseNextReplace_first_free _ _ _ Hwf Hpos).
      rewrite (Replace_in_range _ _ _ Hlt Ho). simpl.
      destruct (Hre pos T_default Hpos) as (p2 & Hu & ? & ?).
      eexists _, p2. split; [done|]. rewrite Hu. done.
    + rewrite (UseNextReplace_args_first_free _ _ args _ Hwf Hpos).
      rewrite (Replace_args_in_range _ _ args _ Hlt Ho). simpl.
      destruct (Hre pos (T_construct args) Hpos) as (p2 & Hu & ? & ?).
      eexists _, p2. split; [done|]. rewrite Hu. done.
  - intros Hall. split.
    + by apply UseNextReplace_all_in_use.
    + by apply UseNextReplace_args_all_in_use.
  - apply first_free_or_full; [done|by apply wf_next_range].
  - intros r f p' Hr.
    destruct (first_free_or_full p (nextIdx p) Hwf (wf_next_range p Hwf))
      as [[pos Hpos]|Hall].
    + destruct (Hfound pos Hpos) as [(p2 & Hu) _].
      rewrite Hu in Hr. injection Hr as <- <- <-.
      split; [done|]. intros Hall.
      destruct (first_free_not_all_in_use _ _ _ Hpos Hall).
    + rewrite (UseNextReplace_all_in_use _ _ Hwf Hall) in Hr.
      by injection Hr as <- <- <-.
  - intros r f p' Hr.
    destruct (first_free_or_full p (nextIdx p) Hwf (wf_next_range p Hwf))
      as [[pos Hpos]|Hall].
    + destruct (Hfound pos Hpos) as [_ (p2 & Hu)].
      rewrite Hu in Hr. injection Hr as <- <- <-.
      split; [done|]. intros Hall.
      destruct (first_free_not_all_in_use _ _ _ Hpos Hall).
    + rewrite (UseNextReplace_args_all_in_use _ _ args Hwf Hall) in Hr.
      by injection Hr as <- <- <-.
Qed.

(** ** Error paths *)

Lemma Replace_error p pos e p' :
  Replace pos p = Some (unexpected e, p') → e = OUT_OF_RANGE ∧ p' = p.
Proof.
  unfold Replace. destruct (poolSize p <=? pos); [by intros [= <- <-]|].
  destruct (vector_update (pool p) pos _) as [v1|]; [|done]. simpl.
  destruct (vector_update v1 pos _); done.
Qed.

Lemma Replace_args_error p pos (args : Args) e p' :
  Replace_args pos args p = Some (unexpected e, p') → e = OUT_OF_RANGE ∧ p' = p.
Proof.
  unfold Replace_args. destruct (poolSize p <=? pos); [by intros [= <- <-]|].
  destruct (vector_update (pool p) pos _) as [v1|]; [|done]. simpl.
  destruct (vector_update v1 pos _); done.
Qed.

Lemma Use_error p pos e p' :
  Use pos p = Some (unexpected e, p') → p' = p.
Proof.
  unfold Use. destruct (poolSize p <=? pos); [by intros [= <- <-]|].
  destruct (vector_at (pool p) pos) as [o|]; [|done]. simpl.
  destruct (bInUse o); [by intros [= <- <-]|].
  destruct (vector_update (pool p) pos _) as [v|]; [|done]. simpl.
  destruct (UpdateNextIdx _); done.
Qed.

Lemma UseNext_error p found_pos e f p' :
  UseNext found_pos p = Some (unexpected e, f, p') → f = found_pos ∧ p' = p.
Proof.
  unfold UseNext. rewrite UseNext_loop_find.
  destruct (find_free _ _ p) as [[i|]|]; simpl; [|by intros [= <- <- <-]|done].
  destruct (vector_update (pool p) i _) as [v|]; [|done]. simpl.
  destruct (UpdateNextIdx _); done.
Qed.

Lemma UseNextReplace_error p found_pos e f p' :
  UseNextReplace found_pos p = Some (unexpected e, f, p') →
  f = found_pos ∧ p' = p.
Proof.
  unfold UseNextReplace. rewrite UseNextReplace_loop_find.
  destruct (find_free _ _ p) as [[i|]|]; simpl; [|by intros [= <- <- <-]|done].
  destruct (Replace i p) as [[[[]|e'] p1]|] eqn:Hr; [| |done]; simpl.
  - destruct (vector_update (pool p1) i _) as [v|]; [|done]. simpl.
    destruct (UpdateNextIdx _); done.
  - intros [= <- <- <-]. by destruct (Replace_error _ _ _ _ Hr).
Qed.

Lemma UseNextReplace_args_error p found_pos (args : Args) e f p' :
  UseNextReplace_args found_pos args p = Some (unexpected e, f, p') →
  f = found_pos ∧ p' = p.
Proof.
  unfold UseNextReplace_args. rewrite UseNextReplace_args_loop_find.
  destruct (find_free _ _ p) as [[i|]|]; simpl; [|by intros [= <- <- <-]|done].
  destruct (Replace_args i args p) as [[[[]|e'] p1]|] eqn:Hr; [| |done]; simpl.
  - destruct (vector_update (pool p1) i _) as [v|]; [|done]. simpl.
    destruct (UpdateNextIdx _); done.
  - intros [= <- <- <-]. by destruct (Replace_args_error _ _ _ _ _ Hr).
Qed.

Lemma UnUse_error p pos e p' :
  UnUse pos p = Some (unexpected e, p') → p' = p.
Proof.
  unfold UnUse. destruct (poolSize p <=? pos); [by intros [= <- <-]|].
  destruct (vector_at (pool p) pos) as [o|]; [|done]. simpl.
  destruct (negb (bInUse o)); [by intros [= <- <-]|].
  destruct (Replace pos p) as [[? ?]|]; done.
Qed.

Lemma UnUse_args_error p pos (args : Args) e p' :
  UnUse_args pos args p = Some (unexpected e, p') → p' = p.
Proof.
  unfold UnUse_args. destruct (poolSize p <=? pos); [by intros [= <- <-]|].
  destruct (vector_at (pool p) pos) as [o|]; [|done]. simpl.
  destruct (negb (bInUse o)); [by intros [= <- <-]|].
  destruct (Replace_args pos args p) as [[? ?]|]; done.
Qed.

(** An operation that reports an error has changed neither the pool nor the
    caller's [found_pos]. *)
Lemma exec_error (op : Op) found_pos p r f p' e :
  exec op found_pos p = Some (r, f, p') → result_error r = Some e →
  f = found_pos ∧ p' = p.
Proof.
  destruct op as [pos| | |args|pos|pos|pos|pos args|pos|pos args]; simpl.
  - destruct (Use pos p) as [[[?|e'] p1]|] eqn:Hop; [| |done];
      intros [= <- <- <-]; [done|]. intros _. split; [done|].
    by eapply Use_error.
  - destruct (UseNext found_pos p) as [[[[?|e'] f1] p1]|] eqn:Hop; [| |done];
      intros [= <- <- <-]; [done|]. intros _. by eapply UseNext_error.
  - destruct (UseNextReplace found_pos p) as [[[[?|e'] f1] p1]|] eqn:Hop;
      [| |done]; intros [= <- <- <-]; [done|]. intros _.
    by eapply UseNextReplace_error.
  - destruct (UseNextReplace_args found_pos args p) as [[[[?|e'] f1] p1]|] eqn:Hop;
      [| |done]; intros [= <- <- <-]; [done|]. intros _.
    by eapply UseNextReplace_args_error.
  - destruct (Get pos p); [|done]. by intros [= <- <- <-].
  - destruct (IsInUse pos p); [|done]. by intros [= <- <- <-].
  - destruct (UnUse pos p) as [[[?|e'] p1]|] eqn:Hop; [| |done];
      intros [= <- <- <-]; [done|]. intros _. split; [done|].
    by eapply UnUse_error.
  - destruct (UnUse_args pos args p) as [[[?|e'] p1]|] eqn:Hop; [| |done];
      intros [= <- <- <-]; [done|]. intros _. split; [done|].
    by eapply UnUse_args_error.
  - destruct (Replace pos p) as [[[?|e'] p1]|] eqn:Hop; [| |done];
      intros [= <- <- <-]; [done|]. intros _. split; [done|].
    by eapply Replace_error.
  - destruct (Replace_args pos args p) as [[[?|e'] p1]|] eqn:Hop; [| |done];
      intros [= <- <- <-]; [done|]. intros _. split; [done|].
    by eapply Replace_args_error.
Qed.

(** ** Every operation returns, and keeps the pool well formed *)

Lemma wf_reconstructed p pos (x : T) c :
  wf p → c < SIZE_MODULUS →
  wf {| poolSize := poolSize p; nextIdx := nextIdx p; objectsInUse := c;
        pool := <[N.to_nat pos := {| bInUse := false; object := x |}]> (pool p) |}.
Proof.
  intros [] Hc. split; simpl; [done|by rewrite length_insert|done|done].
Qed.

Lemma Use_total p pos :
  wf p → ∃ r p', Use pos p = Some (r, p') ∧ wf p'.
Proof.
  intros Hwf. destruct (decide (pos < poolSize p)) as [Hlt|Hge].
  - destruct (wf_vector_at p pos Hwf Hlt) as [o Ho].
    destruct (bInUse o) eqn:Hb.
    + exists (unexpected ALREADY_IN_USE), p. split; [|done].
      unfold Use. destruct (N.leb_spec (poolSize p) pos); [lia|].
      by rewrite Ho; simpl; rewrite Hb.
    + destruct (Use_free_effect p pos o Hwf Hlt Ho Hb) as (p' & -> & Hwf' & _).
      by eexists _, p'.
  - exists (unexpected OUT_OF_RANGE), p. split; [|done].
    unfold Use. by destruct (N.leb_spec (poolSize p) pos); [|lia].
Qed.

Lemma Get_total p pos : wf p → ∃ r, Get pos p = Some r.
Proof.
  intros Hwf. unfold Get. destruct (N.leb_spec (poolSize p) pos); [by eexists|].
  destruct (wf_vector_at p pos Hwf) as [o ->]; [done|]. simpl.
  destruct (negb (bInUse o)); by eexists.
Qed.

Lemma Replace_total p pos :
  wf p → ∃ r p', Replace pos p = Some (r, p') ∧ wf p'.
Proof.
  intros Hwf. destruct (decide (pos < poolSize p)) as [Hlt|Hge].
  - destruct (wf_vector_at p pos Hwf Hlt) as [o Ho].
    rewrite (Replace_in_range _ _ _ Hlt Ho). eexists _, _. split; [done|].
    by apply wf_insert.
  - rewrite Replace_out_of_range by lia. by eexists _, _.
Qed.

Lemma Replace_args_total p pos (args : Args) :
  wf p → ∃ r p', Replace_args pos args p = Some (r, p') ∧ wf p'.
Proof.
  intros Hwf. destruct (decide (pos < poolSize p)) as [Hlt|Hge].
  - destruct (wf_vector_at p pos Hwf Hlt) as [o Ho].
    rewrite (Replace_args_in_range _ _ args _ Hlt Ho). eexists _, _.
    split; [done|]. by apply wf_insert.
  - rewrite Replace_args_out_of_range by lia. by eexists _, _.
Qed.

Lemma UnUse_total p pos :
  wf p → ∃ r p', UnUse pos p = Some (r, p') ∧ wf p'.
Proof.
  intros Hwf. destruct (decide (pos < poolSize p)) as [Hlt|Hge].
  - destruct (wf_vector_at p pos Hwf Hlt) as [o Ho].
    destruct (bInUse o) eqn:Hb.
    + rewrite (UnUse_active _ _ _ Hlt Ho Hb). eexists _, _. split; [done|].
      apply wf_reconstructed; [done|apply size_decr_lt].
    + exists (unexpected ALREADY_UNUSED), p. split; [|done].
      unfold UnUse. destruct (N.leb_spec (poolSize p) pos); [lia|].
      by rewrite Ho; simpl; rewrite Hb.
  - exists (unexpected OUT_OF_RANGE), p. split; [|done].
    unfold UnUse. by destruct (N.leb_spec (poolSize p) pos); [|lia].
Qed.

Lemma UnUse_args_total p pos (args : Args) :
  wf p → ∃ r p', UnUse_args pos args p = Some (r, p') ∧ wf p'.
Proof.
  intros Hwf. destruct (decide (pos < poolSize p)) as [Hlt|Hge].
  - destruct (wf_vector_at p pos Hwf Hlt) as [o Ho].
    destruct (bInUse o) eqn:Hb.
    + rewrite (UnUse_args_active _ _ args _ Hlt Ho Hb). eexists _, _.
      split; [done|]. apply wf_reconstructed; [done|apply size_decr_lt].
    + exists (unexpected ALREADY_UNUSED), p. split; [|done].
      unfold UnUse_args. destruct (N.leb_spec (poolSize p) pos); [lia|].
      by rewrite Ho; simpl; rewrite Hb.
  - exists (unexpected OUT_OF_RANGE), p. split; [|done].
    unfold UnUse_args. by destruct (N.leb_spec (poolSize p) pos); [|lia].
Qed.

Lemma UseNext_total p found_pos :
  wf p → ∃ r f p', UseNext found_pos p = Some (r, f, p') ∧ wf p'.
Proof.
  intros Hwf.
  destruct (first_free_or_full p (nextIdx p) Hwf (wf_next_range p Hwf))
    as [[pos Hpos]|Hall].
  - rewrite (UseNext_first_free _ _ _ Hwf Hpos).
    destruct (first_free_vector_at _ _ _ Hwf Hpos) as (o & Ho & Hb).
    destruct (Use_free_effect p pos o Hwf (first_free_lt _ _ _ Hpos) Ho Hb)
      as (p' & -> & Hwf' & _).
    by eexists _, _, p'.
  - rewrite (UseNext_all_in_use _ _ Hwf Hall). by eexists _, _, _.
Qed.

Lemma Use_reconstructed_total p pos (x : T) :
  wf p → pos < poolSize p →
  ∃ p', Use pos (set_pool (<[N.to_nat pos := {| bInUse := false; object := x |}]>
                             (pool p)) p)
        = Some (value (element_at pos), p') ∧ wf p'.
Proof.
  intros Hwf Hlt.
  set (p1 := set_pool _ p).
  assert (Hwf1 : wf p1) by (by apply wf_insert).
  assert (Ho1 : vector_at (pool p1) pos = Some {| bInUse := false; object := x |}).
  { apply vector_at_insert_eq. destruct Hwf. lia. }
  destruct (Use_free_effect p1 pos _ Hwf1 Hlt Ho1 eq_refl) as (p' & -> & ? & _).
  by exists p'.
Qed.

Lemma UseNextReplace_total p found_pos :
  wf p → ∃ r f p', UseNextReplace found_pos p = Some (r, f, p') ∧ wf p'.
Proof.
  intros Hwf.
  destruct (first_free_or_full p (nextIdx p) Hwf (wf_next_range p Hwf))
    as [[pos Hpos]|Hall].
  - rewrite (UseNextReplace_first_free _ _ _ Hwf Hpos).
    destruct (first_free_vector_at _ _ _ Hwf Hpos) as (o & Ho & Hb).
    pose proof (first_free_lt _ _ _ Hpos) as Hlt.
    rewrite (Replace_in_range _ _ _ Hlt Ho). simpl.
    destruct (Use_reconstructed_total p pos T_default Hwf Hlt) as (p' & -> & ?).
    by eexists _, _, p'.
  - rewrite (UseNextReplace_all_in_use _ _ Hwf Hall). by eexists _, _, _.
Qed.

Lemma UseNextReplace_args_total p found_pos (args : Args) :
  wf p → ∃ r f p', UseNextReplace_args found_pos args p = Some (r, f, p') ∧ wf p'.
Proof.
  intros Hwf.
  destruct (first_free_or_full p (nextIdx p) Hwf (wf_next_range p Hwf))
    as [[pos Hpos]|Hall].
  - rewrite (UseNextReplace_args_first_free _ _ args _ Hwf Hpos).
    destruct (first_free_vector_at _ _ _ Hwf Hpos) as (o & Ho & Hb).
    pose proof (first_free_lt _ _ _ Hpos) as Hlt.
    rewrite (Replace_args_in_range _ _ args _ Hlt Ho). simpl.
    destruct (Use_reconstructed_total p pos (T_construct args) Hwf Hlt)
      as (p' & -> & ?).
    by eexists _, _, p'.
  - rewrite (UseNextReplace_args_all_in_use _ _ args Hwf Hall).
    by eexists _, _, _.
Qed.

Lemma exec_total (op : Op) found_pos p :
  wf p → ∃ r f p', exec op found_pos p = Some (r, f, p') ∧ wf p'.
Proof.
  intros Hwf.
  destruct op as [pos| | |args|pos|pos|pos|pos args|pos|pos args]; simpl.
  - destruct (Use_total p pos Hwf) as (r & p' & -> & ?). by eexists _, _, _.
  - destruct (UseNext_total p found_pos Hwf) as (r & f & p' & -> & ?).
    by eexists _, _, _.
  - destruct (UseNextReplace_total p found_pos Hwf) as (r & f & p' & -> & ?).
    by eexists _, _, _.
  - destruct (UseNextReplace_args_total p found_pos args Hwf)
      as (r & f & p' & -> & ?). by eexists _, _, _.
  - destruct (Get_total p pos Hwf) as (r & ->). by eexists _, _, _.
  - destruct (IsInUse_total p pos Hwf) as (b & ->). by eexists _, _, _.
  - destruct (UnUse_total p pos Hwf) as (r & p' & -> & ?). by eexists _, _, _.
  - destruct (UnUse_args_total p pos args Hwf) as (r & p' & -> & ?).
    by eexists _, _, _.
  - destruct (Replace_total p pos Hwf) as (r & p' & -> & ?). by eexists _, _, _.
  - destruct (Replace_args_total p pos args Hwf) as (r & p' & -> & ?).
    by eexists _, _, _.
Qed.

Lemma run_total (ops : list Op) found_pos p :
  wf p → ∃ f p', run ops found_pos p = Some (f, p') ∧ wf p'.
Proof.
  revert found_pos p. induction ops as [|op ops IH]; intros found_pos p Hwf.
  - by eexists _, _.
  - simpl. destruct (exec_total op found_pos p Hwf) as (r & f & p' & -> & Hwf').
    simpl. by apply IH.
Qed.

(** C6: [IsInUse] answers [false], without failing, for every index at or
    beyond [poolSize]; [Use], [Get] and [Replace] answer [OUT_OF_RANGE]
    there; every operation on a well-formed pool returns; and an operation
    that returns an error leaves the pool (flags, counter, cursor and
    elements) and the caller's [found_pos] exactly as they were. *)
Theorem out_of_range_and_error_paths p pos found_pos (args : Args) (op : Op) :
  (poolSize p ≤ pos →
     IsInUse pos p = Some false ∧
     Use pos p = Some (unexpected OUT_OF_RANGE, p) ∧
     Get pos p = Some (unexpected OUT_OF_RANGE) ∧
     Replace pos p = Some (unexpected OUT_OF_RANGE, p) ∧
     Replace_args pos args p = Some (unexpected OUT_OF_RANGE, p)) ∧
  IsInUse (Size p) p = Some false ∧
  (wf p → ∃ r f p', exec op found_pos p = Some (r, f, p')) ∧
  (∀ r f p' e,
     exec op found_pos p = Some (r, f, p') → result_error r = Some e →
     f = found_pos ∧ p' = p).
Proof.
  split; [|split; [|split]].
  - intros Hge. split; [by apply IsInUse_out_of_range|].
    rewrite Replace_out_of_range, Replace_args_out_of_range by done.
    unfold Use, Get. by destruct (N.leb_spec (poolSize p) pos); [|lia].
  - apply IsInUse_out_of_range. unfold Size. lia.
  - intros Hwf. destruct (exec_total op found_pos p Hwf) as (r & f & p' & ? & _).
    by eexists _, _, _.
  - intros r f p' e. apply exec_error.
Qed.

(** ** Iterators *)

Lemma SkipUnused_loop_spec p (fuel : nat) pos :
  wf p → (N.to_nat (poolSize p) - N.to_nat pos ≤ fuel)%nat →
  ∃ pos', SkipUnused_loop fuel p pos = Some pos' ∧
    pos ≤ pos' ∧
    (pos' < poolSize p → IsInUse pos' p = Some true) ∧
    (∀ j, pos ≤ j → j < pos' → IsInUse j p = Some false) ∧
    (pos ≤ poolSize p → pos' ≤ poolSize p).
Proof.
  intros Hwf. revert pos. induction fuel as [|fuel IH]; intros pos Hfuel.
  - exists pos. unfold SkipUnused_loop, Size.
    destruct (N.ltb_spec pos (poolSize p)); [lia|].
    split; [done|]. repeat split; intros; lia.
  - simpl. unfold Size. destruct (N.ltb_spec pos (poolSize p)) as [Hlt|Hge].
    + destruct (wf_vector_at p pos Hwf Hlt) as [o Ho].
      rewrite (IsInUse_in_range p pos o Hlt Ho). simpl.
      destruct (bInUse o) eqn:Hb; simpl.
      * exists pos. split; [done|]. split; [lia|].
        split; [intros _; by rewrite (IsInUse_in_range p pos o Hlt Ho), Hb|].
        split; intros; lia.
      * assert (Hinc : size_incr pos = pos + 1).
        { apply size_incr_small. destruct Hwf. lia. }
        rewrite Hinc. destruct (IH (pos + 1)) as (pos' & -> & Hle & Hact & Hskip & Hend);
          [lia|].
        exists pos'. split; [done|]. split; [lia|]. split; [done|].
        split; [|intros; apply Hend; lia].
        intros j Hj1 Hj2. destruct (decide (j = pos)) as [->|].
        -- by rewrite (IsInUse_in_range p pos o Hlt Ho), Hb.
        -- apply Hskip; lia.
    + exists pos. split; [done|]. repeat split; intros; lia.
Qed.

Lemma SkipUnused_spec p it :
  wf p → pPool it = this_pool →
  ∃ it', SkipUnused p it = Some it' ∧ valid_iter p it' ∧
    currentPos it ≤ currentPos it' ∧
    (∀ j, currentPos it ≤ j → j < currentPos it' → IsInUse j p = Some false) ∧
    (currentPos it ≤ poolSize p → currentPos it' ≤ poolSize p).
Proof.
  intros Hwf Hpool. unfold SkipUnused. rewrite Hpool.
  destruct (SkipUnused_loop_spec p (N.to_nat (Size p)) (currentPos it) Hwf)
    as (pos' & -> & Hle & Hact & Hskip & Hend); [unfold Size; lia|].
  simpl. destruct (decide (pos' < poolSize p)) as [Hlt|Hge].
  - rewrite (Hact Hlt). simpl.
    destruct (wf_vector_at p pos' Hwf Hlt) as [o Ho].
    unfold subscript. rewrite Ho. simpl.
    eexists. split; [done|]. split; [|done].
    split; [done|]. left. simpl. by split; [apply Hact|].
  - rewrite IsInUse_out_of_range by lia. simpl.
    eexists. split; [done|]. split; [|done].
    split; [done|]. right. simpl. split; [lia|done].
Qed.

Lemma pool_end_eq p :
  pool_end p =
  Some {| currentPos := Size p; pObject := nullptr; pPool := this_pool |}.
Proof. done. Qed.

Lemma reachable_valid p it : wf p → reachable_iter p it → valid_iter p it.
Proof.
  intros Hwf Hit. induction Hit as [it Hb|it He|it it' _ IH Hinc].
  - unfold pool_begin, CIterator_new in Hb. simpl in Hb.
    destruct (SkipUnused_spec p
                {| currentPos := 0; pObject := nullptr; pPool := this_pool |}
                Hwf eq_refl) as (it' & Hs & Hv & _).
    rewrite Hs in Hb. by injection Hb as <-.
  - rewrite pool_end_eq in He. injection He as <-.
    split; [done|]. right. simpl. unfold Size. split; [lia|done].
  - unfold iter_incr in Hinc. destruct IH as [Hp _].
    destruct (SkipUnused_spec p
                {| currentPos := size_incr (currentPos it);
                   pObject := pObject it; pPool := pPool it |}
                Hwf Hp) as (it'' & Hs & Hv & _).
    rewrite Hs in Hinc. by injection Hinc as <-.
Qed.

Lemma iter_eq_spec (a b : CIterator) : iter_eq a b = true ↔ pObject a = pObject b.
Proof. unfold iter_eq. apply bool_decide_eq_true. Qed.

(** C10: two iterators are equal exactly when they reference the same
    element; for iterators obtained from one pool that means that they stand
    on the same active slot or are both past the last slot.  Any two end
    iterators are equal, and an end iterator never equals an iterator that
    references an element. *)
Theorem iterator_equality p (a b : CIterator) :
  (iter_eq a b = true ↔ pObject a = pObject b) ∧
  iter_ne a b = negb (iter_eq a b) ∧
  (wf p → reachable_iter p a → reachable_iter p b →
     (iter_eq a b = true ↔
        (currentPos a = currentPos b ∧ IsInUse (currentPos a) p = Some true) ∨
        (poolSize p ≤ currentPos a ∧ poolSize p ≤ currentPos b))) ∧
  (∀ (q : CObjectPool T) ea eb,
     pool_end p = Some ea → pool_end q = Some eb → iter_eq ea eb = true) ∧
  (∀ e i, pool_end p = Some e → pObject a = element_at i →
          iter_eq e a = false ∧ iter_eq a e = false).
Proof.
  split; [apply iter_eq_spec|]. split; [done|]. split; [|split].
  - intros Hwf Ha Hb. rewrite iter_eq_spec.
    destruct (reachable_valid p a Hwf Ha) as [_ [[Hact ->]|[Hend ->]]];
      destruct (reachable_valid p b Hwf Hb) as [_ [[Hact' ->]|[Hend' ->]]].
    + split.
      * intros [= Heq]. left. by split.
      * intros [[Heq _]|[Hge _]]; [by rewrite Heq|].
        destruct (IsInUse_true_inv _ _ Hact). lia.
    + split; [done|]. intros [[Heq _]|[Hge _]].
      * destruct (IsInUse_true_inv _ _ Hact). lia.
      * destruct (IsInUse_true_inv _ _ Hact). lia.
    + split; [done|]. intros [[Heq Hact]|[_ Hge]].
      * destruct (IsInUse_true_inv _ _ Hact). lia.
      * destruct (IsInUse_true_inv _ _ Hact'). lia.
    + split; [|done]. intros _. by right.
  - intros q ea eb. rewrite !pool_end_eq. by intros [= <-] [= <-].
  - intros e i. rewrite pool_end_eq. intros [= <-] Hobj.
    unfold iter_eq. simpl. rewrite Hobj. done.
Qed.

(** ** Traversal *)

Lemma indices_from_cons p c :
  c < poolSize p → indices_from p c = c :: indices_from p (c + 1).
Proof.
  intros Hlt. unfold indices_from.
  replace (N.to_nat (poolSize p) - N.to_nat c)%nat
    with (S (N.to_nat (poolSize p) - N.to_nat (c + 1))) by lia.
  replace (N.to_nat (c + 1)) with (S (N.to_nat c)) by lia.
  simpl. by rewrite N2Nat.id.
Qed.

Lemma indices_from_end p c : poolSize p ≤ c → indices_from p c = [].
Proof.
  intros Hge. unfold indices_from.
  by replace (N.to_nat (poolSize p) - N.to_nat c)%nat with 0%nat by lia.
Qed.

Lemma indices_from_0 p : indices_from p 0 = indices p.
Proof. unfold indices_from, indices. simpl. by rewrite Nat.sub_0_r. Qed.

Lemma active_from_0 p : active_from p 0 = active_indices p.
Proof. unfold active_from, active_indices. by rewrite indices_from_0. Qed.

Lemma active_from_end p c : poolSize p ≤ c → active_from p c = [].
Proof. intros Hge. unfold active_from. by rewrite indices_from_end. Qed.

Lemma active_from_active p c :
  IsInUse c p = Some true → active_from p c = c :: active_from p (c + 1).
Proof.
  intros Hact. destruct (IsInUse_true_inv _ _ Hact) as [Hlt _].
  unfold active_from. rewrite indices_from_cons by done.
  by rewrite filter_cons_True.
Qed.

Lemma active_from_inactive p c :
  IsInUse c p = Some false → active_from p c = active_from p (c + 1).
Proof.
  intros Hina. destruct (decide (c < poolSize p)) as [Hlt|Hge].
  - unfold active_from. rewrite indices_from_cons by done.
    rewrite filter_cons_False; [done|]. by rewrite Hina.
  - rewrite !active_from_end; [done|lia|lia].
Qed.

Lemma active_from_skip p (d : nat) c :
  (∀ j, c ≤ j → j < c + N.of_nat d → IsInUse j p = Some false) →
  active_from p c = active_from p (c + N.of_nat d).
Proof.
  revert c. induction d as [|d IH]; intros c Hskip.
  - by rewrite N.add_0_r.
  - rewrite active_from_inactive by (apply Hskip; lia).
    rewrite IH; [f_equal; lia|]. intros j ??. apply Hskip; lia.
Qed.

Lemma visit_active p i :
  IsInUse i p = Some true →
  ∃ x, deref p (element_at i) = Some x ∧ visit p i = Some (element_at i, x).
Proof.
  intros Hact. destruct (IsInUse_true_inv _ _ Hact) as (_ & o & Ho & _).
  exists (object o). unfold visit. simpl. by rewrite Ho.
Qed.

Lemma range_for_unfold (fuel : nat) p it last :
  range_for fuel p it last =
  if iter_ne it last then
    match fuel with
    | O => None
    | S fuel' =>
        x ← iter_deref p it;
        it' ← iter_incr p it;
        rest ← range_for fuel' p it' last;
        Some ((pObject it, x) :: rest)
    end
  else Some [].
Proof. by destruct fuel. Qed.

(** From a valid iterator the loop visits the active slots that remain. *)
Lemma range_for_spec p (fuel : nat) it :
  wf p → valid_iter p it →
  (N.to_nat (poolSize p) - N.to_nat (currentPos it) < fuel)%nat →
  range_for fuel p it
    {| currentPos := Size p; pObject := nullptr; pPool := this_pool |}
  = Some (omap (visit p) (active_from p (currentPos it))).
Proof.
  intros Hwf. revert it. induction fuel as [|fuel IH]; intros it Hv Hfuel; [lia|].
  rewrite range_for_unfold. unfold iter_ne. simpl.
  destruct Hv as [Hp [[Hact Hobj]|[Hend Hobj]]]; rewrite Hobj; simpl.
  - destruct (IsInUse_true_inv _ _ Hact) as [Hlt _].
    destruct (visit_active p _ Hact) as (x & Hx & Hvisit).
    unfold iter_deref, iter_incr. rewrite Hobj, Hx. simpl.
    assert (Hinc : size_incr (currentPos it) = currentPos it + 1).
    { apply size_incr_small. destruct Hwf. lia. }
    rewrite Hinc.
    destruct (SkipUnused_spec p
                {| currentPos := currentPos it + 1; pObject := element_at (currentPos it);
                   pPool := pPool it |} Hwf Hp)
      as (it' & -> & Hv' & Hle & Hskip & _).
    simpl in *. rewrite (IH it' Hv') by lia. simpl.
    rewrite (active_from_active p _ Hact). simpl. rewrite Hvisit. simpl.
    do 3 f_equal.
    rewrite (active_from_skip p (N.to_nat (currentPos it' - (currentPos it + 1)))
               (currentPos it + 1)).
    + f_equal. lia.
    + intros j ??. apply Hskip; lia.
  - by rewrite active_from_end.
Qed.

(** The range-based loop over a pool terminates and visits exactly the
    elements at the active indices, in index order. *)
Lemma traverse_spec p (fuel : nat) :
  wf p → (N.to_nat (poolSize p) < fuel)%nat →
  traverse fuel p = Some (active_elements p).
Proof.
  intros Hwf Hfuel. unfold traverse, pool_begin, pool_end, CIterator_new. simpl.
  destruct (SkipUnused_spec p
              {| currentPos := 0; pObject := nullptr; pPool := this_pool |}
              Hwf eq_refl) as (it & -> & Hv & _ & Hskip & _).
  simpl in *. rewrite (range_for_spec p fuel it Hwf Hv) by lia.
  unfold active_elements. rewrite <- active_from_0. do 2 f_equal.
  rewrite (active_from_skip p (N.to_nat (currentPos it)) 0).
  - f_equal. lia.
  - intros j ??. apply Hskip; lia.
Qed.

Lemma elem_of_active_indices p i :
  i ∈ active_indices p ↔ IsInUse i p = Some true.
Proof.
  unfold active_indices, indices. rewrite list_elem_of_filter. split; [tauto|].
  intros Hact. split; [done|]. destruct (IsInUse_true_inv _ _ Hact) as [Hlt _].
  apply list_elem_of_fmap. exists (N.to_nat i). split; [by rewrite N2Nat.id|].
  apply elem_of_seq. lia.
Qed.

Lemma StronglySorted_seq (a n : nat) : StronglySorted lt (seq a n).
Proof.
  revert a. induction n as [|n IH]; intros a; simpl; constructor; [apply IH|].
  apply Forall_forall. intros k Hk. apply elem_of_seq in Hk. lia.
Qed.

Lemma StronglySorted_filter {A} (R : relation A) (P : A → Prop)
    `{!∀ x, Decision (P x)} (l : list A) :
  StronglySorted R l → StronglySorted R (filter P l).
Proof.
  induction 1 as [|x l Hl IH Hx]; [constructor|].
  rewrite filter_cons. destruct (decide (P x)); [|done].
  constructor; [done|]. apply Forall_forall. intros y Hy.
  apply list_elem_of_filter in Hy as [_ Hy].
  by eapply Forall_forall in Hx.
Qed.

(** The active indices are listed in strictly increasing order. *)
Lemma active_indices_sorted p : StronglySorted N.lt (active_indices p).
Proof.
  apply StronglySorted_filter.
  apply (StronglySorted_fmap N.of_nat lt N.lt); [lia|apply StronglySorted_seq].
Qed.

(** Each visited element is the one stored at its active index. *)
Lemma active_elements_indices p :
  Forall2 (λ i e, e.1 = element_at i ∧ deref p (element_at i) = Some e.2)
          (active_indices p) (active_elements p).
Proof.
  unfold active_elements.
  assert (Hall : ∀ i, i ∈ active_indices p → IsInUse i p = Some true)
    by (intros i; apply elem_of_active_indices).
  induction (active_indices p) as [|i l IH]; [constructor|].
  destruct (visit_active p i) as (x & Hx & Hvisit); [apply Hall; left|].
  simpl. rewrite Hvisit. constructor; [done|].
  apply IH. intros j Hj. apply Hall. by right.
Qed.

Lemma length_active_elements p :
  N.of_nat (length (active_elements p)) = active_count p.
Proof.
  unfold active_count. f_equal. symmetry.
  eapply Forall2_length, active_elements_indices.
Qed.

(** A pool without active slots: [begin() == end()]. *)
Lemma begin_is_end_when_empty p :
  wf p → (∀ i, IsInUse i p ≠ Some true) →
  ∃ first last, pool_begin p = Some first ∧ pool_end p = Some last ∧
                iter_eq first last = true.
Proof.
  intros Hwf Hnone. unfold pool_begin, CIterator_new. simpl.
  destruct (SkipUnused_spec p
              {| currentPos := 0; pObject := nullptr; pPool := this_pool |}
              Hwf eq_refl) as (it & -> & [_ [[Hact _]|[_ Hobj]]] & _).
  - by destruct (Hnone _ Hact).
  - eexists _, _. split; [done|]. split; [apply pool_end_eq|].
    unfold iter_eq. simpl. by rewrite Hobj.
Qed.

(** A pool whose only active slot is the last one: [begin()] references that
    slot's element, and one increment reaches [end()]. *)
Lemma last_slot_only p :
  wf p → IsInUse (poolSize p - 1) p = Some true →
  (∀ i, i ≠ poolSize p - 1 → IsInUse i p ≠ Some true) →
  ∃ first x next last,
    pool_begin p = Some first ∧ pObject first = element_at (poolSize p - 1) ∧
    iter_deref p first = Some x ∧ deref p (element_at (poolSize p - 1)) = Some x ∧
    iter_incr p first = Some next ∧ pool_end p = Some last ∧
    iter_eq next last = true.
Proof.
  intros Hwf Hlast Hothers.
  destruct (IsInUse_true_inv _ _ Hlast) as [Hlt _].
  unfold pool_begin, CIterator_new. simpl.
  destruct (SkipUnused_spec p
              {| currentPos := 0; pObject := nullptr; pPool := this_pool |}
              Hwf eq_refl) as (it & -> & [Hp [[Hact Hobj]|[Hend _]]] & _ & Hskip & _).
  - assert (Hc : currentPos it = poolSize p - 1).
    { destruct (decide (currentPos it = poolSize p - 1)); [done|].
      by destruct (Hothers (currentPos it)). }
    destruct (visit_active p _ Hact) as (x & Hx & _).
    assert (Hinc : size_incr (currentPos it) = poolSize p).
    { rewrite size_incr_small; destruct Hwf; lia. }
    assert (Hnext : ∃ it', iter_incr p it = Some it' ∧ pObject it' = nullptr).
    { unfold iter_incr. rewrite Hinc.
      destruct (SkipUnused_spec p
                  {| currentPos := poolSize p; pObject := pObject it;
                     pPool := pPool it |}
                  Hwf Hp) as (it' & -> & [_ [[Hact' _]|[_ Hobj']]] & Hle & _).
      - destruct (IsInUse_true_inv _ _ Hact'). simpl in *. lia.
      - by exists it'. }
    destruct Hnext as (it' & Hnext & Hobj').
    exists it, x, it'. eexists. rewrite <- Hc.
    split; [done|]. split; [done|]. unfold iter_deref. rewrite Hobj.
    split; [done|]. split; [done|]. split; [done|].
    split; [apply pool_end_eq|]. unfold iter_eq. simpl. by rewrite Hobj'.
  - simpl in *. rewrite Hskip in Hlast; [done|lia|lia].
Qed.

(** ** Counting the active slots *)

Lemma count_suffix p (l0 l : list (CObject T)) :
  pool p = l0 ++ l → length (pool p) = N.to_nat (poolSize p) →
  length (filter (λ i, IsInUse i p = Some true)
            (N.of_nat <$> seq (length l0) (length l)))
  = length (filter (λ o, bInUse o = true) l).
Proof.
  revert l0. induction l as [|a l IH]; intros l0 Hp Hlen; [done|].
  assert (Hlen' : length (pool p) = (length l0 + S (length l))%nat)
    by (by rewrite Hp, length_app).
  assert (Ha : IsInUse (N.of_nat (length l0)) p = Some (bInUse a)).
  { apply IsInUse_in_range; [lia|]. unfold vector_at.
    rewrite Nat2N.id, Hp. by apply list_lookup_middle. }
  simpl. rewrite !filter_cons, Ha.
  specialize (IH (l0 ++ [a])). rewrite length_app in IH. simpl in IH.
  rewrite Nat.add_1_r in IH.
  destruct (bInUse a);
    repeat (rewrite decide_True by done || rewrite decide_False by done);
    simpl; [f_equal|]; (apply IH; [by rewrite <- app_assoc|done]).
Qed.

(** The number of indices for which [IsInUse] holds is the number of slots
    whose flag is set. *)
Lemma active_count_pool p :
  length (pool p) = N.to_nat (poolSize p) →
  active_count p = N.of_nat (length (filter (λ o, bInUse o = true) (pool p))).
Proof.
  intros Hlen. unfold active_count, active_indices, indices. f_equal.
  rewrite <- Hlen. by apply (count_suffix p []).
Qed.

Lemma active_count_le p : wf p → active_count p ≤ poolSize p.
Proof.
  intros [_ Hlen _ _]. rewrite (active_count_pool p Hlen).
  pose proof (length_filter (λ o : CObject T, bInUse o = true) (pool p)). lia.
Qed.

Lemma count_insert (l : list (CObject T)) (i : nat) o o' :
  l !! i = Some o →
  (length (filter (λ o, bInUse o = true) (<[i:=o']> l)) + Nat.b2n (bInUse o)
   = length (filter (λ o, bInUse o = true) l) + Nat.b2n (bInUse o'))%nat.
Proof.
  intros Hl. pose proof (lookup_lt_Some _ _ _ Hl) as Hlt.
  rewrite insert_take_drop by done.
  pose proof (take_drop_middle l i o Hl) as Hsplit.
  generalize dependent (take i l). generalize dependent (drop (S i) l).
  intros l2 l1 <-.
  rewrite !filter_app, !filter_cons, !length_app.
  destruct (bInUse o), (bInUse o');
    repeat (rewrite decide_True by done || rewrite decide_False by done);
    simpl; lia.
Qed.

(** Writing one slot changes the count by the change of that slot's flag. *)
Lemma active_count_written p p' pos o o' :
  wf p → slot_written p p' pos o o' →
  active_count p' + N.b2n (bInUse o) = active_count p + N.b2n (bInUse o').
Proof.
  intros [_ Hlen _ _] (Hlt & Ho & Hsz & Hpool).
  rewrite (active_count_pool p Hlen), (active_count_pool p').
  - rewrite Hpool. pose proof (count_insert _ _ _ o' Ho) as Hc.
    destruct (bInUse o), (bInUse o'); simpl in *; lia.
  - by rewrite Hpool, length_insert, Hsz.
Qed.

Lemma active_count_same p p' :
  length (pool p) = N.to_nat (poolSize p) →
  poolSize p' = poolSize p → pool p' = pool p → active_count p' = active_count p.
Proof.
  intros Hlen Hsz Hpool.
  rewrite (active_count_pool p Hlen), (active_count_pool p'); [by rewrite Hpool|].
  by rewrite Hpool, Hsz.
Qed.

(** ** The effect of each operation on one slot and on the counter *)

Lemma Use_effect p pos r p' :
  wf p → Use pos p = Some (r, p') →
  (p' = p ∧ has_value r = false) ∨
  (∃ o, slot_written p p' pos o (set_bInUse true o) ∧ bInUse o = false ∧
        objectsInUse p' = size_incr (objectsInUse p) ∧
        r = value (element_at pos)).
Proof.
  intros Hwf Hr. destruct (decide (pos < poolSize p)) as [Hlt|Hge].
  - destruct (wf_vector_at p pos Hwf Hlt) as [o Ho].
    destruct (bInUse o) eqn:Hb.
    + left. unfold Use in Hr. destruct (N.leb_spec (poolSize p) pos); [lia|].
      rewrite Ho in Hr; simpl in Hr; rewrite Hb in Hr. by injection Hr as <- <-.
    + right. destruct (Use_free_effect p pos o Hwf Hlt Ho Hb)
        as (p'' & Hu & _ & Hsz & Hpool & Hcnt).
      rewrite Hu in Hr. injection Hr as <- <-. by exists o.
  - left. unfold Use in Hr. destruct (N.leb_spec (poolSize p) pos); [|lia].
    by injection Hr as <- <-.
Qed.

Lemma UseNext_effect p found_pos r f p' :
  wf p → UseNext found_pos p = Some (r, f, p') →
  (p' = p ∧ f = found_pos ∧ has_value r = false) ∨
  (∃ o, slot_written p p' f o (set_bInUse true o) ∧ bInUse o = false ∧
        objectsInUse p' = size_incr (objectsInUse p) ∧
        r = value (element_at f)).
Proof.
  intros Hwf Hr.
  destruct (first_free_or_full p (nextIdx p) Hwf (wf_next_range p Hwf))
    as [[pos Hpos]|Hall].
  - right. rewrite (UseNext_first_free _ _ _ Hwf Hpos) in Hr.
    destruct (first_free_vector_at _ _ _ Hwf Hpos) as (o & Ho & Hb).
    pose proof (first_free_lt _ _ _ Hpos) as Hlt.
    destruct (Use_free_effect p pos o Hwf Hlt Ho Hb)
      as (p'' & Hu & _ & Hsz & Hpool & Hcnt).
    rewrite Hu in Hr. injection Hr as <- <- <-. by exists o.
  - left. rewrite (UseNext_all_in_use _ _ Hwf Hall) in Hr.
    by injection Hr as <- <- <-.
Qed.

Lemma Use_reconstructed_effect p pos o (x : T) :
  wf p → pos < poolSize p → vector_at (pool p) pos = Some o →
  ∃ p', Use pos (set_pool (<[N.to_nat pos := {| bInUse := false; object := x |}]>
                             (pool p)) p)
        = Some (value (element_at pos), p') ∧
        slot_written p p' pos o {| bInUse := true; object := x |} ∧
        objectsInUse p' = size_incr (objectsInUse p).
Proof.
  intros Hwf Hlt Ho.
  set (p1 := set_pool _ p).
  assert (Hwf1 : wf p1) by (by apply wf_insert).
  assert (Ho1 : vector_at (pool p1) pos = Some {| bInUse := false; object := x |}).
  { apply vector_at_insert_eq. destruct Hwf. lia. }
  destruct (Use_free_effect p1 pos _ Hwf1 Hlt Ho1 eq_refl)
    as (p' & -> & _ & Hsz & Hpool & Hcnt).
  exists p'. split; [done|]. split; [|done].
  split; [done|]. split; [done|]. split; [done|].
  rewrite Hpool. simpl. by rewrite list_insert_insert_eq.
Qed.

Lemma UseNextReplace_effect p found_pos r f p' :
  wf p → UseNextReplace found_pos p = Some (r, f, p') →
  (p' = p ∧ f = found_pos ∧ has_value r = false) ∨
  (∃ o, slot_written p p' f o {| bInUse := true; object := T_default |} ∧
        bInUse o = false ∧
        objectsInUse p' = size_incr (objectsInUse p) ∧
        r = value (element_at f)).
Proof.
  intros Hwf Hr.
  destruct (first_free_or_full p (nextIdx p) Hwf (wf_next_range p Hwf))
    as [[pos Hpos]|Hall].
  - right. rewrite (UseNextReplace_first_free _ _ _ Hwf Hpos) in Hr.
    destruct (first_free_vector_at _ _ _ Hwf Hpos) as (o & Ho & Hb).
    pose proof (first_free_lt _ _ _ Hpos) as Hlt.
    rewrite (Replace_in_range _ _ _ Hlt Ho) in Hr. simpl in Hr.
    destruct (Use_reconstructed_effect p pos o T_default Hwf Hlt Ho)
      as (p'' & Hu & Hw & Hcnt).
    rewrite Hu in Hr. injection Hr as <- <- <-. by exists o.
  - left. rewrite (UseNextReplace_all_in_use _ _ Hwf Hall) in Hr.
    by injection Hr as <- <- <-.
Qed.

Lemma UseNextReplace_args_effect p found_pos (args : Args) r f p' :
  wf p → UseNextReplace_args found_pos args p = Some (r, f, p') →
  (p' = p ∧ f = found_pos ∧ has_value r = false) ∨
  (∃ o, slot_written p p' f o {| bInUse := true; object := T_construct args |} ∧
        bInUse o = false ∧
        objectsInUse p' = size_incr (objectsInUse p) ∧
        r = value (element_at f)).
Proof.
  intros Hwf Hr.
  destruct (first_free_or_full p (nextIdx p) Hwf (wf_next_range p Hwf))
    as [[pos Hpos]|Hall].
  - right. rewrite (UseNextReplace_args_first_free _ _ args _ Hwf Hpos) in Hr.
    destruct (first_free_vector_at _ _ _ Hwf Hpos) as (o & Ho & Hb).
    pose proof (first_free_lt _ _ _ Hpos) as Hlt.
    rewrite (Replace_args_in_range _ _ args _ Hlt Ho) in Hr. simpl in Hr.
    destruct (Use_reconstructed_effect p pos o (T_construct args) Hwf Hlt Ho)
      as (p'' & Hu & Hw & Hcnt).
    rewrite Hu in Hr. injection Hr as <- <- <-. by exists o.
  - left. rewrite (UseNextReplace_args_all_in_use _ _ args Hwf Hall) in Hr.
    by injection Hr as <- <- <-.
Qed.

Lemma UnUse_effect p pos r p' :
  wf p → UnUse pos p = Some (r, p') →
  (p' = p ∧ has_value r = false) ∨
  (∃ o, slot_written p p' pos o {| bInUse := false; object := T_default |} ∧
        bInUse o = true ∧
        objectsInUse p' = size_decr (objectsInUse p) ∧ r = value ()).
Proof.
  intros Hwf Hr. destruct (decide (pos < poolSize p)) as [Hlt|Hge].
  - destruct (wf_vector_at p pos Hwf Hlt) as [o Ho].
    destruct (bInUse o) eqn:Hb.
    + right. rewrite (UnUse_active _ _ _ Hlt Ho Hb) in Hr.
      injection Hr as <- <-. by exists o.
    + left. unfold UnUse in Hr. destruct (N.leb_spec (poolSize p) pos); [lia|].
      rewrite Ho in Hr; simpl in Hr; rewrite Hb in Hr. by injection Hr as <- <-.
  - left. unfold UnUse in Hr. destruct (N.leb_spec (poolSize p) pos); [|lia].
    by injection Hr as <- <-.
Qed.

Lemma UnUse_args_effect p pos (args : Args) r p' :
  wf p → UnUse_args pos args p = Some (r, p') →
  (p' = p ∧ has_value r = false) ∨
  (∃ o, slot_written p p' pos o {| bInUse := false; object := T_construct args |} ∧
        bInUse o = true ∧
        objectsInUse p' = size_decr (objectsInUse p) ∧ r = value ()).
Proof.
  intros Hwf Hr. destruct (decide (pos < poolSize p)) as [Hlt|Hge].
  - destruct (wf_vector_at p pos Hwf Hlt) as [o Ho].
    destruct (bInUse o) eqn:Hb.
    + right. rewrite (UnUse_args_active _ _ args _ Hlt Ho Hb) in Hr.
      injection Hr as <- <-. by exists o.
    + left. unfold UnUse_args in Hr.
      destruct (N.leb_spec (poolSize p) pos); [lia|].
      rewrite Ho in Hr; simpl in Hr; rewrite Hb in Hr. by injection Hr as <- <-.
  - left. unfold UnUse_args in Hr.
    destruct (N.leb_spec (poolSize p) pos); [|lia]. by injection Hr as <- <-.
Qed.

Lemma Replace_effect p pos r p' :
  wf p → Replace pos p = Some (r, p') →
  (p' = p ∧ has_value r = false) ∨
  (∃ o, slot_written p p' pos o {| bInUse := false; object := T_default |} ∧
        objectsInUse p' = objectsInUse p ∧ r = value ()).
Proof.
  intros Hwf Hr. destruct (decide (pos < poolSize p)) as [Hlt|Hge].
  - right. destruct (wf_vector_at p pos Hwf Hlt) as [o Ho].
    rewrite (Replace_in_range _ _ _ Hlt Ho) in Hr.
    injection Hr as <- <-. by exists o.
  - left. rewrite Replace_out_of_range in Hr by lia. by injection Hr as <- <-.
Qed.

Lemma Replace_args_effect p pos (args : Args) r p' :
  wf p → Replace_args pos args p = Some (r, p') →
  (p' = p ∧ has_value r = false) ∨
  (∃ o, slot_written p p' pos o {| bInUse := false; object := T_construct args |} ∧
        objectsInUse p' = objectsInUse p ∧ r = value ()).
Proof.
  intros Hwf Hr. destruct (decide (pos < poolSize p)) as [Hlt|Hge].
  - right. destruct (wf_vector_at p pos Hwf Hlt) as [o Ho].
    rewrite (Replace_args_in_range _ _ args _ Hlt Ho) in Hr.
    injection Hr as <- <-. by exists o.
  - left. rewrite Replace_args_out_of_range in Hr by lia.
    by injection Hr as <- <-.
Qed.

(** Every operation either leaves the pool as it is, or writes one slot and
    moves the counter in one of three ways: an activation increments it, an
    [UnUse] decrements it, and a [Replace] leaves it alone. *)
Lemma exec_effect (op : Op) found_pos p r f p' :
  wf p → exec op found_pos p = Some (r, f, p') →
  p' = p ∨
  ∃ pos o o', slot_written p p' pos o o' ∧
    ((bInUse o = false ∧ bInUse o' = true ∧ replaced_slot op = None ∧
      objectsInUse p' = size_incr (objectsInUse p)) ∨
     (bInUse o = true ∧ bInUse o' = false ∧ is_UnUse op ∧
      replaced_slot op = None ∧
      objectsInUse p' = size_decr (objectsInUse p)) ∨
     (bInUse o' = false ∧ replaced_slot op = Some pos ∧
      objectsInUse p' = objectsInUse p)).
Proof.
  intros Hwf.
  destruct op as [pos| | |args|pos|pos|pos|pos args|pos|pos args]; simpl.
  - destruct (Use pos p) as [[r1 p1]|] eqn:Hop; [|done]. intros [= <- <- <-].
    destruct (Use_effect _ _ _ _ Hwf Hop) as [[-> _]|(o & Hw & Hb & Hc & _)];
      [by left|right].
    exists pos, o, (set_bInUse true o). split; [done|]. by left.
  - destruct (UseNext found_pos p) as [[[r1 f1] p1]|] eqn:Hop; [|done].
    intros [= <- <- <-].
    destruct (UseNext_effect _ _ _ _ _ Hwf Hop)
      as [(-> & _)|(o & Hw & Hb & Hc & _)]; [by left|right].
    exists f1, o, (set_bInUse true o). split; [done|]. by left.
  - destruct (UseNextReplace found_pos p) as [[[r1 f1] p1]|] eqn:Hop; [|done].
    intros [= <- <- <-].
    destruct (UseNextReplace_effect _ _ _ _ _ Hwf Hop)
      as [(-> & _)|(o & Hw & Hb & Hc & _)]; [by left|right].
    eexists f1, o, _. split; [done|]. by left.
  - destruct (UseNextReplace_args found_pos args p) as [[[r1 f1] p1]|] eqn:Hop;
      [|done]. intros [= <- <- <-].
    destruct (UseNextReplace_args_effect _ _ _ _ _ _ Hwf Hop)
      as [(-> & _)|(o & Hw & Hb & Hc & _)]; [by left|right].
    eexists f1, o, _. split; [done|]. by left.
  - destruct (Get pos p); [|done]. intros [= <- <- <-]. by left.
  - destruct (IsInUse pos p); [|done]. intros [= <- <- <-]. by left.
  - destruct (UnUse pos p) as [[r1 p1]|] eqn:Hop; [|done]. intros [= <- <- <-].
    destruct (UnUse_effect _ _ _ _ Hwf Hop) as [[-> _]|(o & Hw & Hb & Hc & _)];
      [by left|right].
    eexists pos, o, _. split; [done|]. right. by left.
  - destruct (UnUse_args pos args p) as [[r1 p1]|] eqn:Hop; [|done].
    intros [= <- <- <-].
    destruct (UnUse_args_effect _ _ _ _ _ Hwf Hop)
      as [[-> _]|(o & Hw & Hb & Hc & _)]; [by left|right].
    eexists pos, o, _. split; [done|]. right. by left.
  - destruct (Replace pos p) as [[r1 p1]|] eqn:Hop; [|done]. intros [= <- <- <-].
    destruct (Replace_effect _ _ _ _ Hwf Hop) as [[-> _]|(o & Hw & Hc & _)];
      [by left|right].
    eexists pos, o, _. split; [done|]. right. by right.
  - destruct (Replace_args pos args p) as [[r1 p1]|] eqn:Hop; [|done].
    intros [= <- <- <-].
    destruct (Replace_args_effect _ _ _ _ _ Hwf Hop)
      as [[-> _]|(o & Hw & Hc & _)]; [by left|right].
    eexists pos, o, _. split; [done|]. right. by right.
Qed.

(** On a pool whose counter agrees with its flags, an activation by
    [UseNext] adds exactly one to the counter: no wrap-around occurs. *)
Lemma UseNext_count_plus_one p found_pos r f p' :
  wf p → count_ok p → UseNext found_pos p = Some (r, f, p') →
  has_value r = true → ObjectsInUse p' = ObjectsInUse p + 1.
Proof.
  intros Hwf Hok Hu Hr. unfold count_ok, ObjectsInUse in *.
  destruct (UseNext_total p found_pos Hwf) as (r1 & f1 & p1 & Hu1 & Hwf').
  rewrite Hu in Hu1. injection Hu1 as <- <- <-.
  destruct (UseNext_effect _ _ _ _ _ Hwf Hu)
    as [(_ & _ & Hr')|(o & Hw & Hb & -> & _)]; [congruence|].
  pose proof (active_count_written _ _ _ _ _ Hwf Hw) as Hc.
  rewrite Hb in Hc. simpl in Hc.
  pose proof (active_count_le p' Hwf') as Hle.
  destruct Hw as (_ & _ & Hsz & _). rewrite Hsz in Hle.
  pose proof (wf_size p Hwf). rewrite size_incr_small; lia.
Qed.

(** C4: [UseNext] scans all [poolSize] slots circularly from [nextIdx] and
    activates the first free slot it meets: that slot's flag is set, the
    counter is incremented (by exactly one when it agreed with the flags),
    the index is written to [found_pos] and the address of the slot's element
    is returned, the element itself and all other slots being untouched.  It
    returns [FULL], changing nothing, exactly when no slot is free. *)
Theorem UseNext_search_policy p found_pos :
  wf p →
  (∀ pos, first_free_from (nextIdx p) p pos →
     ∃ p', UseNext found_pos p = Some (value (element_at pos), pos, p') ∧
       IsInUse pos p' = Some true ∧
       ObjectsInUse p' = size_incr (ObjectsInUse p) ∧
       (count_ok p → ObjectsInUse p' = ObjectsInUse p + 1) ∧
       Size p' = Size p ∧
       deref p' (element_at pos) = deref p (element_at pos) ∧
       (∀ j, j ≠ pos → vector_at (pool p') j = vector_at (pool p) j)) ∧
  (all_in_use p → UseNext found_pos p = Some (unexpected FULL, found_pos, p)) ∧
  ((∃ pos, first_free_from (nextIdx p) p pos) ∨ all_in_use p) ∧
  (∀ r f p', UseNext found_pos p = Some (r, f, p') →
             r = unexpected FULL ↔ all_in_use p).
Proof.
  intros Hwf.
  split; [|split; [by apply UseNext_all_in_use|split]].
  - intros pos Hpos.
    destruct (UseNext_first_free_effect p found_pos pos Hwf Hpos)
      as (p' & Hu & ? & ? & ? & ? & ?).
    exists p'. repeat (split; [done|]). split; [|done].
    intros Hok. by apply (UseNext_count_plus_one p found_pos _ _ _ Hwf Hok Hu).
  - apply first_free_or_full; [done|by apply wf_next_range].
  - intros r f p' Hr.
    destruct (first_free_or_full p (nextIdx p) Hwf (wf_next_range p Hwf))
      as [[pos Hpos]|Hall].
    + destruct (UseNext_first_free_effect p found_pos pos Hwf Hpos)
        as (p'' & Hu & _).
      rewrite Hu in Hr. injection Hr as <- <- <-.
      split; [done|]. intros Hall.
      destruct (first_free_not_all_in_use _ _ _ Hpos Hall).
    + rewrite (UseNext_all_in_use _ _ Hwf Hall) in Hr.
      by injection Hr as <- <- <-.
Qed.

(** C3: for a valid index, [Replace(pos)] and [Replace(pos, args...)] leave
    the counter as it is, also when the slot was active; the flag count then
    drops by one, so that a counter that agreed with the flags is one too
    high afterwards.  No operation other than [UnUse] decrements the
    counter. *)
Theorem Replace_leaves_counter p pos (args : Args) :
  wf p → pos < poolSize p →
  ∃ p1 p2,
    Replace pos p = Some (value (), p1) ∧
    Replace_args pos args p = Some (value (), p2) ∧
    ObjectsInUse p1 = ObjectsInUse p ∧
    ObjectsInUse p2 = ObjectsInUse p ∧
    (IsInUse pos p = Some true →
       active_count p1 + 1 = active_count p ∧
       active_count p2 + 1 = active_count p ∧
       (count_ok p →
          ObjectsInUse p1 = active_count p1 + 1 ∧ ¬ count_ok p1 ∧
          ObjectsInUse p2 = active_count p2 + 1 ∧ ¬ count_ok p2)) ∧
    (∀ (op : Op) found_pos r f p',
       exec op found_pos p = Some (r, f, p') → ¬ is_UnUse op →
       ObjectsInUse p' = ObjectsInUse p ∨
       ObjectsInUse p' = size_incr (ObjectsInUse p)).
Proof.
  intros Hwf Hlt. destruct (wf_vector_at p pos Hwf Hlt) as [o Ho].
  pose proof (Replace_in_range _ _ _ Hlt Ho) as H1.
  pose proof (Replace_args_in_range _ _ args _ Hlt Ho) as H2.
  eexists _, _. split; [exact H1|]. split; [exact H2|].
  split; [done|]. split; [done|]. split.
  - intros Hact. rewrite (IsInUse_in_range p pos o Hlt Ho) in Hact.
    injection Hact as Hb.
    destruct (Replace_effect _ _ _ _ Hwf H1) as [[_ ?]|(o1 & Hw1 & _)]; [done|].
    destruct (Replace_args_effect _ _ _ _ _ Hwf H2) as [[_ ?]|(o2 & Hw2 & _)];
      [done|].
    pose proof (active_count_written _ _ _ _ _ Hwf Hw1) as Hc1.
    pose proof (active_count_written _ _ _ _ _ Hwf Hw2) as Hc2.
    destruct Hw1 as (_ & Ho1 & _), Hw2 as (_ & Ho2 & _).
    assert (o1 = o) as -> by congruence. assert (o2 = o) as -> by congruence.
    rewrite Hb in Hc1, Hc2. simpl in Hc1, Hc2.
    split; [lia|]. split; [lia|]. unfold count_ok, ObjectsInUse. simpl.
    intros Hok. lia.
  - intros op found_pos r f p' Hop Hnot. unfold ObjectsInUse.
    destruct (exec_effect op found_pos p r f p' Hwf Hop)
      as [->|(pos' & o1 & o' & _ & [(_ & _ & _ & ->)|[(_ & _ & Hun & _)|(_ & _ & ->)]])];
      auto. by destruct Hnot.
Qed.

(** ** The count invariant *)

Lemma filter_replicate_free (n : nat) (x : T) :
  filter (λ o : CObject T, bInUse o = true)
         (replicate n {| bInUse := false; object := x |}) = [].
Proof. induction n as [|n IH]; [done|]. simpl. by rewrite filter_cons_False. Qed.

Lemma count_ok_new (size : N) : count_ok (CObjectPool_new (T:=T) size).
Proof.
  unfold count_ok. rewrite active_count_pool; simpl.
  - by rewrite filter_replicate_free.
  - apply length_replicate.
Qed.

Lemma filter_construct_args_free (n : nat) (args : Args) :
  filter (λ o : CObject T, bInUse o = true) (construct_args n args) = [].
Proof.
  revert args. induction n as [|n IH]; intros args; [done|].
  simpl. by rewrite filter_cons_False.
Qed.

Lemma count_ok_new_args (size : N) (args : Args) :
  count_ok (CObjectPool_new_args (T:=T) size args).
Proof.
  unfold count_ok. rewrite active_count_pool; simpl.
  - by rewrite filter_construct_args_free.
  - apply length_construct_args.
Qed.

(** The counter follows the flags through every operation, except a public
    [Replace] of an active slot. *)
Lemma exec_count_ok (op : Op) found_pos p r f p' :
  wf p → count_ok p → exec op found_pos p = Some (r, f, p') →
  (∀ pos, replaced_slot op = Some pos → IsInUse pos p ≠ Some true) →
  count_ok p'.
Proof.
  intros Hwf Hok Hop Hrep. unfold count_ok, ObjectsInUse in *.
  destruct (exec_total op found_pos p Hwf) as (r1 & f1 & p1 & Hop1 & Hwf').
  rewrite Hop in Hop1. injection Hop1 as <- <- <-.
  pose proof (active_count_le p Hwf) as Hle.
  pose proof (active_count_le p' Hwf') as Hle'.
  pose proof (wf_size p Hwf) as Hsz.
  destruct (exec_effect op found_pos p r f p' Hwf Hop)
    as [->|(pos & o & o' & Hw & Hcase)]; [done|].
  pose proof Hw as (Hlt & Ho & Hsz' & _).
  pose proof (active_count_written _ _ _ _ _ Hwf Hw) as Hcnt.
  rewrite Hsz' in Hle'.
  destruct Hcase as [(Hb & Hb' & _ & ->)|[(Hb & Hb' & _ & _ & ->)|(Hb' & Hr & ->)]];
    rewrite ?Hb, ?Hb' in Hcnt; simpl in Hcnt.
  - rewrite Hok, size_incr_small; lia.
  - rewrite Hok, size_decr_pos; lia.
  - destruct (bInUse o) eqn:Hb.
    + destruct (Hrep pos Hr). by rewrite (IsInUse_in_range p pos o Hlt Ho), Hb.
    + simpl in Hcnt. lia.
Qed.

Lemma exec_Size (op : Op) found_pos p r f p' :
  wf p → exec op found_pos p = Some (r, f, p') → Size p' = Size p.
Proof.
  intros Hwf Hop.
  by destruct (exec_effect op found_pos p r f p' Hwf Hop)
    as [->|(pos & o & o' & (_ & _ & ? & _) & _)].
Qed.

(** Along every sequence of operations in which [Replace] is never applied
    to an active slot, the pool keeps its size and its counter is the number
    of active slots. *)
Lemma run_count_ok (ops : list Op) found_pos p f p' :
  wf p → count_ok p → Replace_only_free ops found_pos p →
  run ops found_pos p = Some (f, p') →
  wf p' ∧ Size p' = Size p ∧ count_ok p' ∧ ObjectsInUse p' ≤ Size p'.
Proof.
  revert found_pos p. induction ops as [|op ops IH]; intros found_pos p Hwf Hok Hops.
  - intros [= <- <-]. split; [done|]. split; [done|]. split; [done|].
    unfold count_ok in Hok. rewrite Hok. by apply active_count_le.
  - simpl. destruct (exec_total op found_pos p Hwf) as (r & f1 & p1 & Hop & Hwf1).
    rewrite Hop. simpl. intros Hrun. destruct Hops as [Hop1 Hops].
    destruct (IH f1 p1 Hwf1) as (? & Hsz & ? & ?); [|by eapply Hops|done|].
    + by apply (exec_count_ok op found_pos p r f1 p1 Hwf Hok Hop).
    + split; [done|]. split; [|done]. rewrite Hsz. by eapply exec_Size.
Qed.

Lemma Replace_only_free_without_Replace (ops : list Op) found_pos p :
  Forall (λ op, replaced_slot op = None) ops → Replace_only_free ops found_pos p.
Proof.
  intros Hops. revert found_pos p.
  induction Hops as [|op ops Hop _ IH]; intros found_pos p; [done|].
  split; [intros pos; by rewrite Hop|]. intros r f p' _. apply IH.
Qed.

(** The count invariant from a fresh pool. *)
Lemma count_invariant_from_new (size : N) (ops : list Op) found_pos :
  size < SIZE_MODULUS →
  Replace_only_free ops found_pos (CObjectPool_new size) →
  ∃ f p', run ops found_pos (CObjectPool_new size) = Some (f, p') ∧
    Size p' = size ∧ ObjectsInUse p' ≤ Size p' ∧
    ObjectsInUse p' = active_count p'.
Proof.
  intros Hsz Hops.
  destruct (run_total ops found_pos _ (wf_new size Hsz)) as (f & p' & Hrun & _).
  destruct (run_count_ok ops found_pos _ f p' (wf_new size Hsz)
              (count_ok_new size) Hops Hrun) as (_ & ? & ? & ?).
  by exists f, p'.
Qed.

(** On a pool whose counter agrees with its flags, the loop visits
    [ObjectsInUse()] elements. *)
Lemma traverse_count p (fuel : nat) :
  wf p → count_ok p → (N.to_nat (poolSize p) < fuel)%nat →
  ∃ l, traverse fuel p = Some l ∧ N.of_nat (length l) = ObjectsInUse p.
Proof.
  intros Hwf Hok Hfuel. exists (active_elements p).
  split; [by apply traverse_spec|]. by rewrite length_active_elements.
Qed.

(** ** Filling a fresh pool with [UseNext] *)

Lemma filled_pool_length (n j : nat) (x : T) : length (filled_pool n j x) = n.
Proof. unfold filled_pool. by rewrite length_fmap, length_seq. Qed.

Lemma filled_pool_lookup (n j i : nat) (x : T) :
  (i < n)%nat →
  filled_pool n j x !! i = Some {| bInUse := bool_decide (i < j)%nat; object := x |}.
Proof.
  intros Hlt. unfold filled_pool.
  by rewrite list_lookup_fmap, lookup_seq_lt.
Qed.

Lemma filled_pool_0 (n : nat) (x : T) :
  filled_pool n 0 x = replicate n {| bInUse := false; object := x |}.
Proof.
  apply list_eq. intros i. destruct (decide (i < n)%nat) as [Hlt|Hge].
  - rewrite filled_pool_lookup, lookup_replicate_2 by done.
    by rewrite bool_decide_eq_false_2 by lia.
  - rewrite !(proj2 (lookup_ge_None _ _)); [done| |].
    + rewrite length_replicate. lia.
    + rewrite filled_pool_length. lia.
Qed.

Lemma filled_pool_insert (n j : nat) (x : T) :
  (j < n)%nat →
  <[j := {| bInUse := true; object := x |}]> (filled_pool n j x)
  = filled_pool n (S j) x.
Proof.
  intros Hlt. apply list_eq. intros i. destruct (decide (i = j)) as [->|Hne].
  - rewrite list_lookup_insert_eq by (by rewrite filled_pool_length).
    rewrite filled_pool_lookup by done. by rewrite bool_decide_eq_true_2 by lia.
  - rewrite list_lookup_insert_ne by done.
    destruct (decide (i < n)%nat) as [Hi|Hi].
    + rewrite !filled_pool_lookup by done. do 2 f_equal.
      apply bool_decide_ext. lia.
    + rewrite !(proj2 (lookup_ge_None _ _)); [done| |];
        rewrite filled_pool_length; lia.
Qed.

Lemma wf_filled_at size next count (j : nat) (x : T) :
  size < SIZE_MODULUS → next < size ∨ (size = 0 ∧ next = 0) →
  count < SIZE_MODULUS → wf (filled_at size next count j x).
Proof. intros. split; simpl; [done|apply filled_pool_length|done|done]. Qed.

Lemma vector_at_filled_at size next count (j : nat) (x : T) i :
  i < size →
  vector_at (pool (filled_at size next count j x)) i
  = Some {| bInUse := bool_decide (N.to_nat i < j)%nat; object := x |}.
Proof. intros Hlt. apply filled_pool_lookup. lia. Qed.

Lemma IsInUse_filled_at size next count (j : nat) (x : T) i :
  i < size →
  IsInUse i (filled_at size next count j x)
  = Some (bool_decide (N.to_nat i < j)%nat).
Proof.
  intros Hlt.
  by rewrite (IsInUse_in_range (filled_at size next count j x) i _ Hlt
                (vector_at_filled_at _ _ _ _ _ _ Hlt)).
Qed.

Lemma new_filled (size : N) : CObjectPool_new size = filled size 0 T_default.
Proof. unfold CObjectPool_new, filled, filled_at. by rewrite filled_pool_0. Qed.

(** The cursor after the [j+1]-th slot of a pool filled in order was taken. *)
Lemma UpdateNextIdx_filled_at size count (j : nat) (x : T) :
  size < SIZE_MODULUS → count < SIZE_MODULUS → (j < N.to_nat size)%nat →
  UpdateNextIdx (filled_at size (N.of_nat j) count (S j) x)
  = Some (filled_at size (N.of_nat (S j `min` (N.to_nat size - 1))) count (S j) x).
Proof.
  intros Hsz Hc Hj.
  assert (Hwf : wf (filled_at size (N.of_nat j) count (S j) x))
    by (apply wf_filled_at; [done|left; lia|done]).
  destruct (decide (S j < N.to_nat size)%nat) as [Hlt|Hge].
  - replace (S j `min` (N.to_nat size - 1))%nat with (S j) by lia.
    rewrite (UpdateNextIdx_first_free _ (N.of_nat (S j)) Hwf).
    + done.
    + exists 1. simpl. split; [lia|].
      replace (N.of_nat j + 1) with (N.pos (Pos.of_succ_nat j)) by lia.
      rewrite N.mod_small by lia. split; [done|]. split.
      * rewrite IsInUse_filled_at by lia. f_equal. apply bool_decide_eq_false_2. lia.
      * intros i Hi. assert (i = 0) as -> by lia. rewrite N.add_0_r.
        rewrite N.mod_small by lia. rewrite IsInUse_filled_at by lia.
        f_equal. apply bool_decide_eq_true_2. lia.
  - replace (S j `min` (N.to_nat size - 1))%nat with j by lia.
    rewrite (UpdateNextIdx_all_in_use _ Hwf).
    + done.
    + intros i Hi. simpl in Hi. rewrite IsInUse_filled_at by done.
      f_equal. apply bool_decide_eq_true_2. lia.
Qed.

Lemma UseNext_filled size (j : nat) (x : T) found_pos :
  size < SIZE_MODULUS → (j < N.to_nat size)%nat →
  UseNext found_pos (filled size j x)
  = Some (value (element_at (N.of_nat j)), N.of_nat j, filled size (S j) x).
Proof.
  intros Hsz Hj.
  assert (Hnext : N.of_nat (j `min` (N.to_nat size - 1)) = N.of_nat j) by lia.
  set (q := filled size (S j) x).
  unfold filled. rewrite Hnext.
  set (p := filled_at size (N.of_nat j) (N.of_nat j) j x).
  assert (Hwf : wf p) by (apply wf_filled_at; [done|left; lia|lia]).
  assert (Ho : vector_at (pool p) (N.of_nat j)
               = Some {| bInUse := false; object := x |}).
  { unfold p. rewrite vector_at_filled_at by lia.
    by rewrite bool_decide_eq_false_2 by lia. }
  rewrite (UseNext_first_free p found_pos (N.of_nat j) Hwf).
  - unfold Use. destruct (N.leb_spec (poolSize p) (N.of_nat j)) as [Hge|_];
      [simpl in Hge; lia|].
    rewrite Ho. simpl. rewrite (vector_update_Some _ _ _ _ Ho). simpl.
    change (set_bInUse true _) with {| bInUse := true; object := x |}.
    rewrite Nat2N.id, filled_pool_insert by done.
    change (set_pool _ p) with (filled_at size (N.of_nat j) (N.of_nat j) (S j) x).
    rewrite UpdateNextIdx_filled_at by (done || lia).
    unfold q, filled, filled_at, set_objectsInUse.
    cbn [mbind option_bind objectsInUse poolSize nextIdx pool].
    rewrite size_incr_small by lia. do 4 f_equal. lia.
  - assert (Hlt : N.of_nat j < poolSize p) by (change (poolSize p) with size; lia).
    exists 0. change (nextIdx p) with (N.of_nat j).
    rewrite N.add_0_r, N.mod_small by done.
    split; [lia|]. split; [done|]. split; [|intros; lia].
    by rewrite (IsInUse_in_range p _ _ Hlt Ho).
Qed.

Lemma UseNext_times_filled size (m j : nat) (x : T) found_pos :
  size < SIZE_MODULUS → (j + m ≤ N.to_nat size)%nat →
  UseNext_times m found_pos (filled size j x)
  = Some ((λ a : nat, (value (element_at (N.of_nat a)), N.of_nat a)) <$> seq j m,
          match m with O => found_pos | S _ => N.of_nat (j + m - 1) end,
          filled size (j + m) x).
Proof.
  intros Hsz. revert j found_pos. induction m as [|m IH]; intros j found_pos Hjm.
  - simpl. by rewrite Nat.add_0_r.
  - simpl. rewrite UseNext_filled by (done || lia). simpl.
    rewrite IH by lia. simpl. do 2 f_equal; [f_equal|].
    + destruct m; f_equal; lia.
    + f_equal. lia.
Qed.

Lemma wf_filled size (j : nat) (x : T) :
  size < SIZE_MODULUS → 0 < size → (j ≤ N.to_nat size)%nat → wf (filled size j x).
Proof. intros Hsz Hpos Hj. apply wf_filled_at; [done|left; lia|lia]. Qed.

Lemma all_in_use_filled size (x : T) :
  all_in_use (filled size (N.to_nat size) x).
Proof.
  intros i Hi. simpl in Hi. unfold filled. rewrite IsInUse_filled_at by done.
  f_equal. apply bool_decide_eq_true_2. lia.
Qed.

(** ** Writes through handles *)

(** A write through a handle changes one element and nothing else. *)
Lemma assign_effect (ptr : pointer) (x : T) p p' :
  wf p → assign ptr x p = Some p' →
  wf p' ∧ poolSize p' = poolSize p ∧ nextIdx p' = nextIdx p ∧
  objectsInUse p' = objectsInUse p ∧ ∀ j, IsInUse j p' = IsInUse j p.
Proof.
  intros Hwf. destruct ptr as [|pos]; [done|]. simpl. unfold vector_update.
  destruct (pool p !! N.to_nat pos) as [o|] eqn:Ho; [|done]. simpl. intros [= <-].
  split; [by apply wf_insert|]. do 3 (split; [done|]).
  intros j. destruct (decide (j = pos)) as [->|Hne].
  - assert (Hlt : pos < poolSize p).
    { apply lookup_lt_Some in Ho. rewrite (wf_length _ Hwf) in Ho. lia. }
    rewrite IsInUse_set_pool_insert by done. simpl. symmetry.
    by apply IsInUse_in_range.
  - by apply (IsInUse_updated_ne p _ pos j (set_object x o)).
Qed.

Lemma assign_all_effect (ws : list (pointer * T)) p p' :
  wf p → assign_all ws p = Some p' →
  wf p' ∧ poolSize p' = poolSize p ∧ nextIdx p' = nextIdx p ∧
  objectsInUse p' = objectsInUse p ∧ ∀ j, IsInUse j p' = IsInUse j p.
Proof.
  revert p. induction ws as [|[ptr x] ws IH]; intros p Hwf.
  - by intros [= <-].
  - simpl. destruct (assign ptr x p) as [p1|] eqn:Hp1; [|done]. simpl. intros Hws.
    destruct (assign_effect ptr x p p1 Hwf Hp1) as (Hwf1 & Hs1 & Hn1 & Hc1 & Hf1).
    destruct (IH p1 Hwf1 Hws) as (? & Hs & Hn & Hc & Hf).
    split; [done|]. rewrite Hs, Hn, Hc. do 3 (split; [done|]).
    intros j. by rewrite Hf.
Qed.

(** A write to a valid slot succeeds and is read back. *)
Lemma assign_in_range p pos (x : T) :
  wf p → pos < poolSize p →
  ∃ p', assign (element_at pos) x p = Some p' ∧
        deref p' (element_at pos) = Some x.
Proof.
  intros Hwf Hlt. destruct (wf_vector_at p pos Hwf Hlt) as [o Ho].
  exists (set_pool (<[N.to_nat pos := set_object x o]> (pool p)) p). split.
  - simpl. by rewrite (vector_update_Some _ _ _ _ Ho).
  - by rewrite deref_set_pool_insert.
Qed.

(** ** Freeing one slot of a full pool *)

(** On a full pool, whatever its elements hold and wherever its cursor is,
    [UnUse(k)] leaves [k] as the only free slot: the next [UseNext] returns
    it, and the element there is the one [UnUse] constructed. *)
Lemma UnUse_then_UseNext_on_full p k found_pos :
  wf p → all_in_use p → k < poolSize p →
  ∃ p_gap p',
    UnUse k p = Some (value (), p_gap) ∧
    UseNext found_pos p_gap = Some (value (element_at k), k, p') ∧
    deref p' (element_at k) = Some T_default.
Proof.
  intros Hwf Hall Hlt.
  destruct (IsInUse_true_inv p k (Hall k Hlt)) as (_ & o & Ho & Hb).
  rewrite (UnUse_active p k o Hlt Ho Hb).
  set (p_gap := {| poolSize := _ |}).
  assert (Hwf' : wf p_gap) by (apply wf_reconstructed; [done|apply size_decr_lt]).
  assert (Hk : IsInUse k p_gap = Some false)
    by (by rewrite (IsInUse_updated p p_gap k _ Hwf Hlt eq_refl eq_refl)).
  assert (Hfree : first_free_from (nextIdx p_gap) p_gap k).
  { destruct (first_free_or_full p_gap (nextIdx p_gap) Hwf' (wf_next_range _ Hwf'))
      as [[i Hi]|Hfull].
    - destruct (decide (i = k)) as [->|Hne]; [done|].
      destruct Hi as (kk & Hkk & Hi & Hfree & _). exfalso.
      assert (Hin : i < poolSize p).
      { rewrite Hi. change (poolSize p_gap) with (poolSize p).
        apply N.mod_upper_bound. lia. }
      rewrite (IsInUse_updated_ne p p_gap k i _ eq_refl eq_refl Hne) in Hfree.
      by rewrite (Hall i Hin) in Hfree.
    - by rewrite (Hfull k Hlt) in Hk. }
  destruct (UseNext_first_free_effect p_gap found_pos k Hwf' Hfree)
    as (p' & Hu & _ & _ & _ & Hd & _).
  exists p_gap, p'. split; [done|]. split; [done|].
  rewrite Hd. by rewrite (deref_updated p p_gap k _ Hwf Hlt eq_refl).
Qed.

(** C5: a fresh pool of capacity [size >= 3] is filled by [size] calls of
    [UseNext], which return the indices [0 .. size - 1] in order; one more
    call returns [FULL].  The caller may then write through the handles: the
    element of slot [k] can be given any value [x], and after any sequence
    [ws] of such writes, [UnUse(k)] for one [k] with [0 < k < size - 1]
    succeeds, the next [UseNext] returns index [k], and the element there is
    default-constructed, whatever was written to it. *)
Theorem gap_filling (size k : N) found_pos :
  3 ≤ size → size < SIZE_MODULUS → 0 < k → k < size - 1 →
  ∃ p_full,
    UseNext_times (N.to_nat size) found_pos (CObjectPool_new size)
    = Some ((λ a : nat, (value (element_at (N.of_nat a)), N.of_nat a))
              <$> seq 0 (N.to_nat size),
            size - 1, p_full) ∧
    UseNext (size - 1) p_full = Some (unexpected FULL, size - 1, p_full) ∧
    (∀ x : T, ∃ p_w, assign_all [(element_at k, x)] p_full = Some p_w ∧
                     deref p_w (element_at k) = Some x) ∧
    ∀ (ws : list (pointer * T)) p_w,
      assign_all ws p_full = Some p_w →
      ∃ p_gap p',
        UnUse k p_w = Some (value (), p_gap) ∧
        UseNext (size - 1) p_gap = Some (value (element_at k), k, p') ∧
        deref p' (element_at k) = Some T_default.
Proof.
  intros H3 Hsz Hk0 Hk. rewrite new_filled.
  exists (filled size (N.to_nat size) T_default).
  assert (Hwf : wf (filled size (N.to_nat size) T_default))
    by (apply wf_filled; lia).
  split; [|split; [|split]].
  - rewrite UseNext_times_filled by (done || lia). do 3 f_equal.
    destruct (N.to_nat size) eqn:Hn; lia.
  - apply UseNext_all_in_use; [done|apply all_in_use_filled].
  - intros x.
    destruct (assign_in_range (filled size (N.to_nat size) T_default) k x Hwf)
      as (p_w & Hw & Hd); [simpl; lia|].
    exists p_w. split; [|done]. cbn [assign_all]. by rewrite Hw.
  - intros ws p_w Hws.
    destruct (assign_all_effect ws _ p_w Hwf Hws) as (Hwf_w & Hs & _ & _ & Hf).
    apply UnUse_then_UseNext_on_full; [done| |rewrite Hs; simpl; lia].
    intros i Hi. rewrite Hf. apply all_in_use_filled. by rewrite <- Hs.
Qed.

End Properties.

(** * The properties on the pools of the test suite *)

Section Scenarios.

Import Tests.

Lemma wf_one_active : wf one_active.
Proof. split; [reflexivity|reflexivity|left; reflexivity|reflexivity]. Qed.

Lemma wf_gap_pool : wf gap_pool.
Proof. split; [reflexivity|reflexivity|left; reflexivity|reflexivity]. Qed.

(** The sample pools are states the public operations reach. *)
Example one_active_reachable :
  ('(_, p) ← run ([OpUse 1] : list ColorOp) 0 (CObjectPool_new 3);
   assign (element_at 1) modified p) = Some one_active.
Proof. reflexivity. Qed.

Example gap_pool_reachable :
  run ([OpUseNext; OpUseNext; OpUseNext; OpUnUse 1] : list ColorOp) 0
      (CObjectPool_new 3) = Some (2, gap_pool).
Proof. reflexivity. Qed.

(** Two default-constructed iterators are equal; they belong to no pool. *)
Example default_iterators_equal :
  iter_eq CIterator_default CIterator_default = true ∧
  SkipUnused gap_pool CIterator_default = None.
Proof. split; reflexivity. Qed.

(** The loop over [gap_pool] visits slots 0 and 2. *)
Example traverse_gap_pool :
  traverse 4 gap_pool
  = Some [(element_at 0, T_default); (element_at 2, T_default)].
Proof. reflexivity. Qed.

Lemma gap_pool_first_free : first_free_from (nextIdx gap_pool) gap_pool 1.
Proof.
  exists 2. split; [reflexivity|]. split; [reflexivity|]. split; [reflexivity|].
  intros j Hj. assert (j = 0 ∨ j = 1) as [->| ->] by lia; reflexivity.
Qed.

(** C1 fails after [Use(0); Replace(0)] on a pool of one slot: the counter
    reads 1 although no index is in use, and a further [Use(0)] raises it to
    2, above [Size()]. *)
Theorem count_invariant_broken_by_Replace :
  ∃ f p f' p',
    run use_replace 0 (CObjectPool_new 1) = Some (f, p) ∧
    ObjectsInUse p = 1 ∧ active_count p = 0 ∧
    IsInUse 0 p = Some false ∧
    run use_replace_use 0 (CObjectPool_new 1) = Some (f', p') ∧
    ObjectsInUse p' = 2 ∧ Size p' = 1 ∧ active_count p' = 1.
Proof. eexists _, _, _, _. repeat split; vm_compute; reflexivity. Qed.

(** C9 fails after [Use(0); Replace(0)] on a pool of one slot: the loop
    visits no element although [ObjectsInUse()] is 1. *)
Theorem traversal_count_broken_by_Replace :
  ∃ f p,
    run use_replace 0 (CObjectPool_new 1) = Some (f, p) ∧
    traverse 2 p = Some [] ∧ active_elements p = [] ∧ ObjectsInUse p = 1.
Proof. eexists _, _. repeat split; vm_compute; reflexivity. Qed.

Lemma Replace_unconditional_witness :
  wf one_active ∧
  ∃ p1 p2,
    Replace 1 one_active = Some (value (), p1) ∧
    IsInUse 1 p1 = Some false ∧
    deref p1 (element_at 1) = Some T_default ∧
    Replace_args 1 (10, 20, 30) one_active = Some (value (), p2) ∧
    IsInUse 1 p2 = Some false ∧
    deref p2 (element_at 1) = Some (T_construct (10, 20, 30)).
Proof.
  split; [exact wf_one_active|].
  destruct (Replace_unconditional one_active 1 (10, 20, 30) wf_one_active)
    as [Hin _].
  destruct Hin as (p1 & p2 & ? & ? & ? & _ & ? & ? & ? & _); [reflexivity|].
  by exists p1, p2.
Defined.

Lemma Replace_leaves_counter_witness :
  wf one_active ∧ 1 < poolSize one_active ∧
  ∃ p1, Replace 1 one_active = Some (value (), p1) ∧
        ObjectsInUse p1 = 1 ∧ active_count p1 + 1 = 1.
Proof.
  split; [exact wf_one_active|]. split; [reflexivity|].
  destruct (Replace_leaves_counter one_active 1 (10, 20, 30) wf_one_active
              eq_refl) as (p1 & p2 & H1 & _ & Hc & _ & Hact & _).
  destruct (Hact eq_refl) as (Ha & _).
  exists p1. split; [exact H1|]. split; [exact Hc|exact Ha].
Defined.

Lemma UseNext_search_policy_witness :
  wf gap_pool ∧ first_free_from (nextIdx gap_pool) gap_pool 1 ∧
  ∃ p', UseNext 7 gap_pool = Some (value (element_at 1), 1, p') ∧
        IsInUse 1 p' = Some true ∧ ObjectsInUse p' = 3.
Proof.
  split; [exact wf_gap_pool|]. split; [exact gap_pool_first_free|].
  destruct (UseNext_search_policy gap_pool 7 wf_gap_pool) as [Hfound _].
  destruct (Hfound 1 gap_pool_first_free) as (p' & Hu & Hact & Hc & _).
  exists p'. split; [exact Hu|]. split; [exact Hact|exact Hc].
Defined.

Lemma gap_filling_witness :
  3 ≤ 3 ∧ 3 < SIZE_MODULUS ∧ 0 < 1 ∧ 1 < 3 - 1 ∧
  ∃ p_full p_w p_gap p',
    UseNext_times 3 0 (CObjectPool_new (T:=CColor) 3)
    = Some ([(value (element_at 0), 0); (value (element_at 1), 1);
             (value (element_at 2), 2)], 2, p_full) ∧
    UseNext 2 p_full = Some (unexpected FULL, 2, p_full) ∧
    assign_all [(element_at 1, modified)] p_full = Some p_w ∧
    deref p_w (element_at 1) = Some modified ∧
    UnUse 1 p_w = Some (value (), p_gap) ∧
    UseNext 2 p_gap = Some (value (element_at 1), 1, p') ∧
    deref p' (element_at 1) = Some T_default.
Proof.
  assert (H3 : 3 ≤ 3) by lia.
  assert (Hsz : 3 < SIZE_MODULUS) by reflexivity.
  assert (Hk0 : 0 < 1) by lia.
  assert (Hk : 1 < 3 - 1) by reflexivity.
  repeat (split; [assumption|]).
  destruct (gap_filling (T:=CColor) 3 1 0 H3 Hsz Hk0 Hk)
    as (p_full & Hfill & Hfull & Hwrite & Hgap).
  destruct (Hwrite modified) as (p_w & Hw & Hdw).
  destruct (Hgap _ p_w Hw) as (p_gap & p' & Hun & Hnext & Hd).
  exists p_full, p_w, p_gap, p'. split; [exact Hfill|].
  split; [exact Hfull|]. split; [exact Hw|]. split; [exact Hdw|].
  split; [exact Hun|]. split; [exact Hnext|exact Hd].
Defined.

Lemma out_of_range_and_error_paths_witness :
  poolSize one_active ≤ 3 ∧
  IsInUse 3 one_active = Some false ∧
  Use 3 one_active = Some (unexpected OUT_OF_RANGE, one_active) ∧
  Get 3 one_active = Some (unexpected OUT_OF_RANGE) ∧
  ∃ f p',
    exec (OpUse 1 : ColorOp) 7 one_active
    = Some (RPointer (unexpected ALREADY_IN_USE), f, p') ∧
    f = 7 ∧ p' = one_active.
Proof.
  assert (Hge : poolSize one_active ≤ 3) by (simpl; lia).
  split; [exact Hge|].
  destruct (out_of_range_and_error_paths one_active 3 7 (10, 20, 30) (OpUse 1))
    as (Hout & _ & _ & Herr).
  destruct (Hout Hge) as (Hi & Hu & Hg & _).
  split; [exact Hi|]. split; [exact Hu|]. split; [exact Hg|].
  exists 7, one_active. split; [reflexivity|].
  exact (Herr (RPointer (unexpected ALREADY_IN_USE)) 7 one_active ALREADY_IN_USE
           eq_refl eq_refl).
Defined.

Lemma UnUse_resets_element_witness :
  wf one_active ∧ IsInUse 1 one_active = Some true ∧
  deref one_active (element_at 1) = Some modified ∧
  ∃ p1 p2,
    UnUse 1 one_active = Some (value (), p1) ∧
    Use 1 p1 = Some (value (element_at 1), p2) ∧
    deref p2 (element_at 1) = Some T_default.
Proof.
  split; [exact wf_one_active|]. split; [reflexivity|]. split; [reflexivity|].
  destruct (UnUse_resets_element one_active 1 (10, 20, 30) wf_one_active eq_refl)
    as [(p1 & p2 & Hun & Hu & _ & Hd) _].
  exists p1, p2. split; [exact Hun|]. split; [exact Hu|exact Hd].
Defined.

Lemma UseNextReplace_is_Replace_then_Use_witness :
  wf gap_pool ∧ first_free_from (nextIdx gap_pool) gap_pool 1 ∧
  ∃ p1 p2,
    Replace_args 1 (99, 99, 99) gap_pool = Some (value (), p1) ∧
    Use 1 p1 = Some (value (element_at 1), p2) ∧
    UseNextReplace_args 7 (99, 99, 99) gap_pool
    = Some (value (element_at 1), 1, p2) ∧
    deref p2 (element_at 1) = Some (T_construct (99, 99, 99)).
Proof.
  split; [exact wf_gap_pool|]. split; [exact gap_pool_first_free|].
  destruct (UseNextReplace_is_Replace_then_Use gap_pool 7 (99, 99, 99)
              wf_gap_pool) as [Hfound _].
  destruct (Hfound 1 gap_pool_first_free)
    as (_ & _ & p1 & p2 & Hr & Hu & Hunr & _ & Hd).
  exists p1, p2. split; [exact Hr|]. split; [exact Hu|].
  split; [exact Hunr|exact Hd].
Defined.

Lemma iterator_equality_witness :
  wf gap_pool ∧
  ∃ first last,
    pool_begin gap_pool = Some first ∧ pool_end gap_pool = Some last ∧
    pObject first = element_at 0 ∧
    iter_eq last first = false ∧ iter_eq first last = false ∧
    iter_eq last last = true.
Proof.
  split; [exact wf_gap_pool|].
  exists {| currentPos := 0; pObject := element_at 0; pPool := this_pool |},
         {| currentPos := 3; pObject := nullptr; pPool := this_pool |}.
  split; [reflexivity|]. split; [reflexivity|]. split; [reflexivity|].
  destruct (iterator_equality gap_pool
              {| currentPos := 0; pObject := element_at 0; pPool := this_pool |}
              {| currentPos := 3; pObject := nullptr; pPool := this_pool |})
    as (_ & _ & _ & Hends & Hne).
  destruct (Hne _ 0 eq_refl eq_refl) as [H1 H2].
  split; [exact H1|]. split; [exact H2|].
  exact (Hends gap_pool _ _ eq_refl eq_refl).
Defined.

End Scenarios.

(** * Further properties of the pool *)

Section Contracts.

Context {T Args : Type} `{!pool_object T} `{!constructible_from Args T}.
Implicit Types (p : CObjectPool T) (o : CObject T) (v : list (CObject T)).
Implicit Types (pos i j k found_pos : N).

Lemma IsInUse_ext p p' j :
  poolSize p' = poolSize p → pool p' = pool p → IsInUse j p' = IsInUse j p.
Proof. intros Hsz Hpool. unfold IsInUse. by rewrite Hsz, Hpool. Qed.

Lemma IsInUse_false_inv p pos :
  wf p → pos < poolSize p → IsInUse pos p = Some false →
  ∃ o, vector_at (pool p) pos = Some o ∧ bInUse o = false.
Proof.
  intros Hwf Hlt Hf. destruct (wf_vector_at p pos Hwf Hlt) as [o Ho].
  exists o. split; [done|].
  rewrite (IsInUse_in_range p pos o Hlt Ho) in Hf. congruence.
Qed.

Lemma run_Size (ops : list Op) found_pos p f p' :
  wf p → run ops found_pos p = Some (f, p') → wf p' ∧ Size p' = Size p.
Proof.
  revert found_pos p. induction ops as [|op ops IH]; intros found_pos p Hwf.
  - by intros [= <- <-].
  - simpl. destruct (exec_total op found_pos p Hwf) as (r & f1 & p1 & Hop & Hwf1).
    rewrite Hop. simpl. intros Hrun.
    destruct (IH f1 p1 Hwf1 Hrun) as [? Hsz]. split; [done|].
    rewrite Hsz. by eapply exec_Size.
Qed.

(** X1: on a well-formed pool every sequence of calls of the checked
    operations [Use], [UseNext], [UseNextReplace], [UseNextReplace(args...)],
    [Get], [IsInUse], [UnUse], [UnUse(args...)], [Replace] and
    [Replace(args...)] runs to its end without an out-of-bounds access to the
    vector, and leaves a well-formed pool (the cursor below [poolSize], the
    vector of length [poolSize]) of the same [Size()].  The unchecked
    [operator[]] is not one of them: it stays in bounds exactly for
    [pos < poolSize]. *)
Theorem operations_stay_in_bounds (ops : list Op) found_pos p :
  wf p →
  (∃ f p', run ops found_pos p = Some (f, p') ∧ wf p' ∧ Size p' = Size p) ∧
  ∀ pos, (pos < poolSize p → subscript pos p = Some (element_at pos)) ∧
         (poolSize p ≤ pos → subscript pos p = None).
Proof.
  intros Hwf. split.
  - destruct (run_total ops found_pos p Hwf) as (f & p' & Hrun & _).
    exists f, p'. split; [done|]. by eapply run_Size.
  - intros pos. unfold subscript. split.
    + intros Hlt. by destruct (wf_vector_at p pos Hwf Hlt) as [o ->].
    + intros Hge. unfold vector_at.
      rewrite (proj2 (lookup_ge_None _ _)); [done|].
      rewrite (wf_length _ Hwf). lia.
Qed.

(** X2: starting from a fresh pool, along every sequence of public
    operations in which [Replace] is never applied to a slot that is active
    at that moment, [ObjectsInUse()] is at most [Size()] and equals the number
    of indices for which [IsInUse] holds. *)
Theorem count_invariant_unless_active_Replace (size : N) (ops : list Op) found_pos :
  size < SIZE_MODULUS →
  Replace_only_free ops found_pos (CObjectPool_new size) →
  ∃ f p', run ops found_pos (CObjectPool_new size) = Some (f, p') ∧
    Size p' = size ∧ ObjectsInUse p' ≤ Size p' ∧
    ObjectsInUse p' = active_count p'.
Proof. apply count_invariant_from_new. Qed.

(** X3: [Use(pos)] returns [OUT_OF_RANGE] exactly when [pos >= poolSize] and
    [ALREADY_IN_USE] exactly when the slot is active, in both cases without
    changing the pool; otherwise it returns the address of the slot's
    element, sets the slot's flag, increments the counter, and leaves the
    element (no reconstruction) and every other slot as they were. *)
Theorem Use_contract p pos :
  wf p →
  (poolSize p ≤ pos → Use pos p = Some (unexpected OUT_OF_RANGE, p)) ∧
  (IsInUse pos p = Some true → Use pos p = Some (unexpected ALREADY_IN_USE, p)) ∧
  (pos < poolSize p → IsInUse pos p = Some false →
     ∃ p', Use pos p = Some (value (element_at pos), p') ∧
       IsInUse pos p' = Some true ∧
       deref p' (element_at pos) = deref p (element_at pos) ∧
       ObjectsInUse p' = size_incr (ObjectsInUse p) ∧
       Size p' = Size p ∧
       (∀ j, j ≠ pos → vector_at (pool p') j = vector_at (pool p) j)) ∧
  (∀ e p', Use pos p = Some (unexpected e, p') →
     (e = OUT_OF_RANGE ∧ poolSize p ≤ pos) ∨
     (e = ALREADY_IN_USE ∧ IsInUse pos p = Some true)).
Proof.
  intros Hwf.
  assert (Hout : poolSize p ≤ pos → Use pos p = Some (unexpected OUT_OF_RANGE, p)).
  { intros Hge. unfold Use. by destruct (N.leb_spec (poolSize p) pos); [|lia]. }
  assert (Hact : IsInUse pos p = Some true →
                 Use pos p = Some (unexpected ALREADY_IN_USE, p)).
  { intros Ha. destruct (IsInUse_true_inv _ _ Ha) as (Hlt & o & Ho & Hb).
    unfold Use. destruct (N.leb_spec (poolSize p) pos); [lia|].
    by rewrite Ho; simpl; rewrite Hb. }
  assert (Hfree : pos < poolSize p → IsInUse pos p = Some false →
     ∃ p', Use pos p = Some (value (element_at pos), p') ∧
       IsInUse pos p' = Some true ∧
       deref p' (element_at pos) = deref p (element_at pos) ∧
       ObjectsInUse p' = size_incr (ObjectsInUse p) ∧
       Size p' = Size p ∧
       (∀ j, j ≠ pos → vector_at (pool p') j = vector_at (pool p) j)).
  { intros Hlt Hf. destruct (IsInUse_false_inv p pos Hwf Hlt Hf) as (o & Ho & Hb).
    destruct (Use_free_effect p pos o Hwf Hlt Ho Hb)
      as (p' & Hu & _ & Hsz & Hpool & Hcnt).
    exists p'. split; [done|].
    split; [by rewrite (IsInUse_updated p p' pos _ Hwf Hlt Hsz Hpool)|].
    split.
    { rewrite (deref_updated p p' pos _ Hwf Hlt Hpool). simpl. by rewrite Ho. }
    split; [done|]. split; [done|].
    intros j Hj. by rewrite Hpool, vector_at_insert_ne. }
  split; [done|]. split; [done|]. split; [done|].
  intros e p' Hu. destruct (decide (pos < poolSize p)) as [Hlt|Hge].
  - destruct (IsInUse_total p pos Hwf) as [[] Hb].
    + rewrite (Hact Hb) in Hu. injection Hu as <- _. by right.
    + destruct (Hfree Hlt Hb) as (p'' & Hu' & _). congruence.
  - rewrite Hout in Hu by lia. injection Hu as <- _. left. split; [done|lia].
Qed.

(** X4: calling [Use] twice on a free index gives success and then
    [ALREADY_IN_USE]; calling [UnUse] twice on an active index gives success
    and then [ALREADY_UNUSED]; the failing second call changes nothing. *)
Theorem repeated_Use_and_UnUse p pos :
  wf p → pos < poolSize p →
  (IsInUse pos p = Some false →
     ∃ p1, Use pos p = Some (value (element_at pos), p1) ∧
           Use pos p1 = Some (unexpected ALREADY_IN_USE, p1)) ∧
  (IsInUse pos p = Some true →
     ∃ p1, UnUse pos p = Some (value (), p1) ∧
           UnUse pos p1 = Some (unexpected ALREADY_UNUSED, p1)).
Proof.
  intros Hwf Hlt. split.
  - intros Hf. destruct (IsInUse_false_inv p pos Hwf Hlt Hf) as (o & Ho & Hb).
    destruct (Use_free_effect p pos o Hwf Hlt Ho Hb)
      as (p1 & Hu & Hwf1 & Hsz & Hpool & _).
    exists p1. split; [done|].
    assert (Ho1 : vector_at (pool p1) pos = Some (set_bInUse true o)).
    { rewrite Hpool. apply vector_at_insert_eq. destruct Hwf. lia. }
    unfold Use. destruct (N.leb_spec (poolSize p1) pos); [lia|].
    by rewrite Ho1.
  - intros Ha. destruct (IsInUse_true_inv _ _ Ha) as (_ & o & Ho & Hb).
    rewrite (UnUse_active _ _ _ Hlt Ho Hb). eexists. split; [done|].
    unfold UnUse. simpl. destruct (N.leb_spec (poolSize p) pos); [lia|].
    rewrite vector_at_insert_eq; [done|]. destruct Hwf. lia.
Qed.

(** X5: [Get(pos)] returns the address of the slot's element exactly when
    [IsInUse(pos)] holds, [OUT_OF_RANGE] exactly when [pos >= poolSize] and
    [NOT_IN_USE] exactly when the index is valid and the slot free.  The
    [const] overload answers the same, and a successful [Get] returns the
    pointer [operator[]] returns, which can be dereferenced. *)
Theorem Get_contract p pos :
  wf p →
  (Get pos p = Some (value (element_at pos)) ↔ IsInUse pos p = Some true) ∧
  (Get pos p = Some (unexpected OUT_OF_RANGE) ↔ poolSize p ≤ pos) ∧
  (Get pos p = Some (unexpected NOT_IN_USE) ↔
     pos < poolSize p ∧ IsInUse pos p = Some false) ∧
  Get_const pos p = Get pos p ∧
  (∀ ptr, Get pos p = Some (value ptr) →
     subscript pos p = Some ptr ∧ ∃ x, deref p ptr = Some x).
Proof.
  intros Hwf. unfold Get, Get_const, IsInUse, subscript.
  destruct (N.leb_spec (poolSize p) pos) as [Hge|Hlt].
  - split; [done|]. split; [done|]. split; [|done].
    split; [done|]. intros [? _]. lia.
  - destruct (wf_vector_at p pos Hwf Hlt) as [o Ho]. rewrite Ho. simpl.
    destruct (bInUse o) eqn:Hb; simpl.
    + split; [done|]. split; [split; [done|lia]|].
      split; [split; [done|by intros [_ ?]]|]. split; [done|].
      intros ptr [= <-]. split; [done|]. simpl. rewrite Ho. by eexists.
    + split; [done|]. split; [split; [done|lia]|]. by split.
Qed.

Lemma IsInUse_mkPool_insert p pos o' next count :
  wf p → pos < poolSize p →
  IsInUse pos {| poolSize := poolSize p; nextIdx := next; objectsInUse := count;
                 pool := <[N.to_nat pos := o']> (pool p) |}
  = Some (bInUse o').
Proof. intros Hwf Hlt. by apply (IsInUse_updated p). Qed.

Lemma deref_mkPool_insert p pos o' next count :
  wf p → pos < poolSize p →
  deref {| poolSize := poolSize p; nextIdx := next; objectsInUse := count;
           pool := <[N.to_nat pos := o']> (pool p) |} (element_at pos)
  = Some (object o').
Proof. intros Hwf Hlt. by apply (deref_updated p). Qed.

Lemma first_free_here p i :
  i < poolSize p → IsInUse i p = Some false → first_free_from i p i.
Proof.
  intros Hlt Hf. exists 0. rewrite N.add_0_r, N.mod_small by done.
  split; [lia|]. split; [done|]. split; [done|]. intros; lia.
Qed.

(** X6: [UnUse(pos)] and [UnUse(pos, args...)] return [OUT_OF_RANGE] for
    [pos >= poolSize] and [ALREADY_UNUSED] for a free slot, changing nothing;
    on an active slot they succeed, clear the flag, decrement the counter,
    leave the cursor and every other slot alone, and keep a counter that
    agreed with the flags in agreement. *)
Theorem UnUse_contract p pos (args : Args) :
  wf p →
  (poolSize p ≤ pos →
     UnUse pos p = Some (unexpected OUT_OF_RANGE, p) ∧
     UnUse_args pos args p = Some (unexpected OUT_OF_RANGE, p)) ∧
  (pos < poolSize p → IsInUse pos p = Some false →
     UnUse pos p = Some (unexpected ALREADY_UNUSED, p) ∧
     UnUse_args pos args p = Some (unexpected ALREADY_UNUSED, p)) ∧
  (IsInUse pos p = Some true →
     ∃ p1 p2,
       UnUse pos p = Some (value (), p1) ∧
       UnUse_args pos args p = Some (value (), p2) ∧
       IsInUse pos p1 = Some false ∧ IsInUse pos p2 = Some false ∧
       ObjectsInUse p1 = size_decr (ObjectsInUse p) ∧
       ObjectsInUse p2 = size_decr (ObjectsInUse p) ∧
       nextIdx p1 = nextIdx p ∧ nextIdx p2 = nextIdx p ∧
       (∀ j, j ≠ pos → vector_at (pool p1) j = vector_at (pool p) j ∧
                       vector_at (pool p2) j = vector_at (pool p) j) ∧
       (count_ok p → count_ok p1 ∧ count_ok p2)).
Proof.
  intros Hwf. split; [|split].
  - intros Hge. unfold UnUse, UnUse_args.
    by destruct (N.leb_spec (poolSize p) pos); [|lia].
  - intros Hlt Hf. destruct (IsInUse_false_inv p pos Hwf Hlt Hf) as (o & Ho & Hb).
    unfold UnUse, UnUse_args. destruct (N.leb_spec (poolSize p) pos); [lia|].
    by rewrite Ho; simpl; rewrite Hb.
  - intros Ha. destruct (IsInUse_true_inv _ _ Ha) as (Hlt & o & Ho & Hb).
    pose proof (UnUse_active _ _ _ Hlt Ho Hb) as H1.
    pose proof (UnUse_args_active _ _ args _ Hlt Ho Hb) as H2.
    destruct (UnUse_effect _ _ _ _ Hwf H1) as [[_ ?]|(o1 & Hw1 & _)]; [done|].
    destruct (UnUse_args_effect _ _ _ _ _ Hwf H2) as [[_ ?]|(o2 & Hw2 & _)];
      [done|].
    pose proof (active_count_written _ _ _ _ _ Hwf Hw1) as Hc1.
    pose proof (active_count_written _ _ _ _ _ Hwf Hw2) as Hc2.
    assert (o1 = o) as -> by (destruct Hw1 as (_ & ? & _); congruence).
    assert (o2 = o) as -> by (destruct Hw2 as (_ & ? & _); congruence).
    rewrite Hb in Hc1, Hc2. simpl in Hc1, Hc2.
    eexists _, _. split; [exact H1|]. split; [exact H2|].
    split; [by rewrite IsInUse_mkPool_insert|].
    split; [by rewrite IsInUse_mkPool_insert|].
    split; [done|]. split; [done|]. split; [done|]. split; [done|].
    split.
    + intros j Hj. simpl. by rewrite !vector_at_insert_ne.
    + unfold count_ok, ObjectsInUse. simpl. intros Hok.
      pose proof (wf_count p Hwf).
      assert (H0 : 0 < objectsInUse p) by lia.
      pose proof (size_decr_pos (objectsInUse p) H0 (wf_count p Hwf)) as Hd.
      split; lia.
Qed.

(** X7: on a free valid index, [Use(pos)] followed by [UnUse(pos)] brings
    the counter and every flag back to what they were and leaves every other
    slot untouched, but the element at [pos] is not what it was before: it is
    default-constructed. *)
Theorem Use_then_UnUse p pos :
  wf p → pos < poolSize p → IsInUse pos p = Some false →
  ∃ p1 p2,
    Use pos p = Some (value (element_at pos), p1) ∧
    UnUse pos p1 = Some (value (), p2) ∧
    ObjectsInUse p2 = ObjectsInUse p ∧
    Size p2 = Size p ∧
    (∀ j, IsInUse j p2 = IsInUse j p) ∧
    deref p2 (element_at pos) = Some T_default ∧
    (∀ j, j ≠ pos → vector_at (pool p2) j = vector_at (pool p) j).
Proof.
  intros Hwf Hlt Hf. destruct (IsInUse_false_inv p pos Hwf Hlt Hf) as (o & Ho & Hb).
  destruct (Use_free_effect p pos o Hwf Hlt Ho Hb)
    as (p1 & Hu & Hwf1 & Hsz & Hpool & Hcnt).
  assert (Hlen : (N.to_nat pos < length (pool p))%nat) by (destruct Hwf; lia).
  assert (Hlt1 : pos < poolSize p1) by lia.
  assert (Ho1 : vector_at (pool p1) pos = Some (set_bInUse true o)).
  { rewrite Hpool. by apply vector_at_insert_eq. }
  pose proof (UnUse_active p1 pos _ Hlt1 Ho1 eq_refl) as Hun.
  eexists p1, _. split; [done|]. split; [exact Hun|].
  assert (Hpool2 : <[N.to_nat pos := {| bInUse := false; object := T_default |}]>
                     (pool p1)
                   = <[N.to_nat pos := {| bInUse := false; object := T_default |}]>
                     (pool p)).
  { by rewrite Hpool, list_insert_insert_eq. }
  split.
  { unfold ObjectsInUse. simpl. rewrite Hcnt. apply size_decr_incr.
    by destruct Hwf. }
  split; [done|]. split.
  { intros j. destruct (decide (j = pos)) as [->|Hne].
    - rewrite Hf. by rewrite IsInUse_mkPool_insert.
    - rewrite (IsInUse_updated_ne p _ pos j
                 {| bInUse := false; object := T_default |}); [done|done| |done].
      simpl. exact Hpool2. }
  split.
  { by rewrite deref_mkPool_insert. }
  intros j Hj. simpl. by rewrite Hpool2, vector_at_insert_ne.
Qed.

(** X8: when a slot is free, [UseNext] is [Use] of the first free slot met
    on the circular scan from the cursor, with that index written to
    [found_pos]: same result, same pool afterwards. *)
Theorem UseNext_is_Use_of_first_free p found_pos pos :
  wf p → first_free_from (nextIdx p) p pos →
  ∃ p', Use pos p = Some (value (element_at pos), p') ∧
        UseNext found_pos p = Some (value (element_at pos), pos, p').
Proof.
  intros Hwf Hpos. rewrite (UseNext_first_free _ _ _ Hwf Hpos).
  destruct (first_free_vector_at _ _ _ Hwf Hpos) as (o & Ho & Hb).
  destruct (Use_free_effect p pos o Hwf (first_free_lt _ _ _ Hpos) Ho Hb)
    as (p' & -> & _).
  by exists p'.
Qed.

Lemma UpdateNextIdx_cursor p p' :
  wf p → UpdateNextIdx p = Some p' →
  wf p' ∧ poolSize p' = poolSize p ∧ pool p' = pool p ∧
  objectsInUse p' = objectsInUse p ∧
  ((all_in_use p ∧ p' = p) ∨
   (first_free_from (nextIdx p) p (nextIdx p') ∧
    nextIdx p' < poolSize p' ∧ IsInUse (nextIdx p') p' = Some false)).
Proof.
  intros Hwf Hu.
  destruct (UpdateNextIdx_spec p Hwf) as [(i & Hi & Hu')|[Hall Hu']];
    rewrite Hu' in Hu; injection Hu as <-.
  - pose proof (first_free_lt _ _ _ Hi) as Hlt.
    split; [apply wf_set_nextIdx; [done|by left]|].
    split; [done|]. split; [done|]. split; [done|]. right.
    split; [done|]. split; [done|]. simpl.
    rewrite (IsInUse_ext p (set_nextIdx i p) i eq_refl eq_refl).
    by destruct Hi as (k & _ & _ & ? & _).
  - split; [done|]. split; [done|]. split; [done|]. split; [done|]. by left.
Qed.

(** X9: [UpdateNextIdx] changes nothing but the cursor.  It moves the cursor
    to the first free slot met on the circular scan from the old cursor, so
    that the cursor then stands on a free slot; it leaves the pool as it is
    when the cursor already stands on a free slot or when no slot is free;
    and running it a second time changes nothing. *)
Theorem UpdateNextIdx_contract p :
  wf p →
  ∃ p', UpdateNextIdx p = Some p' ∧ wf p' ∧
    poolSize p' = poolSize p ∧ pool p' = pool p ∧
    objectsInUse p' = objectsInUse p ∧
    ((all_in_use p ∧ p' = p) ∨
     (first_free_from (nextIdx p) p (nextIdx p') ∧
      IsInUse (nextIdx p') p' = Some false)) ∧
    (IsInUse (nextIdx p) p = Some false → p' = p) ∧
    UpdateNextIdx p' = Some p'.
Proof.
  intros Hwf. destruct (UpdateNextIdx_total p Hwf) as (i & Hu & _).
  destruct (UpdateNextIdx_cursor p _ Hwf Hu) as (Hwf' & Hsz & Hpool & Hcnt & Hcase).
  exists (set_nextIdx i p). split; [done|]. split; [done|].
  split; [done|]. split; [done|]. split; [done|]. split; [|split].
  - destruct Hcase as [?|(? & _ & ?)]; [by left|by right].
  - intros Hf. destruct (wf_next p Hwf) as [Hlt|[Hz _]].
    + pose proof (UpdateNextIdx_first_free p _ Hwf (first_free_here p _ Hlt Hf)) as Hu'.
      rewrite Hu' in Hu. injection Hu as <-. apply set_nextIdx_same.
    + rewrite UpdateNextIdx_all_in_use in Hu; [by injection Hu as <-|done|].
      intros j Hj. lia.
  - destruct Hcase as [[Hall Heq]|(_ & Hlt & Hf)].
    + rewrite Heq. by apply UpdateNextIdx_all_in_use.
    + rewrite (UpdateNextIdx_first_free _ _ Hwf' (first_free_here _ _ Hlt Hf)).
      by rewrite set_nextIdx_same.
Qed.

Lemma Use_cursor p pos ptr p' :
  wf p → Use pos p = Some (value ptr, p') →
  wf p' ∧
  (all_in_use p' ∨
   (nextIdx p' < poolSize p' ∧ IsInUse (nextIdx p') p' = Some false)).
Proof.
  intros Hwf Hu.
  destruct (Use_total p pos Hwf) as (r1 & p1 & Hu1 & Hwf').
  rewrite Hu in Hu1. injection Hu1 as <- <-. split; [done|].
  unfold Use in Hu. destruct (poolSize p <=? pos); [done|].
  destruct (vector_at (pool p) pos) as [o|] eqn:Ho; [|done]. simpl in Hu.
  destruct (bInUse o); [done|].
  rewrite (vector_update_Some _ _ _ _ Ho) in Hu. simpl in Hu.
  destruct (UpdateNextIdx _) as [q'|] eqn:Hq; [|done]. simpl in Hu.
  injection Hu as _ <-.
  destruct (UpdateNextIdx_cursor _ q' (wf_insert p pos _ Hwf) Hq)
    as (_ & Hsz & Hpool & _ & [[Hall ->]|(_ & Hlt & Hf)]).
  - left. intros j Hj. rewrite <- (Hall j Hj). by apply IsInUse_ext.
  - right. split; [done|]. simpl. rewrite <- Hf. by apply IsInUse_ext.
Qed.

(** X10: after a successful [Use], [UseNext] or [UseNextReplace] either no
    slot is free, or the cursor stands on a free slot, and the next [UseNext]
    takes exactly that slot. *)
Theorem cursor_after_activation p pos found_pos (args : Args) ptr p' :
  wf p →
  Use pos p = Some (value ptr, p') ∨
  (∃ f, UseNext found_pos p = Some (value ptr, f, p')) ∨
  (∃ f, UseNextReplace found_pos p = Some (value ptr, f, p')) ∨
  (∃ f, UseNextReplace_args found_pos args p = Some (value ptr, f, p')) →
  all_in_use p' ∨
  (IsInUse (nextIdx p') p' = Some false ∧
   ∀ found_pos', ∃ p'',
     UseNext found_pos' p'
     = Some (value (element_at (nextIdx p')), nextIdx p', p'')).
Proof.
  intros Hwf Hop.
  assert (Hc : wf p' ∧
    (all_in_use p' ∨
     (nextIdx p' < poolSize p' ∧ IsInUse (nextIdx p') p' = Some false))).
  { destruct Hop as [Hu|[[f Hu]|[[f Hu]|[f Hu]]]].
    - by eapply Use_cursor.
    - destruct (first_free_or_full p (nextIdx p) Hwf (wf_next_range p Hwf))
        as [[i Hi]|Hall].
      + rewrite (UseNext_first_free _ _ _ Hwf Hi) in Hu.
        destruct (Use i p) as [[r1 p1]|] eqn:Hu1; [|done].
        injection Hu as -> _ ->. by eapply Use_cursor.
      + by rewrite (UseNext_all_in_use _ _ Hwf Hall) in Hu.
    - destruct (first_free_or_full p (nextIdx p) Hwf (wf_next_range p Hwf))
        as [[i Hi]|Hall].
      + rewrite (UseNextReplace_first_free _ _ _ Hwf Hi) in Hu.
        destruct (first_free_vector_at _ _ _ Hwf Hi) as (o & Ho & _).
        rewrite (Replace_in_range _ _ _ (first_free_lt _ _ _ Hi) Ho) in Hu.
        simpl in Hu. destruct (Use i _) as [[r1 p1]|] eqn:Hu1; [|done].
        injection Hu as -> _ ->.
        eapply Use_cursor; [|exact Hu1]. by apply wf_insert.
      + by rewrite (UseNextReplace_all_in_use _ _ Hwf Hall) in Hu.
    - destruct (first_free_or_full p (nextIdx p) Hwf (wf_next_range p Hwf))
        as [[i Hi]|Hall].
      + rewrite (UseNextReplace_args_first_free _ _ args _ Hwf Hi) in Hu.
        destruct (first_free_vector_at _ _ _ Hwf Hi) as (o & Ho & _).
        rewrite (Replace_args_in_range _ _ args _ (first_free_lt _ _ _ Hi) Ho)
          in Hu.
        simpl in Hu. destruct (Use i _) as [[r1 p1]|] eqn:Hu1; [|done].
        injection Hu as -> _ ->.
        eapply Use_cursor; [|exact Hu1]. by apply wf_insert.
      + by rewrite (UseNextReplace_args_all_in_use _ _ args Hwf Hall) in Hu. }
  destruct Hc as [Hwf' [Hall|[Hlt Hf]]]; [by left|right].
  split; [done|]. intros found_pos'.
  destruct (UseNext_first_free_effect p' found_pos' (nextIdx p') Hwf'
              (first_free_here _ _ Hlt Hf)) as (p'' & Hu & _).
  by exists p''.
Qed.

(** X11: [UseNextReplace] and [UseNextReplace(args...)] never touch a slot
    that is active: every active slot keeps its flag and its element, the
    size is unchanged, and a counter that agreed with the flags still does. *)
Theorem UseNextReplace_spares_active_slots p found_pos (args : Args) r f p' :
  wf p →
  UseNextReplace found_pos p = Some (r, f, p') ∨
  UseNextReplace_args found_pos args p = Some (r, f, p') →
  (∀ j, IsInUse j p = Some true →
        vector_at (pool p') j = vector_at (pool p) j ∧
        IsInUse j p' = Some true) ∧
  Size p' = Size p ∧
  (count_ok p → count_ok p').
Proof.
  intros Hwf Hop.
  assert (Heff : (p' = p ∨
            ∃ o o', slot_written p p' f o o' ∧ bInUse o = false) ∧
          (count_ok p → count_ok p')).
  { destruct Hop as [Hu|Hu].
    - split.
      + destruct (UseNextReplace_effect _ _ _ _ _ Hwf Hu)
          as [(-> & _)|(o & Hw & Hb & _)]; [by left|right]. by eexists o, _.
      + intros Hok.
        apply (exec_count_ok OpUseNextReplace found_pos p (RPointer r) f p' Hwf Hok);
          [|done]. simpl. by rewrite Hu.
    - split.
      + destruct (UseNextReplace_args_effect _ _ _ _ _ _ Hwf Hu)
          as [(-> & _)|(o & Hw & Hb & _)]; [by left|right]. by eexists o, _.
      + intros Hok.
        apply (exec_count_ok (OpUseNextReplace_args args) found_pos p
                 (RPointer r) f p' Hwf Hok); [|done]. simpl. by rewrite Hu. }
  destruct Heff as [[->|(o & o' & (Hlt & Ho & Hsz & Hpool) & Hb)] Hcnt]; [done|].
  split; [|done]. intros j Hj.
  assert (Hne : j ≠ f).
  { intros ->. rewrite (IsInUse_in_range p f o Hlt Ho) in Hj. congruence. }
  split.
  - by rewrite Hpool, vector_at_insert_ne.
  - by rewrite (IsInUse_updated_ne p p' f j o' Hsz Hpool Hne).
Qed.

(** X12: [Replace] is idempotent, and of two [Replace] calls on one slot the
    last one decides the element.  On a free slot it changes nothing but the
    element, so a counter that agreed with the flags still does. *)
Theorem Replace_twice p pos (args : Args) :
  wf p → pos < poolSize p →
  ∃ p1 p2,
    Replace pos p = Some (value (), p1) ∧
    Replace pos p1 = Some (value (), p1) ∧
    Replace_args pos args p = Some (value (), p2) ∧
    Replace_args pos args p2 = Some (value (), p2) ∧
    Replace pos p2 = Some (value (), p1) ∧
    Replace_args pos args p1 = Some (value (), p2) ∧
    (IsInUse pos p = Some false →
       (∀ j, IsInUse j p1 = IsInUse j p ∧ IsInUse j p2 = IsInUse j p) ∧
       (count_ok p → count_ok p1 ∧ count_ok p2)).
Proof.
  intros Hwf Hlt. destruct (wf_vector_at p pos Hwf Hlt) as [o Ho].
  assert (Hlen : (N.to_nat pos < length (pool p))%nat) by (by eapply lookup_lt_Some).
  pose proof (Replace_in_range _ _ _ Hlt Ho) as H1.
  pose proof (Replace_args_in_range _ _ args _ Hlt Ho) as H2.
  eexists _, _. split; [exact H1|].
  assert (Hagain : ∀ x,
    let q := set_pool (<[N.to_nat pos := {| bInUse := false; object := x |}]>
                         (pool p)) p in
    Replace pos q
    = Some (value (),
            set_pool (<[N.to_nat pos := {| bInUse := false; object := T_default |}]>
                        (pool p)) p) ∧
    Replace_args pos args q
    = Some (value (),
            set_pool (<[N.to_nat pos :=
                          {| bInUse := false; object := T_construct args |}]>
                        (pool p)) p)).
  { intros x q.
    assert (Hq : vector_at (pool q) pos = Some {| bInUse := false; object := x |})
      by (by apply vector_at_insert_eq).
    assert (Hltq : pos < poolSize q) by done.
    rewrite (Replace_in_range q pos _ Hltq Hq).
    rewrite (Replace_args_in_range q pos args _ Hltq Hq).
    unfold q, set_pool. simpl. by rewrite !list_insert_insert_eq. }
  split; [apply (Hagain T_default)|].
  split; [exact H2|].
  split; [apply (Hagain (T_construct args))|].
  split; [apply (Hagain (T_construct args))|].
  split; [apply (Hagain T_default)|].
  intros Hf. rewrite (IsInUse_in_range p pos o Hlt Ho) in Hf. injection Hf as Hb.
  split.
  - intros j. destruct (decide (j = pos)) as [->|Hne].
    + rewrite !IsInUse_set_pool_insert by done.
      by rewrite (IsInUse_in_range p pos o Hlt Ho), Hb.
    + split; by eapply IsInUse_updated_ne.
  - unfold count_ok, ObjectsInUse. simpl. intros Hok.
    destruct (Replace_effect _ _ _ _ Hwf H1) as [[_ ?]|(o1 & Hw1 & _)]; [done|].
    destruct (Replace_args_effect _ _ _ _ _ Hwf H2) as [[_ ?]|(o2 & Hw2 & _)];
      [done|].
    pose proof (active_count_written _ _ _ _ _ Hwf Hw1) as Hc1.
    pose proof (active_count_written _ _ _ _ _ Hwf Hw2) as Hc2.
    assert (o1 = o) as -> by (destruct Hw1 as (_ & ? & _); congruence).
    assert (o2 = o) as -> by (destruct Hw2 as (_ & ? & _); congruence).
    rewrite Hb in Hc1, Hc2. simpl in Hc1, Hc2. split; lia.
Qed.

(** X13: writing through the pointer [operator[]] returns (for any valid
    index, active or not) changes that element only: reading it back gives
    the value written, every other element, every flag, the counter and the
    cursor are as before, and the loop over the pool visits the same
    addresses. *)
Theorem write_through_handle p pos (x : T) :
  wf p → pos < poolSize p →
  ∃ p',
    subscript pos p = Some (element_at pos) ∧
    assign (element_at pos) x p = Some p' ∧
    wf p' ∧
    deref p' (element_at pos) = Some x ∧
    (∀ j, j ≠ pos → deref p' (element_at j) = deref p (element_at j)) ∧
    (∀ j, IsInUse j p' = IsInUse j p) ∧
    ObjectsInUse p' = ObjectsInUse p ∧ nextIdx p' = nextIdx p ∧
    active_indices p' = active_indices p.
Proof.
  intros Hwf Hlt. destruct (wf_vector_at p pos Hwf Hlt) as [o Ho].
  exists (set_pool (<[N.to_nat pos := set_object x o]> (pool p)) p).
  split; [unfold subscript; by rewrite Ho|].
  split; [unfold assign; by rewrite (vector_update_Some _ _ _ _ Ho)|].
  split; [by apply wf_insert|].
  split; [by rewrite deref_set_pool_insert|].
  split; [intros j Hj; by eapply deref_updated_ne|].
  assert (Hflags : ∀ j, IsInUse j (set_pool (<[N.to_nat pos := set_object x o]>
                                             (pool p)) p) = IsInUse j p).
  { intros j. destruct (decide (j = pos)) as [->|Hne].
    - rewrite IsInUse_set_pool_insert by done.
      by rewrite (IsInUse_in_range p pos o Hlt Ho).
    - by eapply IsInUse_updated_ne. }
  split; [done|]. split; [done|]. split; [done|].
  unfold active_indices, indices. simpl. apply list_filter_iff.
  intros j. by rewrite Hflags.
Qed.

(** X14: the texts [ToString] gives to two errors are equal only if the
    errors are; no error is reported as "Unknown pool error" or as an empty
    text. *)
Theorem ToString_distinguishes_errors (e1 e2 : EPoolError) :
  (ToString e1 = ToString e2 ↔ e1 = e2) ∧
  ToString e1 ≠ "Unknown pool error"%string ∧
  ToString e1 ≠ ""%string.
Proof.
  split; [|by destruct e1].
  split; [|by intros ->]. by destruct e1, e2.
Qed.

Lemma wf_filled_any size (m : nat) (x : T) :
  size < SIZE_MODULUS → (m ≤ N.to_nat size)%nat → wf (filled size m x).
Proof.
  intros Hsz Hm. apply wf_filled_at; [done| |lia].
  destruct (decide (size = 0)) as [->|]; [right|left]; lia.
Qed.

Lemma deref_filled_at size next count (m : nat) (x : T) i :
  i < size → deref (filled_at size next count m x) (element_at i) = Some x.
Proof.
  intros Hlt. unfold deref. by rewrite vector_at_filled_at.
Qed.

(** A fresh pool has no active slot, whichever constructor built it. *)
Lemma IsInUse_new (size : N) i :
  IsInUse i (CObjectPool_new (T:=T) size) = Some false.
Proof.
  destruct (decide (i < size)) as [Hlt|Hge].
  - rewrite new_filled. unfold filled. rewrite IsInUse_filled_at by done.
    by rewrite bool_decide_eq_false_2 by lia.
  - apply IsInUse_out_of_range. simpl. lia.
Qed.

Lemma vector_at_new_args (size : N) (args : Args) i :
  i < size →
  vector_at (pool (CObjectPool_new_args (T:=T) size args)) i
  = Some {| bInUse := false;
            object := T_construct (Nat.iter (N.to_nat i) T_forwarded args) |}.
Proof. intros Hlt. apply lookup_construct_args. lia. Qed.

Lemma IsInUse_new_args (size : N) (args : Args) i :
  IsInUse i (CObjectPool_new_args (T:=T) size args) = Some false.
Proof.
  destruct (decide (i < size)) as [Hlt|Hge].
  - by rewrite (IsInUse_in_range (CObjectPool_new_args size args) i _ Hlt
                  (vector_at_new_args size args i Hlt)).
  - apply IsInUse_out_of_range. simpl. lia.
Qed.

Lemma taken_in_order_new (size : N) :
  size < SIZE_MODULUS → taken_in_order (CObjectPool_new (T:=T) size) 0.
Proof.
  intros Hsz. split; [by apply wf_new|]. split; [done|]. split; [done|].
  intros i _. rewrite IsInUse_new. by rewrite bool_decide_eq_false_2 by lia.
Qed.

Lemma taken_in_order_new_args (size : N) (args : Args) :
  size < SIZE_MODULUS → taken_in_order (CObjectPool_new_args (T:=T) size args) 0.
Proof.
  intros Hsz. split; [by apply wf_new_args|]. split; [done|]. split; [done|].
  intros i _. rewrite IsInUse_new_args. by rewrite bool_decide_eq_false_2 by lia.
Qed.

(** Writes through handles do not change which slots are taken. *)
Lemma taken_in_order_assign_all (ws : list (pointer * T)) p p' (j : nat) :
  taken_in_order p j → assign_all ws p = Some p' →
  taken_in_order p' j ∧ poolSize p' = poolSize p.
Proof.
  intros (Hwf & Hn & Hc & Hflags) Hws.
  destruct (assign_all_effect ws p p' Hwf Hws) as (Hwf' & Hs & Hn' & Hc' & Hf).
  split; [|done]. split; [done|]. rewrite Hs, Hn', Hc'.
  do 2 (split; [done|]). intros i Hi. rewrite Hf. by apply Hflags.
Qed.

(** [UseNext] on a pool whose first [j] slots are taken takes slot [j], moves
    the cursor on, and leaves every element as it is. *)
Lemma UseNext_taken_in_order p (j : nat) found_pos :
  taken_in_order p j → (j < N.to_nat (poolSize p))%nat →
  ∃ p', UseNext found_pos p
        = Some (value (element_at (N.of_nat j)), N.of_nat j, p') ∧
    taken_in_order p' (S j) ∧ poolSize p' = poolSize p ∧
    ∀ i, deref p' (element_at i) = deref p (element_at i).
Proof.
  intros (Hwf & Hn & Hc & Hflags) Hj.
  assert (Hlt : N.of_nat j < poolSize p) by lia.
  assert (Hnj : nextIdx p = N.of_nat j) by (rewrite Hn; lia).
  assert (Hfree : IsInUse (N.of_nat j) p = Some false).
  { rewrite Hflags by done. f_equal. apply bool_decide_eq_false_2. lia. }
  destruct (IsInUse_false_inv p _ Hwf Hlt Hfree) as (o & Ho & Hb).
  rewrite (UseNext_first_free p found_pos (N.of_nat j) Hwf)
    by (rewrite Hnj; by apply first_free_here).
  unfold Use. destruct (N.leb_spec (poolSize p) (N.of_nat j)) as [?|_]; [lia|].
  rewrite Ho. simpl. rewrite Hb, (vector_update_Some _ _ _ _ Ho). simpl.
  set (q := set_pool (<[N.to_nat (N.of_nat j) := set_bInUse true o]> (pool p)) p).
  assert (Hwfq : wf q) by (by apply wf_insert).
  assert (Hq : ∀ i, i < poolSize p →
            IsInUse i q = Some (bool_decide (N.to_nat i < S j)%nat)).
  { intros i Hi. destruct (decide (i = N.of_nat j)) as [->|Hne].
    - unfold q. rewrite IsInUse_set_pool_insert by done. simpl. f_equal.
      symmetry. apply bool_decide_eq_true_2. lia.
    - rewrite (IsInUse_updated_ne p q (N.of_nat j) i _ eq_refl eq_refl Hne).
      rewrite Hflags by done. f_equal. apply bool_decide_ext. lia. }
  assert (Hup : UpdateNextIdx q
                = Some (set_nextIdx
                          (N.of_nat (S j `min` (N.to_nat (poolSize p) - 1))) q)).
  { destruct (decide (S j < N.to_nat (poolSize p))%nat) as [Hs|Hs].
    - replace (S j `min` (N.to_nat (poolSize p) - 1))%nat with (S j) by lia.
      apply UpdateNextIdx_first_free; [done|].
      exists 1. change (poolSize q) with (poolSize p).
      change (nextIdx q) with (nextIdx p). rewrite Hnj.
      split; [lia|]. replace (N.of_nat j + 1) with (N.of_nat (S j)) by lia.
      rewrite N.mod_small by lia. split; [done|]. split.
      + rewrite Hq by lia. f_equal. apply bool_decide_eq_false_2. lia.
      + intros i Hi. assert (i = 0) as -> by lia.
        rewrite N.add_0_r, N.mod_small by lia. rewrite Hq by lia.
        f_equal. apply bool_decide_eq_true_2. lia.
    - replace (S j `min` (N.to_nat (poolSize p) - 1))%nat with j by lia.
      rewrite UpdateNextIdx_all_in_use; [|done|].
      + unfold q, set_nextIdx, set_pool. simpl. by rewrite Hnj.
      + intros i Hi. change (poolSize q) with (poolSize p) in Hi.
        rewrite Hq by done. f_equal. apply bool_decide_eq_true_2. lia. }
  rewrite Hup. cbn [mbind option_bind].
  set (p' := set_objectsInUse _ _).
  exists p'. split; [done|]. split; [|split; [done|]].
  - split; [|split; [done|split]].
    + apply wf_set_objectsInUse; [|apply size_incr_lt].
      apply wf_set_nextIdx; [done|]. left. change (poolSize q) with (poolSize p). lia.
    + unfold p'. cbn [objectsInUse set_objectsInUse set_nextIdx q set_pool].
      rewrite Hc. rewrite size_incr_small; [lia|].
      pose proof (wf_size _ Hwf). lia.
    + intros i Hi. simpl in Hi. rewrite <- Hq by done. by apply IsInUse_ext.
  - intros i. destruct (decide (i = N.of_nat j)) as [->|Hne].
    + change (deref p' (element_at (N.of_nat j)) = deref p (element_at (N.of_nat j))).
      rewrite (deref_updated p p' (N.of_nat j) (set_bInUse true o) Hwf Hlt eq_refl).
      simpl. by rewrite Ho.
    + by apply (deref_updated_ne p p' (N.of_nat j) i (set_bInUse true o)).
Qed.

Lemma UseNext_times_taken_in_order p (j m : nat) found_pos :
  taken_in_order p j → (j + m ≤ N.to_nat (poolSize p))%nat →
  ∃ f p',
    UseNext_times m found_pos p
    = Some ((λ a : nat, (value (element_at (N.of_nat a)), N.of_nat a))
              <$> seq j m, f, p') ∧
    taken_in_order p' (j + m) ∧ poolSize p' = poolSize p ∧
    ∀ i, deref p' (element_at i) = deref p (element_at i).
Proof.
  revert p j found_pos. induction m as [|m IH]; intros p j found_pos Hp Hjm.
  - exists found_pos, p. rewrite Nat.add_0_r. by split.
  - destruct (UseNext_taken_in_order p j found_pos Hp) as (p1 & Hu & Hp1 & Hs1 & Hd1);
      [lia|].
    destruct (IH p1 (S j) (N.of_nat j) Hp1) as (f & p' & Ht & Hp' & Hs & Hd);
      [rewrite Hs1; lia|].
    exists f, p'. split; [|split; [|split]].
    + simpl. rewrite Hu. simpl. by rewrite Ht.
    + by replace (j + S m)%nat with (S j + m)%nat by lia.
    + by rewrite Hs.
    + intros i. by rewrite Hd.
Qed.

(** X15: take a freshly constructed pool of any capacity, built by either
    constructor, whose elements the caller may then have overwritten through
    handles.  [m <= size] successive [UseNext] calls succeed and return the
    indices [0 .. m-1] in order; afterwards exactly the slots below [m] are
    active, the counter is [m], every element holds what it held before the
    calls ([UseNext] constructs nothing), and when [m = size] every further
    [UseNext] returns [FULL] and changes nothing. *)
Theorem sequential_fill (size : N) (m : nat) (args : Args)
    (ws : list (pointer * T)) p0 found_pos :
  size < SIZE_MODULUS → (m ≤ N.to_nat size)%nat →
  assign_all ws (CObjectPool_new size) = Some p0 ∨
  assign_all ws (CObjectPool_new_args size args) = Some p0 →
  ∃ f p',
    UseNext_times m found_pos p0
    = Some ((λ a : nat, (value (element_at (N.of_nat a)), N.of_nat a))
              <$> seq 0 m, f, p') ∧
    wf p' ∧ Size p' = size ∧ ObjectsInUse p' = N.of_nat m ∧
    (∀ i, i < size → IsInUse i p' = Some (bool_decide (i < N.of_nat m))) ∧
    (∀ i, deref p' (element_at i) = deref p0 (element_at i)) ∧
    (m = N.to_nat size →
       ∀ found_pos', UseNext found_pos' p' = Some (unexpected FULL, found_pos', p')).
Proof.
  intros Hsz Hm Hp0.
  assert (H0 : taken_in_order p0 0 ∧ poolSize p0 = size).
  { destruct Hp0 as [Hp0|Hp0].
    - by apply (taken_in_order_assign_all ws (CObjectPool_new size));
        [apply taken_in_order_new|].
    - by apply (taken_in_order_assign_all ws (CObjectPool_new_args size args));
        [apply taken_in_order_new_args|]. }
  destruct H0 as [H0 Hs0].
  destruct (UseNext_times_taken_in_order p0 0 m found_pos H0)
    as (f & p' & Ht & (Hwf & _ & Hc & Hflags) & Hs & Hd); [lia|].
  simpl in Hc, Hflags. rewrite Hs, Hs0 in Hflags.
  exists f, p'. split; [done|]. split; [done|].
  split; [unfold Size; congruence|]. split; [done|]. split; [|split; [done|]].
  - intros i Hi. rewrite Hflags by done. f_equal. apply bool_decide_ext. lia.
  - intros -> found_pos'. apply UseNext_all_in_use; [done|].
    intros i Hi. rewrite Hs, Hs0 in Hi. rewrite Hflags by done.
    f_equal. apply bool_decide_eq_true_2. lia.
Qed.

(** X16: the search starts at the cursor, not at slot 0.  After [j < size]
    [UseNext] calls on a fresh pool and [UnUse(k)] of an earlier slot
    [k < j], the next [UseNext] returns the untouched slot [j] and leaves
    the freed slot [k] free. *)
Theorem freed_slot_behind_cursor (size k : N) (j : nat) found_pos :
  size < SIZE_MODULUS → (j < N.to_nat size)%nat → k < N.of_nat j →
  ∃ f p_j p_gap p',
    UseNext_times j found_pos (CObjectPool_new size)
    = Some ((λ a : nat, (value (element_at (N.of_nat a)), N.of_nat a))
              <$> seq 0 j, f, p_j) ∧
    UnUse k p_j = Some (value (), p_gap) ∧
    IsInUse k p_gap = Some false ∧
    UseNext f p_gap = Some (value (element_at (N.of_nat j)), N.of_nat j, p') ∧
    IsInUse k p' = Some false.
Proof.
  intros Hsz Hj Hk. rewrite new_filled, UseNext_times_filled by (done || lia).
  simpl (0 + j)%nat. set (p_j := filled size j T_default).
  assert (Hwf : wf p_j) by (apply wf_filled_any; [done|lia]).
  assert (Hlt : k < poolSize p_j) by (change (poolSize p_j) with size; lia).
  assert (Ho : vector_at (pool p_j) k = Some {| bInUse := true; object := T_default |}).
  { unfold p_j, filled. rewrite vector_at_filled_at by lia.
    by rewrite bool_decide_eq_true_2 by lia. }
  pose proof (UnUse_active _ _ _ Hlt Ho eq_refl) as Hun.
  set (p_gap := {| poolSize := _ |}) in Hun.
  assert (Hwf' : wf p_gap) by (apply wf_reconstructed; [done|apply size_decr_lt]).
  assert (Hgap : IsInUse k p_gap = Some false)
    by (unfold p_gap; by rewrite IsInUse_mkPool_insert).
  assert (Hnext : nextIdx p_gap = N.of_nat j).
  { change (nextIdx p_gap) with (N.of_nat (j `min` (N.to_nat size - 1))). lia. }
  assert (Hjlt : N.of_nat j < poolSize p_gap)
    by (change (poolSize p_gap) with size; lia).
  assert (Hfree : IsInUse (N.of_nat j) p_gap = Some false).
  { rewrite (IsInUse_updated_ne p_j p_gap k (N.of_nat j) _ eq_refl eq_refl)
      by lia.
    unfold p_j, filled. rewrite IsInUse_filled_at by lia.
    f_equal. apply bool_decide_eq_false_2. lia. }
  pose proof (first_free_here _ _ Hjlt Hfree) as Hff. rewrite <- Hnext in Hff at 1.
  destruct (UseNext_first_free_effect p_gap
              (match j with O => found_pos | S _ => N.of_nat (j - 1) end)
              (N.of_nat j) Hwf' Hff)
    as (p' & Hu & _ & _ & Hsz' & _ & Hframe).
  exists (match j with O => found_pos | S _ => N.of_nat (j - 1) end), p_j, p_gap, p'.
  split; [by destruct j|]. split; [done|]. split; [done|]. split; [done|].
  unfold IsInUse in *. unfold Size in Hsz'. rewrite Hsz', Hframe by lia. done.
Qed.

(** X17: the range-based loop over a well-formed pool terminates after at
    most [poolSize + 1] tests of [it != end()] and visits exactly the
    elements at the indices for which [IsInUse] holds, each once, in strictly
    increasing index order, each with the value stored at its index. *)
Theorem traversal_visits_active_slots p (fuel : nat) :
  wf p → (N.to_nat (poolSize p) < fuel)%nat →
  traverse fuel p = Some (active_elements p) ∧
  Forall2 (λ i e, e.1 = element_at i ∧ deref p (element_at i) = Some e.2)
          (active_indices p) (active_elements p) ∧
  StronglySorted N.lt (active_indices p) ∧
  (∀ i, i ∈ active_indices p ↔ IsInUse i p = Some true) ∧
  N.of_nat (length (active_elements p)) = active_count p.
Proof.
  intros Hwf Hfuel. split; [by apply traverse_spec|].
  split; [apply active_elements_indices|].
  split; [apply active_indices_sorted|].
  split; [apply elem_of_active_indices|apply length_active_elements].
Qed.

(** X18: [begin() == end()] exactly when no slot is active; and when the
    last slot is the only active one, [begin()] references its element and a
    single increment reaches [end()]. *)
Theorem begin_equals_end_iff_empty p :
  wf p →
  ∃ first last,
    pool_begin p = Some first ∧ pool_end p = Some last ∧
    (iter_eq first last = true ↔ ∀ i, IsInUse i p ≠ Some true) ∧
    (IsInUse (poolSize p - 1) p = Some true →
     (∀ i, i ≠ poolSize p - 1 → IsInUse i p ≠ Some true) →
     pObject first = element_at (poolSize p - 1) ∧
     ∃ next, iter_incr p first = Some next ∧ iter_eq next last = true).
Proof.
  intros Hwf.
  destruct (SkipUnused_spec p
              {| currentPos := 0; pObject := nullptr; pPool := this_pool |}
              Hwf eq_refl) as (it & Hb & Hv & _ & Hskip & _).
  exists it, {| currentPos := Size p; pObject := nullptr; pPool := this_pool |}.
  split; [exact Hb|]. split; [apply pool_end_eq|]. split.
  - rewrite iter_eq_spec. simpl. destruct Hv as [_ [[Hact Hobj]|[Hend Hobj]]].
    + rewrite Hobj. split; [done|]. intros Hnone. by destruct (Hnone _ Hact).
    + split; [|done]. intros _ i Hi.
      destruct (IsInUse_true_inv _ _ Hi) as [Hlt _].
      rewrite Hskip in Hi; [done|simpl; lia|lia].
  - intros Hlast Hothers.
    destruct (last_slot_only p Hwf Hlast Hothers)
      as (first & x & next & last & Hb' & Hobj & _ & _ & Hinc & He & Heq).
    unfold pool_begin, CIterator_new in Hb'. simpl in Hb'.
    rewrite Hb in Hb'. injection Hb' as <-.
    rewrite pool_end_eq in He. injection He as <-.
    split; [done|]. by exists next.
Qed.

(** X19: incrementing a valid iterator gives a valid iterator.  From an
    active slot it moves to the next active slot, passing inactive slots
    only, or to the end position; post-increment returns the old iterator
    next to the same result; an iterator that references nothing and whose
    position is below [SIZE_MAX] still references nothing after an increment
    and equals the one it came from; at position [SIZE_MAX] the increment
    wraps to slot 0 and gives [begin()]. *)
Theorem increment_moves_to_next_active p (it : CIterator) :
  wf p → valid_iter p it →
  ∃ it',
    iter_incr p it = Some it' ∧
    iter_post_incr p it = Some (it, it') ∧
    valid_iter p it' ∧
    (IsInUse (currentPos it) p = Some true →
       currentPos it < currentPos it' ∧ currentPos it' ≤ poolSize p ∧
       ∀ j, currentPos it < j → j < currentPos it' → IsInUse j p = Some false) ∧
    (pObject it = nullptr → currentPos it + 1 < SIZE_MODULUS →
       pObject it' = nullptr ∧ iter_eq it' it = true) ∧
    (currentPos it + 1 = SIZE_MODULUS → pool_begin p = Some it').
Proof.
  intros Hwf [Hp Hv].
  destruct (SkipUnused_spec p
              {| currentPos := size_incr (currentPos it);
                 pObject := pObject it; pPool := pPool it |}
              Hwf Hp) as (it' & Hs & Hv' & Hle & Hskip & Hend).
  simpl in Hle, Hskip, Hend.
  exists it'. split; [exact Hs|]. split.
  { unfold iter_post_incr, iter_incr. by rewrite Hs. }
  split; [done|]. split; [|split].
  - intros Hact. destruct (IsInUse_true_inv _ _ Hact) as [Hlt _].
    assert (Hinc : size_incr (currentPos it) = currentPos it + 1).
    { apply size_incr_small. destruct Hwf. lia. }
    rewrite Hinc in Hle, Hskip, Hend.
    split; [lia|]. split; [apply Hend; lia|].
    intros j Hj1 Hj2. apply Hskip; lia.
  - intros Hnull Hc. destruct Hv as [[_ Hobj]|[Hge _]]; [congruence|].
    rewrite size_incr_small in Hle by done.
    assert (Hnull' : pObject it' = nullptr).
    { destruct Hv' as [_ [[Hact' _]|[_ ?]]]; [|done].
      destruct (IsInUse_true_inv _ _ Hact'). lia. }
    split; [done|]. apply iter_eq_spec. congruence.
  - intros Hmax. rewrite <- Hs. unfold pool_begin, CIterator_new, B_BEGIN.
    unfold SkipUnused. simpl. rewrite Hp. unfold size_incr. rewrite Hmax.
    by rewrite N.Div0.mod_same.
Qed.

(** X20: a freshly constructed pool is well formed, has the requested size,
    a counter of zero and no active slot.  The default constructor leaves
    [T()] in every slot.  The constructor with arguments builds the slots one
    after the other from the forwarded arguments: slot [i] is constructed
    from the arguments as the [i] constructor calls before it left them, so
    slot 0 holds [T(args...)], and every slot does when a constructor call
    leaves the arguments unchanged.  The loop over a fresh pool visits
    nothing; the first [UseNext] returns slot 0, and [FULL] when the capacity
    is zero. *)
Theorem fresh_pool (size : N) (args : Args) found_pos :
  size < SIZE_MODULUS →
  wf (CObjectPool_new (T:=T) size) ∧ wf (CObjectPool_new_args (T:=T) size args) ∧
  Size (CObjectPool_new (T:=T) size) = size ∧
  Size (CObjectPool_new_args (T:=T) size args) = size ∧
  ObjectsInUse (CObjectPool_new (T:=T) size) = 0 ∧
  ObjectsInUse (CObjectPool_new_args (T:=T) size args) = 0 ∧
  (∀ i, IsInUse i (CObjectPool_new (T:=T) size) = Some false ∧
        IsInUse i (CObjectPool_new_args (T:=T) size args) = Some false) ∧
  (∀ i, i < size →
     deref (CObjectPool_new size) (element_at i) = Some T_default ∧
     deref (CObjectPool_new_args size args) (element_at i)
     = Some (T_construct (Nat.iter (N.to_nat i) T_forwarded args))) ∧
  (T_forwarded args = args →
     ∀ i, i < size →
       deref (CObjectPool_new_args size args) (element_at i)
       = Some (T_construct args)) ∧
  (∀ fuel : nat, (N.to_nat size < fuel)%nat →
     traverse fuel (CObjectPool_new (T:=T) size) = Some [] ∧
     traverse fuel (CObjectPool_new_args (T:=T) size args) = Some []) ∧
  (0 < size →
     ∃ p', UseNext found_pos (CObjectPool_new (T:=T) size)
           = Some (value (element_at 0), 0, p')) ∧
  (size = 0 →
     UseNext found_pos (CObjectPool_new (T:=T) size)
     = Some (unexpected FULL, found_pos, CObjectPool_new size)).
Proof.
  intros Hsz.
  pose proof (wf_new size Hsz) as Hwf. pose proof (wf_new_args size args Hsz) as Hwf'.
  assert (Hflags : ∀ i, IsInUse i (CObjectPool_new (T:=T) size) = Some false ∧
        IsInUse i (CObjectPool_new_args (T:=T) size args) = Some false).
  { intros i. split; [apply IsInUse_new|apply IsInUse_new_args]. }
  assert (Hempty : ∀ q : CObjectPool T,
            (∀ i, IsInUse i q = Some false) → active_elements q = []).
  { intros q Hq. unfold active_elements.
    destruct (active_indices q) as [|i l] eqn:Hl; [done|].
    assert (Hi : i ∈ active_indices q) by (rewrite Hl; left).
    apply elem_of_active_indices in Hi. rewrite Hq in Hi. done. }
  assert (Helt : ∀ i, i < size →
            deref (CObjectPool_new_args size args) (element_at i)
            = Some (T_construct (Nat.iter (N.to_nat i) T_forwarded args))).
  { intros i Hi. unfold deref. by rewrite vector_at_new_args. }
  split; [done|]. split; [done|]. split; [done|]. split; [done|].
  split; [done|]. split; [done|]. split; [done|]. split.
  { intros i Hi. split; [|by apply Helt].
    rewrite new_filled. unfold filled. by rewrite deref_filled_at. }
  split.
  { intros Hsame i Hi. rewrite Helt by done. do 2 f_equal.
    induction (N.to_nat i) as [|n IHn]; [done|]. simpl. by rewrite IHn. }
  split.
  { intros fuel Hfuel. rewrite !traverse_spec by done.
    rewrite !Hempty; [done| |]; intros i; apply Hflags. }
  split.
  - intros Hpos.
    destruct (UseNext_first_free_effect (CObjectPool_new size) found_pos 0 Hwf)
      as (p' & Hu & _); [|by exists p'].
    apply first_free_here; [done|]. apply Hflags.
  - intros ->. done.
Qed.

End Contracts.

(** * The further properties on the pools of the test suite *)

Section ContractScenarios.

Import Tests.

Lemma mixed_ops_Replace_only_free :
  Replace_only_free mixed_ops 0 (CObjectPool_new 2).
Proof.
  split; [intros pos [=]|]. intros r1 f1 p1 H1.
  vm_compute in H1. injection H1 as <- <- <-.
  split; [by intros pos [= <-]|]. intros r2 f2 p2 H2.
  vm_compute in H2. injection H2 as <- <- <-.
  split; [intros pos [=]|]. intros r3 f3 p3 H3.
  vm_compute in H3. injection H3 as <- <- <-.
  split; [intros pos [=]|]. intros r4 f4 p4 H4.
  vm_compute in H4. injection H4 as <- <- <-.
  split; [intros pos [=]|]. intros r5 f5 p5 H5. exact I.
Qed.

Lemma operations_stay_in_bounds_witness :
  wf one_active ∧
  (∃ f p', run mixed_ops 0 one_active = Some (f, p') ∧ wf p' ∧ Size p' = 3) ∧
  subscript 2 one_active = Some (element_at 2) ∧
  subscript 3 one_active = None.
Proof.
  split; [exact wf_one_active|].
  destruct (operations_stay_in_bounds mixed_ops 0 one_active wf_one_active)
    as [(f & p' & Hrun & Hwf & Hsz) Hsub].
  split; [exists f, p'; split; [exact Hrun|]; split; [exact Hwf|exact Hsz]|].
  split; [apply (Hsub 2)|apply (Hsub 3)]; reflexivity.
Defined.

Lemma count_invariant_unless_active_Replace_witness :
  2 < SIZE_MODULUS ∧
  Replace_only_free mixed_ops 0 (CObjectPool_new 2) ∧
  ∃ f p', run mixed_ops 0 (CObjectPool_new 2) = Some (f, p') ∧
          ObjectsInUse p' ≤ Size p' ∧ ObjectsInUse p' = active_count p'.
Proof.
  assert (Hsz : 2 < SIZE_MODULUS) by reflexivity.
  split; [exact Hsz|]. split; [exact mixed_ops_Replace_only_free|].
  destruct (count_invariant_unless_active_Replace 2 mixed_ops 0 Hsz
              mixed_ops_Replace_only_free) as (f & p' & Hrun & _ & Hle & Hcnt).
  exists f, p'. split; [exact Hrun|]. split; [exact Hle|exact Hcnt].
Defined.

Lemma Use_contract_witness :
  wf one_active ∧
  Use 1 one_active = Some (unexpected ALREADY_IN_USE, one_active) ∧
  Use 3 one_active = Some (unexpected OUT_OF_RANGE, one_active) ∧
  ∃ p', Use 0 one_active = Some (value (element_at 0), p') ∧
        IsInUse 0 p' = Some true.
Proof.
  split; [exact wf_one_active|].
  destruct (Use_contract one_active 1 wf_one_active) as (_ & Hact & _).
  destruct (Use_contract one_active 3 wf_one_active) as (Hout & _).
  destruct (Use_contract one_active 0 wf_one_active) as (_ & _ & Hfree & _).
  split; [exact (Hact eq_refl)|]. split; [apply Hout; simpl; lia|].
  destruct (Hfree eq_refl eq_refl) as (p' & Hu & Hin & _).
  exists p'. split; [exact Hu|exact Hin].
Defined.

Lemma repeated_Use_and_UnUse_witness :
  wf one_active ∧ 1 < poolSize one_active ∧ IsInUse 1 one_active = Some true ∧
  ∃ p1, UnUse 1 one_active = Some (value (), p1) ∧
        UnUse 1 p1 = Some (unexpected ALREADY_UNUSED, p1).
Proof.
  split; [exact wf_one_active|]. split; [reflexivity|]. split; [reflexivity|].
  destruct (repeated_Use_and_UnUse one_active 1 wf_one_active eq_refl)
    as [_ Hun].
  exact (Hun eq_refl).
Defined.

Lemma Get_contract_witness :
  wf one_active ∧
  Get 1 one_active = Some (value (element_at 1)) ∧
  Get 0 one_active = Some (unexpected NOT_IN_USE) ∧
  Get 3 one_active = Some (unexpected OUT_OF_RANGE).
Proof.
  split; [exact wf_one_active|].
  destruct (Get_contract one_active 1 wf_one_active) as (Hval & _).
  destruct (Get_contract one_active 0 wf_one_active) as (_ & _ & Hnot & _).
  destruct (Get_contract one_active 3 wf_one_active) as (_ & Hout & _).
  split; [apply Hval; reflexivity|].
  split; [apply Hnot; split; reflexivity|].
  apply Hout. simpl. lia.
Defined.

Lemma UnUse_contract_witness :
  wf one_active ∧ IsInUse 1 one_active = Some true ∧
  ∃ p1, UnUse 1 one_active = Some (value (), p1) ∧
        IsInUse 1 p1 = Some false ∧ ObjectsInUse p1 = 0 ∧ nextIdx p1 = 0.
Proof.
  split; [exact wf_one_active|]. split; [reflexivity|].
  destruct (UnUse_contract one_active 1 (1, 2, 3) wf_one_active) as (_ & _ & Hact).
  destruct (Hact eq_refl) as (p1 & p2 & Hu & _ & Hf & _ & Hc & _ & Hn & _).
  exists p1. split; [exact Hu|]. split; [exact Hf|]. split; [exact Hc|exact Hn].
Defined.

Lemma Use_then_UnUse_witness :
  wf one_active ∧ 0 < poolSize one_active ∧ IsInUse 0 one_active = Some false ∧
  ∃ p1 p2,
    Use 0 one_active = Some (value (element_at 0), p1) ∧
    UnUse 0 p1 = Some (value (), p2) ∧
    ObjectsInUse p2 = 1 ∧ deref p2 (element_at 0) = Some T_default.
Proof.
  split; [exact wf_one_active|]. split; [reflexivity|]. split; [reflexivity|].
  destruct (Use_then_UnUse one_active 0 wf_one_active eq_refl eq_refl)
    as (p1 & p2 & Hu & Hun & Hc & _ & _ & Hd & _).
  exists p1, p2. split; [exact Hu|]. split; [exact Hun|].
  split; [exact Hc|exact Hd].
Defined.

Lemma UseNext_is_Use_of_first_free_witness :
  wf gap_pool ∧ first_free_from (nextIdx gap_pool) gap_pool 1 ∧
  ∃ p', Use 1 gap_pool = Some (value (element_at 1), p') ∧
        UseNext 7 gap_pool = Some (value (element_at 1), 1, p').
Proof.
  split; [exact wf_gap_pool|]. split; [exact gap_pool_first_free|].
  exact (UseNext_is_Use_of_first_free gap_pool 7 1 wf_gap_pool
           gap_pool_first_free).
Defined.

Lemma UpdateNextIdx_contract_witness :
  wf gap_pool ∧
  ∃ p', UpdateNextIdx gap_pool = Some p' ∧ nextIdx p' = 1 ∧
        UpdateNextIdx p' = Some p'.
Proof.
  split; [exact wf_gap_pool|].
  destruct (UpdateNextIdx_contract gap_pool wf_gap_pool)
    as (p' & Hu & _ & _ & _ & _ & _ & _ & Hagain).
  exists p'. split; [exact Hu|]. split; [|exact Hagain].
  vm_compute in Hu. injection Hu as <-. reflexivity.
Defined.

Lemma cursor_after_activation_witness :
  wf one_active ∧
  ∃ p', Use 0 one_active = Some (value (element_at 0), p') ∧
        IsInUse (nextIdx p') p' = Some false.
Proof.
  split; [exact wf_one_active|].
  eexists. split; [reflexivity|].
  destruct (cursor_after_activation one_active 0 0 (1, 2, 3) (element_at 0) _
              wf_one_active (or_introl eq_refl)) as [Hall|[Hf _]].
  - specialize (Hall 2 eq_refl). discriminate Hall.
  - exact Hf.
Defined.

Lemma UseNextReplace_spares_active_slots_witness :
  wf gap_pool ∧
  ∃ r f p',
    UseNextReplace 7 gap_pool = Some (r, f, p') ∧
    vector_at (pool p') 0 = vector_at (pool gap_pool) 0 ∧
    IsInUse 0 p' = Some true.
Proof.
  split; [exact wf_gap_pool|].
  eexists _, _, _. split; [reflexivity|].
  destruct (UseNextReplace_spares_active_slots gap_pool 7 (1, 2, 3) _ _ _
              wf_gap_pool (or_introl eq_refl)) as (Hframe & _).
  exact (Hframe 0 eq_refl).
Defined.

Lemma Replace_twice_witness :
  wf one_active ∧ 1 < poolSize one_active ∧
  ∃ p1, Replace 1 one_active = Some (value (), p1) ∧
        Replace 1 p1 = Some (value (), p1).
Proof.
  split; [exact wf_one_active|]. split; [reflexivity|].
  destruct (Replace_twice one_active 1 (1, 2, 3) wf_one_active eq_refl)
    as (p1 & p2 & H1 & H2 & _).
  exists p1. split; [exact H1|exact H2].
Defined.

Lemma write_through_handle_witness :
  wf one_active ∧ 0 < poolSize one_active ∧
  ∃ p', assign (element_at 0) modified one_active = Some p' ∧
        deref p' (element_at 0) = Some modified ∧
        active_indices p' = active_indices one_active.
Proof.
  split; [exact wf_one_active|]. split; [reflexivity|].
  destruct (write_through_handle one_active 0 modified wf_one_active eq_refl)
    as (p' & _ & Ha & _ & Hd & _ & _ & _ & _ & Hidx).
  exists p'. split; [exact Ha|]. split; [exact Hd|exact Hidx].
Defined.

Lemma sequential_fill_witness :
  5 < SIZE_MODULUS ∧ (5 ≤ N.to_nat 5)%nat ∧
  ∃ p0 f p',
    assign_all [(element_at 0, modified)] (CObjectPool_new (T:=CColor) 5)
    = Some p0 ∧
    UseNext_times 5 0 p0
    = Some ([(value (element_at 0), 0); (value (element_at 1), 1);
             (value (element_at 2), 2); (value (element_at 3), 3);
             (value (element_at 4), 4)], f, p') ∧
    ObjectsInUse p' = 5 ∧
    deref p' (element_at 0) = Some modified ∧
    deref p' (element_at 1) = Some T_default ∧
    UseNext 9 p' = Some (unexpected FULL, 9, p').
Proof.
  assert (Hsz : 5 < SIZE_MODULUS) by reflexivity.
  assert (Hm : (5 ≤ N.to_nat 5)%nat) by (simpl; lia).
  split; [exact Hsz|]. split; [exact Hm|].
  assert (Hp0 : assign_all [(element_at 0, modified)] (CObjectPool_new (T:=CColor) 5)
                = Some {| poolSize := 5; nextIdx := 0; objectsInUse := 0;
                          pool := {| bInUse := false; object := modified |}
                                    :: replicate 4 {| bInUse := false;
                                                      object := T_default |} |})
    by reflexivity.
  destruct (sequential_fill (T:=CColor) 5 5 (0, 0, 0) _ _ 0 Hsz Hm (or_introl Hp0))
    as (f & p' & Hfill & _ & _ & Hc & _ & Hd & Hfull).
  eexists _, f, p'. split; [exact Hp0|]. split; [exact Hfill|].
  split; [exact Hc|]. split; [rewrite Hd; reflexivity|].
  split; [rewrite Hd; reflexivity|]. exact (Hfull eq_refl 9).
Defined.

Lemma freed_slot_behind_cursor_witness :
  5 < SIZE_MODULUS ∧ (3 < N.to_nat 5)%nat ∧ 1 < N.of_nat 3 ∧
  ∃ f p_j p_gap p',
    UseNext_times 3 0 (CObjectPool_new (T:=CColor) 5)
    = Some ([(value (element_at 0), 0); (value (element_at 1), 1);
             (value (element_at 2), 2)], f, p_j) ∧
    UnUse 1 p_j = Some (value (), p_gap) ∧
    UseNext f p_gap = Some (value (element_at 3), 3, p') ∧
    IsInUse 1 p' = Some false.
Proof.
  assert (Hsz : 5 < SIZE_MODULUS) by reflexivity.
  assert (Hj : (3 < N.to_nat 5)%nat) by (simpl; lia).
  assert (Hk : 1 < N.of_nat 3) by reflexivity.
  split; [exact Hsz|]. split; [exact Hj|]. split; [exact Hk|].
  destruct (freed_slot_behind_cursor (T:=CColor) 5 1 3 0 Hsz Hj Hk)
    as (f & p_j & p_gap & p' & Hfill & Hun & _ & Hnext & Hfree).
  exists f, p_j, p_gap, p'. split; [exact Hfill|]. split; [exact Hun|].
  split; [exact Hnext|exact Hfree].
Defined.

Lemma traversal_visits_active_slots_witness :
  wf gap_pool ∧ (N.to_nat (poolSize gap_pool) < 4)%nat ∧
  traverse 4 gap_pool
  = Some [(element_at 0, T_default); (element_at 2, T_default)] ∧
  active_indices gap_pool = [0; 2].
Proof.
  assert (Hfuel : (N.to_nat (poolSize gap_pool) < 4)%nat) by (simpl; lia).
  split; [exact wf_gap_pool|]. split; [exact Hfuel|].
  destruct (traversal_visits_active_slots gap_pool 4 wf_gap_pool Hfuel)
    as (Htr & _).
  split; [exact Htr|reflexivity].
Defined.

Lemma begin_equals_end_iff_empty_witness :
  wf one_active ∧
  ∃ first last,
    pool_begin one_active = Some first ∧ pool_end one_active = Some last ∧
    iter_eq first last = false.
Proof.
  split; [exact wf_one_active|].
  destruct (begin_equals_end_iff_empty one_active wf_one_active)
    as (first & last & Hb & He & Hiff & _).
  exists first, last. split; [exact Hb|]. split; [exact He|].
  destruct (iter_eq first last) eqn:Heq; [|reflexivity].
  destruct (proj1 Hiff eq_refl 1). reflexivity.
Defined.

Lemma increment_moves_to_next_active_witness :
  wf gap_pool ∧
  valid_iter gap_pool
    {| currentPos := 0; pObject := element_at 0; pPool := this_pool |} ∧
  ∃ it',
    iter_incr gap_pool
      {| currentPos := 0; pObject := element_at 0; pPool := this_pool |}
    = Some it' ∧
    0 < currentPos it' ∧ currentPos it' ≤ 3.
Proof.
  assert (Hv : valid_iter gap_pool
            {| currentPos := 0; pObject := element_at 0; pPool := this_pool |}).
  { split; [reflexivity|]. left. split; reflexivity. }
  split; [exact wf_gap_pool|]. split; [exact Hv|].
  destruct (increment_moves_to_next_active gap_pool _ wf_gap_pool Hv)
    as (it' & Hinc & _ & _ & Hact & _ & _).
  destruct (Hact eq_refl) as (Hlt & Hle & _).
  exists it'. split; [exact Hinc|]. split; [exact Hlt|exact Hle].
Defined.

Lemma fresh_pool_witness :
  3 < SIZE_MODULUS ∧
  wf (CObjectPool_new (T:=CColor) 3) ∧
  deref (CObjectPool_new_args (T:=CColor) 3 (255, 128, 64)) (element_at 2)
  = Some {| r := 255; g := 128; b := 64 |} ∧
  ∃ p', UseNext 0 (CObjectPool_new (T:=CColor) 3)
        = Some (value (element_at 0), 0, p').
Proof.
  assert (Hsz : 3 < SIZE_MODULUS) by reflexivity.
  split; [exact Hsz|].
  destruct (fresh_pool (T:=CColor) 3 (255, 128, 64) 0 Hsz)
    as (Hwf & _ & _ & _ & _ & _ & _ & _ & Hsame & _ & Hnext & _).
  split; [exact Hwf|]. split; [apply (Hsame eq_refl 2); reflexivity|].
  apply Hnext. reflexivity.
Defined.

End ContractScenarios.

End ObjectPool.
